(** * DDV ("Masher") frame decoder: a shallow embedding of
      [src/oddlib/masher.cpp] and the properties of its decoding stages.

    Conventions of the embedding.
    - C++ fixed-width integers are values of [Z]; every conversion to a
      narrower or differently signed type is written out with [u8], [u16],
      [s16], [u32], [s32] or [s8].
    - A C array is a [list Z] read with stdpp's lookup [l !! i] and updated
      with [<[i:=v]> l].  In the video path an access that leaves its array
      is a fault ([None]); the audio bit reader, which always reads one word
      ahead, sees its frame as a total map from word index to word.
    - A pointer that only moves forward through a word stream is the list of
      words from the pointer onwards.
    - Loops are [Fixpoint]s on the number of iterations left (or on the input
      they consume); a loop without a static bound takes [fuel].
    - Tables and declarations that live in headers outside [masher.cpp] are
      parameters of the definitions that use them. *)

From Stdlib Require Import ZArith Lia List Bool Strings.Byte.
From stdpp Require Import base list strings.
Import ListNotations.

Local Open Scope Z_scope.

(** ** Fixed-width integers *)

Module Int.

Definition u8 (z : Z) : Z := z mod 2 ^ 8.
Definition u16 (z : Z) : Z := z mod 2 ^ 16.
Definition u32 (z : Z) : Z := z mod 2 ^ 32.

Definition s8 (z : Z) : Z := (z + 2 ^ 7) mod 2 ^ 8 - 2 ^ 7.
Definition s16 (z : Z) : Z := (z + 2 ^ 15) mod 2 ^ 16 - 2 ^ 15.
Definition s32 (z : Z) : Z := (z + 2 ^ 31) mod 2 ^ 32 - 2 ^ 31.

Lemma u16_range z : 0 <= u16 z < 65536.
Proof. unfold u16. change (2 ^ 16) with 65536. apply Z.mod_pos_bound. lia. Qed.

Lemma u32_range z : 0 <= u32 z < 4294967296.
Proof. unfold u32. change (2 ^ 32) with 4294967296. apply Z.mod_pos_bound. lia. Qed.

Lemma s16_range z : -32768 <= s16 z < 32768.
Proof.
  unfold s16. change (2 ^ 16) with 65536. change (2 ^ 15) with 32768.
  pose proof (Z.mod_pos_bound (z + 32768) 65536). lia.
Qed.

Lemma s32_range z : -2147483648 <= s32 z < 2147483648.
Proof.
  unfold s32. change (2 ^ 32) with 4294967296. change (2 ^ 31) with 2147483648.
  pose proof (Z.mod_pos_bound (z + 2147483648) 4294967296). lia.
Qed.

Lemma u16_id z : 0 <= z < 65536 -> u16 z = z.
Proof. intros H. unfold u16. change (2 ^ 16) with 65536. apply Z.mod_small; lia. Qed.

Lemma u32_id z : 0 <= z < 4294967296 -> u32 z = z.
Proof. intros H. unfold u32. change (2 ^ 32) with 4294967296. apply Z.mod_small; lia. Qed.

Lemma s16_id z : -32768 <= z < 32768 -> s16 z = z.
Proof.
  intros H. unfold s16. change (2 ^ 16) with 65536. change (2 ^ 15) with 32768.
  rewrite Z.mod_small; lia.
Qed.

Lemma s32_id z : -2147483648 <= z < 2147483648 -> s32 z = z.
Proof.
  intros H. unfold s32. change (2 ^ 32) with 4294967296.
  change (2 ^ 31) with 2147483648. rewrite Z.mod_small; lia.
Qed.

(** The count of a 32-bit shift by a run-time value.  C++ leaves a count
    outside 0..31 undefined; the shift instruction of the compiled program
    takes the low five bits of the count, which is what the decoder does on
    such a count. *)
Definition count32 (n : Z) : Z := Z.land n 31.

Lemma count32_id n : 0 <= n < 32 -> count32 n = n.
Proof.
  intros H. unfold count32. change 31 with (Z.ones 5).
  rewrite Z.land_ones by lia. apply Z.mod_small. change (2 ^ 5) with 32. lia.
Qed.

Lemma count32_range n : 0 <= count32 n < 32.
Proof.
  unfold count32. change 31 with (Z.ones 5). rewrite Z.land_ones by lia.
  change (2 ^ 5) with 32. apply Z.mod_pos_bound. lia.
Qed.

End Int.
Import Int.

(** ** Constant tables of [masher.cpp] *)

Module Tables.

Definition gQuant1_dword_42AEC8 : list Z :=
  [ 0x0C; 0x0B; 0x0A; 0x0C; 0x0E; 0x0E; 0x0D; 0x0E;
    0x10; 0x18; 0x13; 0x10; 0x11; 0x12; 0x18; 0x16;
    0x16; 0x18; 0x1A; 0x28; 0x33; 0x3A; 0x28; 0x1D;
    0x25; 0x23; 0x31; 0x48; 0x40; 0x37; 0x38; 0x33;
    0x39; 0x3C; 0x3D; 0x37; 0x45; 0x57; 0x44; 0x40;
    0x4E; 0x5C; 0x5F; 0x57; 0x51; 0x6D; 0x50; 0x38;
    0x3E; 0x67; 0x68; 0x67; 0x62; 0x70; 0x79; 0x71;
    0x4D; 0x5C; 0x78; 0x64; 0x67; 0x65; 0x63; 0x10 ].

Definition gQaunt2_dword_42AFC4 : list Z :=
  [ 0x10; 0x12; 0x12; 0x18; 0x15; 0x18; 0x2F; 0x1A;
    0x1A; 0x2F; 0x63; 0x42; 0x38; 0x42; 0x63; 0x63;
    0x63; 0x63; 0x63; 0x63; 0x63; 0x63; 0x63; 0x63;
    0x63; 0x63; 0x63; 0x63; 0x63; 0x63; 0x63; 0x63;
    0x63; 0x63; 0x63; 0x63; 0x63; 0x63; 0x63; 0x63;
    0x63; 0x63; 0x63; 0x63; 0x63; 0x63; 0x63; 0x63;
    0x63; 0x63; 0x63; 0x63; 0x63; 0x63; 0x63; 0x63;
    0x63; 0x63; 0x63; 0x63; 0x63; 0x63; 0x63; 0x63 ].

Definition g_index_look_up_table : list Z :=
  [ 0x01; 0x08; 0x10; 0x09; 0x02; 0x03; 0x0A; 0x11;
    0x18; 0x20; 0x19; 0x12; 0x0B; 0x04; 0x05; 0x0C;
    0x13; 0x1A; 0x21; 0x28; 0x30; 0x29; 0x22; 0x1B;
    0x14; 0x0D; 0x06; 0x07; 0x0E; 0x15; 0x1C; 0x23;
    0x2A; 0x31; 0x38; 0x39; 0x32; 0x2B; 0x24; 0x1D;
    0x16; 0x0F; 0x17; 0x1E; 0x25; 0x2C; 0x33; 0x3A;
    0x3B; 0x34; 0x2D; 0x26; 0x1F; 0x27; 0x2E; 0x35;
    0x3C; 0x3D; 0x36; 0x2F; 0x37; 0x3E; 0x3F; 0x98E ].

Definition RL_ZSCAN_MATRIX_2 : list Z :=
  [ 0x00; 0x01; 0x08; 0x10; 0x09; 0x02; 0x03; 0x0A;
    0x11; 0x18; 0x20; 0x19; 0x12; 0x0B; 0x04; 0x05;
    0x0C; 0x13; 0x1A; 0x21; 0x28; 0x30; 0x29; 0x22;
    0x1B; 0x14; 0x0D; 0x06; 0x07; 0x0E; 0x15; 0x1C;
    0x23; 0x2A; 0x31; 0x38; 0x39; 0x32; 0x2B; 0x24;
    0x1D; 0x16; 0x0F; 0x17; 0x1E; 0x25; 0x2C; 0x33;
    0x3A; 0x3B; 0x34; 0x2D; 0x26; 0x1F; 0x27; 0x2E;
    0x35; 0x3C; 0x3D; 0x36; 0x2F; 0x37; 0x3E; 0x3F ].

Definition g_block_related_2_dword_42B0CC : list Z :=
  [ 0x08; 0x10; 0x09; 0x02; 0x03; 0x0A; 0x11; 0x18;
    0x20; 0x19; 0x12; 0x0B; 0x04; 0x05; 0x0C; 0x13;
    0x1A; 0x21; 0x28; 0x30; 0x29; 0x22; 0x1B; 0x14;
    0x0D; 0x06; 0x07; 0x0E; 0x15; 0x1C; 0x23; 0x2A;
    0x31; 0x38; 0x39; 0x32; 0x2B; 0x24; 0x1D; 0x16;
    0x0F; 0x17; 0x1E; 0x25; 0x2C; 0x33; 0x3A; 0x3B;
    0x34; 0x2D; 0x26; 0x1F; 0x27; 0x2E; 0x35; 0x3C;
    0x3D; 0x36; 0x2F; 0x37; 0x3E; 0x3F; 0x98E; 0x98E ].

Definition g_block_related_3_dword_42B0D0 : list Z :=
  [ 0x10; 0x09; 0x02; 0x03; 0x0A; 0x11; 0x18; 0x20;
    0x19; 0x12; 0x0B; 0x04; 0x05; 0x0C; 0x13; 0x1A;
    0x21; 0x28; 0x30; 0x29; 0x22; 0x1B; 0x14; 0x0D;
    0x06; 0x07; 0x0E; 0x15; 0x1C; 0x23; 0x2A; 0x31;
    0x38; 0x39; 0x32; 0x2B; 0x24; 0x1D; 0x16; 0x0F;
    0x17; 0x1E; 0x25; 0x2C; 0x33; 0x3A; 0x3B; 0x34;
    0x2D; 0x26; 0x1F; 0x27; 0x2E; 0x35; 0x3C; 0x3D;
    0x36; 0x2F; 0x37; 0x3E; 0x3F; 0x98E; 0x98E; 0xF384 ].

End Tables.
Import Tables.

(** ** Per-frame dequantisation tables: [after_block_decode_no_effect_q_impl] *)

Module Dequant.

(** The two process-wide scratch arrays [g_252_buffer_unk_63580C] (selected
    for luma blocks) and [g_252_buffer_unk_635A0C] (selected for chroma). *)
Record quant_buffers := mkQ {
  g_252_buffer_unk_63580C : list Z;
  g_252_buffer_unk_635A0C : list Z
}.

(** The zero-initialised globals at program start. *)
Definition quant_buffers_init : quant_buffers :=
  mkQ (replicate 64 0) (replicate 64 0).

(** A read of a constant table at an index the caller keeps in range. *)
Definition tbl (t : list Z) (i : nat) : Z := default 0 (t !! i).

(** Body of the [do { ... } while (result < 63)] loop; [n] bounds the number
    of iterations (63 suffice from [result = 0]). *)
Fixpoint scale_loop (n : nat) (quantScale : Z) (result : nat)
    (q : quant_buffers) : quant_buffers :=
  match n with
  | O => q
  | S n' =>
      let val := tbl gQuant1_dword_42AEC8 result in
      let result := S result in
      let q :=
        mkQ (<[result := u32 (quantScale * val)]> (g_252_buffer_unk_63580C q))
            (<[result := u32 (quantScale * tbl gQaunt2_dword_42AFC4 result)]>
               (g_252_buffer_unk_635A0C q)) in
      if (result <? 63)%nat then scale_loop n' quantScale result q else q
  end.

(** Body of [for (int i = 0; i < 64; i++)] in the [else] branch. *)
Fixpoint fill16_loop (n : nat) (i : nat) (q : quant_buffers) : quant_buffers :=
  match n with
  | O => q
  | S n' =>
      fill16_loop n' (S i)
        (mkQ (<[i := 16]> (g_252_buffer_unk_63580C q))
             (<[i := 16]> (g_252_buffer_unk_635A0C q)))
  end.

Definition after_block_decode_no_effect_q_impl (quantScale : Z)
    (q : quant_buffers) : quant_buffers :=
  let q := mkQ (<[0%nat := 16]> (g_252_buffer_unk_63580C q))
               (<[0%nat := 16]> (g_252_buffer_unk_635A0C q)) in
  if 0 <? quantScale then scale_loop 63 quantScale 0 q
  else fill16_loop 64 0 q.

(** *** Properties *)

Lemma scale_loop_spec (quantScale : Z) (n result : nat) (q : quant_buffers) :
  (result + n = 63)%nat ->
  length (g_252_buffer_unk_63580C q) = 64%nat ->
  length (g_252_buffer_unk_635A0C q) = 64%nat ->
  let q' := scale_loop n quantScale result q in
  length (g_252_buffer_unk_63580C q') = 64%nat /\
  length (g_252_buffer_unk_635A0C q') = 64%nat /\
  (forall j : nat, (j <= result)%nat ->
     g_252_buffer_unk_63580C q' !! j = g_252_buffer_unk_63580C q !! j /\
     g_252_buffer_unk_635A0C q' !! j = g_252_buffer_unk_635A0C q !! j) /\
  (forall j : nat, (result <= j < 63)%nat ->
     g_252_buffer_unk_63580C q' !! S j
       = Some (u32 (quantScale * tbl gQuant1_dword_42AEC8 j)) /\
     g_252_buffer_unk_635A0C q' !! S j
       = Some (u32 (quantScale * tbl gQaunt2_dword_42AFC4 (S j)))).
Proof.
  revert result q. induction n as [|n IH]; intros result q Hn HY HC; simpl.
  - repeat split; auto; intros; lia.
  - set (q1 := mkQ _ _).
    assert (HY1 : length (g_252_buffer_unk_63580C q1) = 64%nat)
      by (subst q1; simpl; rewrite length_insert; exact HY).
    assert (HC1 : length (g_252_buffer_unk_635A0C q1) = 64%nat)
      by (subst q1; simpl; rewrite length_insert; exact HC).
    assert (Hhere :
      g_252_buffer_unk_63580C q1 !! S result
        = Some (u32 (quantScale * tbl gQuant1_dword_42AEC8 result)) /\
      g_252_buffer_unk_635A0C q1 !! S result
        = Some (u32 (quantScale * tbl gQaunt2_dword_42AFC4 (S result)))).
    { subst q1; simpl. split; apply list_lookup_insert_eq; lia. }
    assert (Hkeep : forall j : nat, (j <= result)%nat ->
      g_252_buffer_unk_63580C q1 !! j = g_252_buffer_unk_63580C q !! j /\
      g_252_buffer_unk_635A0C q1 !! j = g_252_buffer_unk_635A0C q !! j).
    { intros j Hj. subst q1; simpl. split; apply list_lookup_insert_ne; lia. }
    destruct (Nat.ltb_spec (S result) 63) as [Hlt|Hge].
    + destruct (IH (S result) q1 ltac:(lia) HY1 HC1) as (LY & LC & Keep & Set_).
      split; [exact LY|]. split; [exact LC|]. split.
      * intros j Hj. destruct (Keep j ltac:(lia)) as [-> ->]. apply Hkeep, Hj.
      * intros j Hj. destruct (Nat.eq_dec j result) as [->|Hne].
        -- destruct (Keep (S result) ltac:(lia)) as [-> ->]. exact Hhere.
        -- apply Set_. lia.
    + split; [exact HY1|]. split; [exact HC1|]. split; [exact Hkeep|].
      intros j Hj. assert (j = result) as -> by lia. exact Hhere.
Qed.

Lemma fill16_loop_spec (n i : nat) (q : quant_buffers) :
  (i + n = 64)%nat ->
  length (g_252_buffer_unk_63580C q) = 64%nat ->
  length (g_252_buffer_unk_635A0C q) = 64%nat ->
  let q' := fill16_loop n i q in
  length (g_252_buffer_unk_63580C q') = 64%nat /\
  length (g_252_buffer_unk_635A0C q') = 64%nat /\
  (forall j : nat, (j < i)%nat ->
     g_252_buffer_unk_63580C q' !! j = g_252_buffer_unk_63580C q !! j /\
     g_252_buffer_unk_635A0C q' !! j = g_252_buffer_unk_635A0C q !! j) /\
  (forall j : nat, (i <= j < 64)%nat ->
     g_252_buffer_unk_63580C q' !! j = Some 16 /\
     g_252_buffer_unk_635A0C q' !! j = Some 16).
Proof.
  revert i q. induction n as [|n IH]; intros i q Hn HY HC; simpl.
  - repeat split; auto; intros; lia.
  - set (q1 := mkQ _ _).
    destruct (IH (S i) q1 ltac:(lia)) as (LY & LC & Keep & Set_).
    { subst q1; simpl; rewrite length_insert; exact HY. }
    { subst q1; simpl; rewrite length_insert; exact HC. }
    split; [exact LY|]. split; [exact LC|]. split.
    + intros j Hj. destruct (Keep j ltac:(lia)) as [-> ->].
      subst q1; simpl. split; apply list_lookup_insert_ne; lia.
    + intros j Hj. destruct (Nat.eq_dec j i) as [->|Hne].
      * destruct (Keep i ltac:(lia)) as [-> ->].
        subst q1; simpl. split; apply list_lookup_insert_eq; lia.
      * apply Set_. lia.
Qed.

Lemma gQuant1_bound (i : nat) : 0 <= tbl gQuant1_dword_42AEC8 i <= 121.
Proof.
  do 64 (destruct i as [|i]; [vm_compute; split; discriminate|]).
  vm_compute; split; discriminate.
Qed.

Lemma gQaunt2_bound (i : nat) : 0 <= tbl gQaunt2_dword_42AFC4 i <= 99.
Proof.
  do 64 (destruct i as [|i]; [vm_compute; split; discriminate|]).
  vm_compute; split; discriminate.
Qed.

(** C1 (as the code has it). With the two scratch arrays at their 64 entries
    and a frame scale [quantScale] in the range of the 16-bit word it is read
    from, the setup leaves both arrays 64 entries long with entry 0 equal to
    16; for [quantScale > 0] and every [i] in 0..62 the luma array holds
    [quantScale * gQuant1[i]] at [i+1] while the chroma array holds
    [quantScale * gQaunt2[i+1]] at [i+1] (the chroma base table is read at the
    incremented index); for [quantScale = 0] every entry of both is 16. *)
Theorem after_block_decode_tables (quantScale : Z) (q : quant_buffers) :
  0 <= quantScale < 65536 ->
  length (g_252_buffer_unk_63580C q) = 64%nat ->
  length (g_252_buffer_unk_635A0C q) = 64%nat ->
  let q' := after_block_decode_no_effect_q_impl quantScale q in
  length (g_252_buffer_unk_63580C q') = 64%nat /\
  length (g_252_buffer_unk_635A0C q') = 64%nat /\
  g_252_buffer_unk_63580C q' !! 0%nat = Some 16 /\
  g_252_buffer_unk_635A0C q' !! 0%nat = Some 16 /\
  (0 < quantScale -> forall i : nat, (i < 63)%nat ->
     g_252_buffer_unk_63580C q' !! S i
       = Some (quantScale * tbl gQuant1_dword_42AEC8 i) /\
     g_252_buffer_unk_635A0C q' !! S i
       = Some (quantScale * tbl gQaunt2_dword_42AFC4 (S i))) /\
  (quantScale = 0 -> forall i : nat, (i < 64)%nat ->
     g_252_buffer_unk_63580C q' !! i = Some 16 /\
     g_252_buffer_unk_635A0C q' !! i = Some 16).
Proof.
  intros Hq HY HC. unfold after_block_decode_no_effect_q_impl.
  set (q0 := mkQ _ _).
  assert (HY0 : length (g_252_buffer_unk_63580C q0) = 64%nat)
    by (subst q0; simpl; rewrite length_insert; exact HY).
  assert (HC0 : length (g_252_buffer_unk_635A0C q0) = 64%nat)
    by (subst q0; simpl; rewrite length_insert; exact HC).
  assert (H0 : g_252_buffer_unk_63580C q0 !! 0%nat = Some 16 /\
               g_252_buffer_unk_635A0C q0 !! 0%nat = Some 16).
  { subst q0; simpl. split; apply list_lookup_insert_eq; lia. }
  destruct (Z.ltb_spec 0 quantScale) as [Hpos|Hle]; cbv zeta.
  - destruct (scale_loop_spec quantScale 63 0 q0 eq_refl HY0 HC0)
      as (LY & LC & Keep & Set_).
    split; [exact LY|]. split; [exact LC|].
    destruct (Keep 0%nat ltac:(lia)) as [-> ->].
    split; [apply H0|]. split; [apply H0|]. split; [|intros; lia].
    intros _ i Hi. destruct (Set_ i ltac:(lia)) as [-> ->].
    pose proof (gQuant1_bound i). pose proof (gQaunt2_bound (S i)).
    rewrite !u32_id by nia. split; reflexivity.
  - destruct (fill16_loop_spec 64 0 q0 eq_refl HY0 HC0)
      as (LY & LC & Keep & Set_).
    split; [exact LY|]. split; [exact LC|].
    split; [apply Set_; lia|]. split; [apply Set_; lia|].
    split; [intros; lia|]. intros _ i Hi. apply Set_. lia.
Qed.

(** Witness for C1: scale 3 on the zero-initialised arrays. *)
Lemma after_block_decode_tables_witness :
  let q' := after_block_decode_no_effect_q_impl 3 quant_buffers_init in
  g_252_buffer_unk_63580C q' !! 1%nat = Some (3 * 12) /\
  g_252_buffer_unk_635A0C q' !! 1%nat = Some (3 * 18).
Proof.
  destruct (after_block_decode_tables 3 quant_buffers_init
              ltac:(lia) eq_refl eq_refl) as (_ & _ & _ & _ & Hpos & _).
  exact (Hpos ltac:(lia) 0%nat ltac:(lia)).
Defined.

(** C1, the sentence as the specification words it fails: at scale 1 the
    chroma array does not hold [1 * gQaunt2[i]] at [i+1] for every [i]
    (entry 1 is [gQaunt2[1] = 18], not [gQaunt2[0] = 16]). *)
Lemma chroma_table_not_shifted :
  let q' := after_block_decode_no_effect_q_impl 1 quant_buffers_init in
  ~ (forall i : nat, (i < 63)%nat ->
       g_252_buffer_unk_635A0C q' !! S i
         = Some (1 * tbl gQaunt2_dword_42AFC4 i)).
Proof.
  intros q' H. specialize (H 0%nat ltac:(lia)). vm_compute in H. discriminate.
Qed.

(** *** The tables are a function of the frame scale *)

(** Every entry of both arrays after the setup, for any [int] scale. *)
Lemma after_block_decode_entries (quantScale : Z) (q : quant_buffers) :
  length (g_252_buffer_unk_63580C q) = 64%nat ->
  length (g_252_buffer_unk_635A0C q) = 64%nat ->
  let q' := after_block_decode_no_effect_q_impl quantScale q in
  length (g_252_buffer_unk_63580C q') = 64%nat /\
  length (g_252_buffer_unk_635A0C q') = 64%nat /\
  forall i : nat, (i < 64)%nat ->
    g_252_buffer_unk_63580C q' !! i
      = Some (if (0 <? quantScale) && negb (i =? 0)%nat
              then u32 (quantScale * tbl gQuant1_dword_42AEC8 (i - 1))
              else 16) /\
    g_252_buffer_unk_635A0C q' !! i
      = Some (if (0 <? quantScale) && negb (i =? 0)%nat
              then u32 (quantScale * tbl gQaunt2_dword_42AFC4 i)
              else 16).
Proof.
  intros HY HC. unfold after_block_decode_no_effect_q_impl.
  set (q0 := mkQ _ _).
  assert (HY0 : length (g_252_buffer_unk_63580C q0) = 64%nat)
    by (subst q0; simpl; rewrite length_insert; exact HY).
  assert (HC0 : length (g_252_buffer_unk_635A0C q0) = 64%nat)
    by (subst q0; simpl; rewrite length_insert; exact HC).
  assert (H0 : g_252_buffer_unk_63580C q0 !! 0%nat = Some 16 /\
               g_252_buffer_unk_635A0C q0 !! 0%nat = Some 16).
  { subst q0; simpl. split; apply list_lookup_insert_eq; lia. }
  destruct (Z.ltb_spec 0 quantScale) as [Hpos|Hle]; cbv zeta.
  - destruct (scale_loop_spec quantScale 63 0 q0 eq_refl HY0 HC0)
      as (LY & LC & Keep & Set_).
    split; [exact LY|]. split; [exact LC|]. intros i Hi.
    destruct i as [|i]; cbn [andb negb Nat.eqb].
    + destruct (Keep 0%nat ltac:(lia)) as [-> ->]. exact H0.
    + replace (S i - 1)%nat with i by lia. apply Set_. lia.
  - destruct (fill16_loop_spec 64 0 q0 eq_refl HY0 HC0)
      as (LY & LC & Keep & Set_).
    split; [exact LY|]. split; [exact LC|]. intros i Hi.
    cbn [andb]. apply Set_. lia.
Qed.

(** The setup overwrites all 64 entries of both arrays: what it leaves does
    not depend on what the arrays held (the tables of the previous frame),
    only on the scale. *)
Theorem after_block_decode_forgets_old_tables (quantScale : Z)
    (q1 q2 : quant_buffers) :
  length (g_252_buffer_unk_63580C q1) = 64%nat ->
  length (g_252_buffer_unk_635A0C q1) = 64%nat ->
  length (g_252_buffer_unk_63580C q2) = 64%nat ->
  length (g_252_buffer_unk_635A0C q2) = 64%nat ->
  after_block_decode_no_effect_q_impl quantScale q1
  = after_block_decode_no_effect_q_impl quantScale q2.
Proof.
  intros HY1 HC1 HY2 HC2.
  destruct (after_block_decode_entries quantScale q1 HY1 HC1) as (LY1 & LC1 & E1).
  destruct (after_block_decode_entries quantScale q2 HY2 HC2) as (LY2 & LC2 & E2).
  destruct (after_block_decode_no_effect_q_impl quantScale q1) as [y1 c1].
  destruct (after_block_decode_no_effect_q_impl quantScale q2) as [y2 c2].
  cbn [g_252_buffer_unk_63580C g_252_buffer_unk_635A0C] in *.
  f_equal; apply list_eq; intros i;
    (destruct (Nat.lt_ge_cases i 64) as [Hi|Hi];
     [ destruct (E1 i Hi) as [A1 B1]; destruct (E2 i Hi) as [A2 B2]; congruence
     | rewrite !lookup_ge_None_2 by lia; reflexivity ]).
Qed.

(** An instance: the tables for scale 5 built over the zeroed arrays and
    over the tables of a frame of scale 9. *)
Lemma after_block_decode_forgets_old_tables_witness :
  after_block_decode_no_effect_q_impl 5 quant_buffers_init
  = after_block_decode_no_effect_q_impl 5
      (after_block_decode_no_effect_q_impl 9 quant_buffers_init).
Proof.
  apply (after_block_decode_forgets_old_tables 5 quant_buffers_init
           (after_block_decode_no_effect_q_impl 9 quant_buffers_init));
    vm_compute; reflexivity.
Defined.

End Dequant.

(** ** Word packing helpers *)

Module Words.

Definition GetHiWord (v : Z) : Z := Z.land (Z.shiftr (u32 v) 16) 0xFFFF.

Definition MAKELONG (a b : Z) : Z :=
  Z.lor (u16 (Z.land a 0xffff)) (u32 (Z.shiftl (u16 (Z.land b 0xffff)) 16)).

Definition SetLoWord (v lo : Z) : Z := MAKELONG lo (GetHiWord v).

Definition SetHiWord (v hi : Z) : Z := MAKELONG (Z.land v 0xFFFF) hi.

(** The bits [hi..lo] of [x], as an unsigned number. *)
Definition bit_field (x : Z) (hi lo : Z) : Z :=
  Z.land (Z.shiftr x lo) (2 ^ (hi - lo + 1) - 1).

(** Two's-complement reading of an [n]-bit unsigned number. *)
Definition sign_extend (n : Z) (x : Z) : Z :=
  if Z.testbit x (n - 1) then x - 2 ^ n else x.

(** The integers [lo, lo+1, ..., lo+n-1]. *)
Fixpoint zcount (n : nat) (lo : Z) : list Z :=
  match n with
  | O => []
  | S n' => lo :: zcount n' (lo + 1)
  end.

(** The integers [lo, lo+1, ..., hi-1]. *)
Definition zrange (lo hi : Z) : list Z := zcount (Z.to_nat (hi - lo)) lo.

Lemma in_zcount (n : nat) (lo x : Z) :
  lo <= x < lo + Z.of_nat n -> In x (zcount n lo).
Proof.
  revert lo. induction n as [|n IH]; intros lo H; simpl.
  - lia.
  - destruct (Z.eq_dec lo x); [left; assumption|right; apply IH; lia].
Qed.

Lemma in_zrange (lo hi x : Z) : lo <= x < hi -> In x (zrange lo hi).
Proof. intros H. apply in_zcount. lia. Qed.

(** A boolean check run over a whole integer range. *)
Lemma forall_zrange (P : Z -> bool) (lo hi : Z) :
  forallb P (zrange lo hi) = true ->
  forall x, lo <= x < hi -> P x = true.
Proof.
  intros Hall x Hx. rewrite forallb_forall in Hall.
  apply Hall, in_zrange, Hx.
Qed.

(** The positions [p], [p + stride], ..., [n] of them. *)
Fixpoint strided (n : nat) (p stride : Z) : list Z :=
  match n with
  | O => []
  | S n' => p :: strided n' (p + stride) stride
  end.

Lemma strided_length (n : nat) (p stride : Z) : length (strided n p stride) = n.
Proof. revert p. induction n; intros p; simpl; auto. Qed.

Lemma strided_app (n m : nat) (p stride : Z) :
  strided (n + m) p stride
  = strided n p stride ++ strided m (p + Z.of_nat n * stride) stride.
Proof.
  revert p. induction n as [|n IH]; intros p.
  - simpl. f_equal. lia.
  - cbn [Nat.add strided app]. rewrite IH. do 3 f_equal. lia.
Qed.

Lemma in_strided (n : nat) (p stride q : Z) :
  In q (strided n p stride) <->
  exists k, 0 <= k < Z.of_nat n /\ q = p + k * stride.
Proof.
  revert p. induction n as [|n IH]; intros p; cbn [strided In].
  - split; [tauto|]. intros (k & Hk & _). lia.
  - rewrite IH. split.
    + intros [<-|(k & Hk & ->)].
      * exists 0. split; lia.
      * exists (k + 1). split; lia.
    + intros (k & Hk & ->). destruct (Z.eq_dec k 0) as [->|Hne].
      * left. lia.
      * right. exists (k - 1). split; lia.
Qed.

Lemma zcount_strided (n : nat) (lo : Z) : zcount n lo = strided n lo 1.
Proof. revert lo. induction n as [|n IH]; intros lo; simpl; [|rewrite IH]; reflexivity. Qed.


(** *** The two halves of a packed word *)

Lemma land_ffff (v : Z) : Z.land v 0xFFFF = v mod 65536.
Proof. change 0xFFFF with (Z.ones 16). rewrite Z.land_ones by lia. reflexivity. Qed.

Lemma lor_high_low (hi lo : Z) :
  0 <= lo < 65536 -> Z.lor lo (hi * 65536) = lo + hi * 65536.
Proof.
  intros Hlo.
  assert (H : Z.land lo (hi * 65536) = 0).
  { apply Z.bits_inj'. intros n Hn. rewrite Z.land_spec, Z.bits_0.
    destruct (Z_lt_le_dec n 16) as [Hlt|Hge].
    - change 65536 with (2 ^ 16). rewrite Z.mul_pow2_bits_low by lia.
      apply andb_false_r.
    - rewrite <- (Z.mod_small lo (2 ^ 16)) by (change (2 ^ 16) with 65536; lia).
      rewrite Z.mod_pow2_bits_high by lia. reflexivity. }
  rewrite <- Z.lxor_lor by exact H. symmetry. apply Z.add_nocarry_lxor, H.
Qed.

Lemma MAKELONG_value (a b : Z) :
  MAKELONG a b = a mod 65536 + (b mod 65536) * 65536.
Proof.
  unfold MAKELONG. rewrite !land_ffff. unfold u16, u32.
  change (2 ^ 16) with 65536. change (2 ^ 32) with 4294967296.
  rewrite !Z.mod_mod by lia. rewrite Z.shiftl_mul_pow2 by lia.
  change (2 ^ 16) with 65536.
  pose proof (Z.mod_pos_bound a 65536 ltac:(lia)).
  pose proof (Z.mod_pos_bound b 65536 ltac:(lia)).
  rewrite (Z.mod_small (_ * 65536)) by lia.
  apply lor_high_low. lia.
Qed.

Lemma GetHiWord_value (v : Z) : GetHiWord v = (v mod 4294967296) / 65536.
Proof.
  unfold GetHiWord, u32. rewrite land_ffff, Z.shiftr_div_pow2 by lia.
  change (2 ^ 32) with 4294967296. change (2 ^ 16) with 65536.
  pose proof (Z.mod_pos_bound v 4294967296 ltac:(lia)).
  apply Z.mod_small. split.
  - apply Z.div_pos; lia.
  - apply Z.div_lt_upper_bound; lia.
Qed.

Lemma GetHiWord_range (v : Z) : 0 <= GetHiWord v < 65536.
Proof.
  rewrite GetHiWord_value.
  pose proof (Z.mod_pos_bound v 4294967296 ltac:(lia)). split.
  - apply Z.div_pos; lia.
  - apply Z.div_lt_upper_bound; lia.
Qed.

Lemma GetHiWord_packed (lo hi : Z) :
  0 <= lo < 65536 -> 0 <= hi < 65536 -> GetHiWord (lo + hi * 65536) = hi.
Proof.
  intros Hlo Hhi. rewrite GetHiWord_value, Z.mod_small by lia.
  rewrite Z.div_add by lia. rewrite Z.div_small by lia. reflexivity.
Qed.

Lemma u16_packed (lo hi : Z) :
  0 <= lo < 65536 -> u16 (lo + hi * 65536) = lo.
Proof.
  intros Hlo. unfold u16. change (2 ^ 16) with 65536.
  rewrite Z.mod_add by lia. apply Z.mod_small, Hlo.
Qed.

Lemma SetLoWord_value (v lo : Z) :
  SetLoWord v lo = lo mod 65536 + GetHiWord v * 65536.
Proof.
  unfold SetLoWord. rewrite MAKELONG_value.
  rewrite (Z.mod_small (GetHiWord v)) by apply GetHiWord_range. reflexivity.
Qed.

Lemma SetHiWord_value (v hi : Z) :
  SetHiWord v hi = v mod 65536 + (hi mod 65536) * 65536.
Proof.
  unfold SetHiWord. rewrite MAKELONG_value, land_ffff.
  rewrite Z.mod_mod by lia. reflexivity.
Qed.

(** [SetLoWord] and [SetHiWord] replace one 16-bit half of a word and keep
    the other, whatever the word held and whatever the new value is (it is
    cut to 16 bits); the result is a 32-bit value. *)
Theorem packed_word_halves (v x : Z) :
  (u16 (SetLoWord v x) = u16 x /\ GetHiWord (SetLoWord v x) = GetHiWord v) /\
  (GetHiWord (SetHiWord v x) = u16 x /\ u16 (SetHiWord v x) = u16 v) /\
  0 <= SetLoWord v x < 2 ^ 32 /\ 0 <= SetHiWord v x < 2 ^ 32.
Proof.
  rewrite SetLoWord_value, SetHiWord_value.
  pose proof (GetHiWord_range v) as Hh.
  pose proof (Z.mod_pos_bound x 65536 ltac:(lia)) as Hx.
  pose proof (Z.mod_pos_bound v 65536 ltac:(lia)) as Hv.
  rewrite !u16_packed, !GetHiWord_packed by lia.
  change (2 ^ 32) with 4294967296. unfold u16. change (2 ^ 16) with 65536.
  repeat split; lia.
Qed.

End Words.
Import Words.

(** ** Coefficient unpacker: [ddv_func7_DecodeMacroBlock_impl]

    [mMacroBlockBuffer] is viewed through the [u32*] the function casts its
    output pointer to: a list of 32-bit slots, [outputBlockPtr] being the
    index of the block's slot 0.  A store or load that leaves the buffer, a
    read past the end of a constant table or of a dequantisation array and a
    read past the last input word are faults ([None]). *)

Module Unpack.
Import Dequant.

(** [pOutput[i] = v] *)
Definition store (buf : list Z) (i : nat) (v : Z) : option (list Z) :=
  if (i <? length buf)%nat then Some (<[i := v]> buf) else None.

(** [while (pInput[0] == 0xFE00u) pInput++] *)
Fixpoint skip_eob (pInput : list Z) : list Z :=
  match pInput with
  | w :: rest => if w =? 0xFE00 then skip_eob rest else pInput
  | [] => []
  end.

(** The value stored in slot 0 for header word [w] (the [int] expression is
    converted to the [u32] slot). *)
Definition header_slot (v1 : Z) (w : Z) : Z :=
  u32 (Z.shiftl v1 10 + 2 * Z.shiftr (s32 (Z.shiftl w 21)) 22).

(** The dequantised coefficient [(pTable[q_scale] * (v24 >> 22) + 4) >> 3]
    in unsigned 32-bit arithmetic, converted to [u16]. *)
Definition dequant (tv v24 : Z) : Z :=
  u16 (Z.shiftr (u32 (u32 (tv * Z.shiftr v24 22) + 4)) 3).

(** The [do { ... } while (counter < 63)] loop taken when bit 0 of the header
    is set.  One input word is read per iteration. *)
Fixpoint incremental_loop (pInput : list Z) (Q : list Z) (pTable : nat)
    (counter : nat) (pOutput : nat) (buf : list Z)
    : option (list Z * list Z) :=
  match pInput with
  | [] => None
  | macroBlockWord :: pInput =>
      if macroBlockWord =? 0xFE00 then Some (buf, pInput)
      else
        let q_scale := Z.to_nat (Z.shiftr macroBlockWord 10) in
        let counter := (counter + q_scale)%nat in
        lookedUpIndex ← g_index_look_up_table !! counter;
        let slot := (pOutput + Z.to_nat lookedUpIndex)%nat in
        old ← buf !! slot;
        let v24 := s32 (old + u32 (Z.shiftl macroBlockWord 22)) in
        tv ← Q !! (pTable + q_scale)%nat;
        let v25 := SetLoWord (SetHiWord 0 (GetHiWord v24)) (dequant tv v24) in
        buf ← store buf slot v25;
        let counter := S counter in
        if (counter <? 63)%nat
        then incremental_loop pInput Q (pTable + q_scale + 1)%nat counter
               pOutput buf
        else Some (buf, pInput)
  end.

(** The inner [while (1) { --k; idx = ...; if (!k) break; ... }] loop, [n]
    being the value of [k - 1] on entry: [n] slots are cleared and the index
    of the next one is returned together with the advanced counter. *)
Fixpoint zero_run (n : nat) (counter : nat) (pOutput : nat) (buf : list Z)
    : option (nat * Z * list Z) :=
  idx ← g_index_look_up_table !! counter;
  match n with
  | O => Some (counter, idx, buf)
  | S n' =>
      buf ← store buf (pOutput + Z.to_nat idx)%nat 0;
      zero_run n' (S counter) pOutput buf
  end.

(** Result of the run-skip loop: it either returns from the function
    ([Returned]) or leaves through [break] with the counter ([Broke]). *)
Inductive runskip_exit :=
  | Returned (buf : list Z) (pInput : list Z)
  | Broke (counter : nat) (buf : list Z) (pInput : list Z).

Fixpoint runskip_loop (pInput : list Z) (Q : list Z) (pTable : nat)
    (counter : nat) (pOutput : nat) (buf : list Z) : option runskip_exit :=
  match pInput with
  | [] => None
  | macroBlockWord :: pInput =>
      if macroBlockWord =? 0xFE00 then Some (Broke counter buf pInput)
      else
        let q_scale := Z.to_nat (Z.shiftr macroBlockWord 10) in
        let v24 := s32 (u32 (Z.shiftl macroBlockWord 22)) in
        '(counter, idx, buf) ← zero_run q_scale counter pOutput buf;
        tv ← Q !! (pTable + q_scale)%nat;
        let outVal := SetLoWord (SetHiWord 0 (GetHiWord v24)) (dequant tv v24) in
        buf ← store buf (pOutput + Z.to_nat idx)%nat outVal;
        let counter := S counter in
        if (63 <=? counter)%nat then Some (Returned buf pInput)
        else runskip_loop pInput Q (pTable + q_scale + 1)%nat counter
               pOutput buf
  end.

(** [pOutput[t[counter3]] = 0] for a constant table [t]. *)
Definition clear_at (t : list Z) (counter3 : nat) (pOutput : nat)
    (buf : list Z) : option (list Z) :=
  idx ← t !! counter3;
  store buf (pOutput + Z.to_nat idx)%nat 0.

(** The three nested [if (counter3 & 3)] stores that bring [counter3] to a
    multiple of four. *)
Definition align_clear (counter3 : nat) (pOutput : nat) (buf : list Z)
    : option (nat * list Z) :=
  if Z.land (Z.of_nat counter3) 3 =? 0 then Some (counter3, buf)
  else
    buf ← clear_at RL_ZSCAN_MATRIX_2 counter3 pOutput buf;
    let counter3 := S counter3 in
    if Z.land (Z.of_nat counter3) 3 =? 0 then Some (counter3, buf)
    else
      buf ← clear_at RL_ZSCAN_MATRIX_2 counter3 pOutput buf;
      let counter3 := S counter3 in
      if Z.land (Z.of_nat counter3) 3 =? 0 then Some (counter3, buf)
      else
        buf ← clear_at RL_ZSCAN_MATRIX_2 counter3 pOutput buf;
        Some (S counter3, buf).

(** [while (counter3 != 64) { four stores; counter3 += 4; }]; [fuel] bounds
    the iterations (16 suffice from a multiple of four at most 64). *)
Fixpoint tail_clear (fuel : nat) (counter3 : nat) (pOutput : nat)
    (buf : list Z) : option (list Z) :=
  match fuel with
  | O => None
  | S fuel' =>
      if (counter3 =? 64)%nat then Some buf
      else
        buf ← clear_at RL_ZSCAN_MATRIX_2 counter3 pOutput buf;
        buf ← clear_at g_index_look_up_table counter3 pOutput buf;
        buf ← clear_at g_block_related_2_dword_42B0CC counter3 pOutput buf;
        buf ← clear_at g_block_related_3_dword_42B0D0 counter3 pOutput buf;
        tail_clear fuel' (counter3 + 4)%nat pOutput buf
  end.

(** [memset(p, 0, 4 * n)] over the slots [p .. p+n-1]. *)
Fixpoint memset_slots (n : nat) (p : nat) (buf : list Z) : option (list Z) :=
  match n with
  | O => Some buf
  | S n' => buf ← store buf p 0; memset_slots n' (S p) buf
  end.

Definition ddv_func7_DecodeMacroBlock_impl (q : quant_buffers)
    (inPtr : list Z) (buf : list Z) (outputBlockPtr : nat) (isYBlock : bool)
    : option (list Z * list Z) :=
  let v1 := if isYBlock then 1 else 0 in
  let Q := if isYBlock then g_252_buffer_unk_63580C q
           else g_252_buffer_unk_635A0C q in
  let pTable := 1%nat in
  let pOutput := outputBlockPtr in
  match skip_eob inPtr with
  | [] => None
  | header :: pInput =>
      buf ← store buf pOutput (header_slot v1 header);
      if negb (Z.land header 1 =? 0)
      then incremental_loop pInput Q pTable 0 pOutput buf
      else
        r ← runskip_loop pInput Q pTable 0 pOutput buf;
        match r with
        | Returned buf pInput => Some (buf, pInput)
        | Broke counter buf pInput =>
            if (counter =? 0)%nat
            then
              buf ← memset_slots 63 (pOutput + 1)%nat buf;
              Some (buf, pInput)
            else
              '(counter3, buf) ← align_clear (counter + 1)%nat pOutput buf;
              buf ← tail_clear 16 counter3 pOutput buf;
              Some (buf, pInput)
        end
  end.

(** *** What the header store leaves in slot 0 *)

(** The specification's reading of the header: the DC is the 6-bit signed
    field in bits 15..10 of the word. *)
Definition spec_header_slot (isLuma : bool) (w : Z) : Z :=
  Z.shiftl (if isLuma then 1 else 0) 10 + 2 * sign_extend 6 (bit_field w 15 10).

(** The header as the source decodes it: the DC is the 10-bit signed field in
    bits 10..1 of the word. *)
Definition code_header_slot (isLuma : bool) (w : Z) : Z :=
  Z.shiftl (if isLuma then 1 else 0) 10 + 2 * sign_extend 10 (bit_field w 10 1).

Lemma header_dc_check :
  forallb (fun w => Z.shiftr (s32 (Z.shiftl w 21)) 22
                    =? sign_extend 10 (bit_field w 10 1))
          (zrange 0 65536) = true.
Proof. vm_cast_no_check (eq_refl true). Qed.

Lemma header_dc_field (w : Z) :
  0 <= w < 65536 ->
  Z.shiftr (s32 (Z.shiftl w 21)) 22 = sign_extend 10 (bit_field w 10 1).
Proof.
  intros Hw. apply Z.eqb_eq.
  exact (forall_zrange _ 0 65536 header_dc_check w Hw).
Qed.

Lemma header_slot_code (isYBlock : bool) (w : Z) :
  0 <= w < 65536 ->
  header_slot (if isYBlock then 1 else 0) w = u32 (code_header_slot isYBlock w).
Proof.
  intros Hw. unfold header_slot, code_header_slot.
  rewrite header_dc_field by exact Hw. reflexivity.
Qed.

Lemma code_header_slot_check :
  forallb (fun w => forallb (fun b => s16 (u32 (code_header_slot b w))
                                      =? code_header_slot b w) [true; false])
          (zrange 0 65536) = true.
Proof. vm_cast_no_check (eq_refl true). Qed.

Lemma code_header_slot_low16 (isYBlock : bool) (w : Z) :
  0 <= w < 65536 ->
  s16 (u32 (code_header_slot isYBlock w)) = code_header_slot isYBlock w.
Proof.
  intros Hw.
  pose proof (forall_zrange _ 0 65536 code_header_slot_check w Hw) as H.
  rewrite forallb_forall in H. apply Z.eqb_eq, H.
  destruct isYBlock; simpl; auto.
Qed.

(** *** Slot 0 is not touched after the header store *)

Lemma store_same (buf buf' : list Z) (i : nat) (v : Z) :
  store buf i v = Some buf' -> buf' !! i = Some v.
Proof.
  unfold store. destruct (Nat.ltb_spec i (length buf)); [|discriminate].
  intros [= <-]. apply list_lookup_insert_eq. assumption.
Qed.

Lemma store_other (buf buf' : list Z) (i j : nat) (v : Z) :
  store buf i v = Some buf' -> i <> j -> buf' !! j = buf !! j.
Proof.
  unfold store. destruct (Nat.ltb_spec i (length buf)); [|discriminate].
  intros [= <-] Hne. apply list_lookup_insert_ne. assumption.
Qed.

Lemma store_length (buf buf' : list Z) (i : nat) (v : Z) :
  store buf i v = Some buf' -> length buf' = length buf.
Proof.
  unfold store. destruct (Nat.ltb_spec i (length buf)); [|discriminate].
  intros [= <-]. apply length_insert.
Qed.

Lemma index_table_positive (c : nat) (idx : Z) :
  g_index_look_up_table !! c = Some idx -> 1 <= idx.
Proof.
  do 64 (destruct c as [|c]; [intros [= <-]; lia|]). discriminate.
Qed.

Lemma block2_table_positive (c : nat) (idx : Z) :
  g_block_related_2_dword_42B0CC !! c = Some idx -> 1 <= idx.
Proof.
  do 64 (destruct c as [|c]; [intros [= <-]; lia|]). discriminate.
Qed.

Lemma block3_table_positive (c : nat) (idx : Z) :
  g_block_related_3_dword_42B0D0 !! c = Some idx -> 1 <= idx.
Proof.
  do 64 (destruct c as [|c]; [intros [= <-]; lia|]). discriminate.
Qed.

Lemma zscan_table_positive (c : nat) (idx : Z) :
  RL_ZSCAN_MATRIX_2 !! S c = Some idx -> 1 <= idx.
Proof.
  do 63 (destruct c as [|c]; [intros [= <-]; lia|]). discriminate.
Qed.

(** Case analysis on the test of a conditional in a hypothesis. *)
Ltac if_inv H :=
  match type of H with
  | (if ?b then _ else _) = Some _ => destruct b
  end.

(** Case analysis on a monadic bind in a hypothesis. *)
Ltac bind_inv H :=
  match type of H with
  | (mbind _ ?m) = Some _ =>
      let E := fresh "E" in
      destruct m eqn:E; cbn [mbind option_bind] in H; [|discriminate H]
  | (?m ≫= _) = Some _ =>
      let E := fresh "E" in
      destruct m eqn:E; cbn [mbind option_bind] in H; [|discriminate H]
  end.

Lemma incremental_loop_keeps (pInput Q : list Z) (pTable counter pOutput : nat)
    (buf buf' rest : list Z) :
  incremental_loop pInput Q pTable counter pOutput buf = Some (buf', rest) ->
  buf' !! pOutput = buf !! pOutput.
Proof.
  revert pTable counter buf.
  induction pInput as [|w pInput IH]; intros pTable counter buf H;
    cbn [incremental_loop runskip_loop mbind option_bind] in H.
  - discriminate.
  - if_inv H; [injection H as <- _; reflexivity|].
    bind_inv H. bind_inv H. bind_inv H. bind_inv H.
    assert (Hk : l !! pOutput = buf !! pOutput).
    { eapply store_other; [eassumption|].
      pose proof (index_table_positive _ _ E). lia. }
    if_inv H.
    + rewrite (IH _ _ _ H). exact Hk.
    + injection H as <- _. exact Hk.
Qed.

Lemma zero_run_keeps (n counter pOutput : nat) (buf buf' : list Z)
    (counter' : nat) (idx : Z) :
  zero_run n counter pOutput buf = Some (counter', idx, buf') ->
  buf' !! pOutput = buf !! pOutput /\ 1 <= idx.
Proof.
  revert counter buf. induction n as [|n IH]; intros counter buf H;
    cbn [zero_run mbind option_bind] in H.
  - bind_inv H. injection H as _ <- <-. split; [reflexivity|].
    eapply index_table_positive; eassumption.
  - bind_inv H. bind_inv H. destruct (IH _ _ H) as [-> Hi]. split; [|exact Hi].
    eapply store_other; [eassumption|].
    pose proof (index_table_positive _ _ E). lia.
Qed.

Lemma runskip_loop_keeps (pInput Q : list Z) (pTable counter pOutput : nat)
    (buf : list Z) (r : runskip_exit) :
  runskip_loop pInput Q pTable counter pOutput buf = Some r ->
  match r with
  | Returned buf' _ => buf' !! pOutput = buf !! pOutput
  | Broke _ buf' _ => buf' !! pOutput = buf !! pOutput
  end.
Proof.
  revert pTable counter buf.
  induction pInput as [|w pInput IH]; intros pTable counter buf H;
    cbn [incremental_loop runskip_loop mbind option_bind] in H.
  - discriminate.
  - if_inv H; [injection H as <-; reflexivity|].
    bind_inv H. destruct p as [[counter1 idx] buf1]. cbn [mbind option_bind] in H.
    bind_inv H. bind_inv H.
    destruct (zero_run_keeps _ _ _ _ _ _ _ E) as [Hk1 Hidx].
    assert (Hk : l !! pOutput = buf !! pOutput).
    { rewrite <- Hk1. eapply store_other; [eassumption|]. lia. }
    if_inv H.
    + injection H as <-. exact Hk.
    + specialize (IH _ _ _ H). destruct r; rewrite IH; exact Hk.
Qed.

Lemma clear_at_keeps (t : list Z) (c pOutput : nat) (buf buf' : list Z) :
  (forall idx, t !! c = Some idx -> 1 <= idx) ->
  clear_at t c pOutput buf = Some buf' ->
  buf' !! pOutput = buf !! pOutput.
Proof.
  intros Hpos H. unfold clear_at in H. bind_inv H.
  eapply store_other; [eassumption|]. specialize (Hpos _ eq_refl). lia.
Qed.

Lemma align_clear_keeps (c pOutput : nat) (buf buf' : list Z) (c' : nat) :
  align_clear (S c) pOutput buf = Some (c', buf') ->
  buf' !! pOutput = buf !! pOutput.
Proof.
  unfold align_clear. intros H.
  repeat match type of H with
  | (if ?b then _ else _) = Some _ =>
      destruct b; [injection H as _ <-; try reflexivity; try congruence|]
  | _ => bind_inv H;
         match goal with
         | E : clear_at _ _ _ _ = Some _ |- _ =>
             apply clear_at_keeps in E; [|apply zscan_table_positive]
         end
  end.
  injection H as _ <-. congruence.
Qed.

Lemma tail_clear_keeps (fuel c pOutput : nat) (buf buf' : list Z) :
  (1 <= c)%nat ->
  tail_clear fuel c pOutput buf = Some buf' ->
  buf' !! pOutput = buf !! pOutput.
Proof.
  revert c buf. induction fuel as [|fuel IH]; intros c buf Hc H;
    cbn [tail_clear mbind option_bind] in H.
  - discriminate.
  - if_inv H; [injection H as <-; reflexivity|].
    do 4 bind_inv H.
    apply IH in H; [rewrite H|lia].
    destruct c as [|c]; [lia|].
    apply clear_at_keeps in E; [|apply zscan_table_positive].
    apply clear_at_keeps in E0; [|apply index_table_positive].
    apply clear_at_keeps in E1; [|apply block2_table_positive].
    apply clear_at_keeps in E2; [|apply block3_table_positive].
    congruence.
Qed.

Lemma align_clear_counter (c pOutput : nat) (buf buf' : list Z) (c' : nat) :
  align_clear c pOutput buf = Some (c', buf') -> (c <= c')%nat.
Proof.
  unfold align_clear. intros H.
  repeat match type of H with
  | (if ?b then _ else _) = Some _ =>
      destruct b; [injection H as <- _; lia|]
  | _ => bind_inv H
  end.
  injection H as <- _. lia.
Qed.

Lemma memset_slots_keeps (n p j : nat) (buf buf' : list Z) :
  (j < p)%nat ->
  memset_slots n p buf = Some buf' -> buf' !! j = buf !! j.
Proof.
  revert p buf. induction n as [|n IH]; intros p buf Hj H;
    cbn [memset_slots mbind option_bind] in H.
  - injection H as <-. reflexivity.
  - bind_inv H. rewrite (IH (S p) l ltac:(lia) H).
    eapply store_other; [eassumption|lia].
Qed.

(** C2 (as the code has it). For a block whose first word after the leading
    [0xFE00] words is the 16-bit [header]: the header store puts
    [((isYBlock ? 1 : 0) << 10) + 2 * DC] into slot 0 of the block, where
    [DC] is the sign extension of the 10-bit field in bits 10..1 of [header];
    the low 16 bits of the slot read back as that signed value; and whenever
    the unpacker returns, slot 0 of the block still holds it. *)
Theorem header_slot_receives (q : quant_buffers) (inPtr buf : list Z)
    (outputBlockPtr : nat) (isYBlock : bool) (header : Z) (pInput : list Z) :
  skip_eob inPtr = header :: pInput ->
  0 <= header < 65536 ->
  (outputBlockPtr < length buf)%nat ->
  let v := code_header_slot isYBlock header in
  store buf outputBlockPtr (header_slot (if isYBlock then 1 else 0) header)
    = Some (<[outputBlockPtr := u32 v]> buf) /\
  s16 (u32 v) = v /\
  forall buf' rest,
    ddv_func7_DecodeMacroBlock_impl q inPtr buf outputBlockPtr isYBlock
      = Some (buf', rest) ->
    buf' !! outputBlockPtr = Some (u32 v).
Proof.
  intros Hskip Hw Hlen v.
  assert (Hst : store buf outputBlockPtr
                  (header_slot (if isYBlock then 1 else 0) header)
                = Some (<[outputBlockPtr := u32 v]> buf)).
  { unfold store. destruct (Nat.ltb_spec outputBlockPtr (length buf)); [|lia].
    rewrite header_slot_code by exact Hw. reflexivity. }
  split; [exact Hst|]. split.
  { apply code_header_slot_low16, Hw. }
  intros buf' rest H. unfold ddv_func7_DecodeMacroBlock_impl in H.
  rewrite Hskip in H. rewrite Hst in H. cbn [mbind option_bind] in H.
  assert (H0 : (<[outputBlockPtr := u32 v]> buf) !! outputBlockPtr = Some (u32 v))
    by (apply list_lookup_insert_eq; exact Hlen).
  destruct (negb _).
  - rewrite (incremental_loop_keeps _ _ _ _ _ _ _ _ H). exact H0.
  - bind_inv H. pose proof (runskip_loop_keeps _ _ _ _ _ _ _ E) as Hk.
    destruct r as [b1 p1|c b1 p1].
    + injection H as <- _. rewrite Hk. exact H0.
    + destruct (c =? 0)%nat eqn:Hc.
      * bind_inv H. injection H as <- _.
        apply (memset_slots_keeps _ _ outputBlockPtr) in E0; [|lia].
        rewrite E0, Hk. exact H0.
      * bind_inv H. destruct p as [c3 b3]. cbn [mbind option_bind] in H. bind_inv H.
        injection H as <- _.
        pose proof (align_clear_counter _ _ _ _ _ E0) as Hc3.
        replace (c + 1)%nat with (S c) in E0 by lia.
        apply tail_clear_keeps in E1; [rewrite E1|lia].
        rewrite (align_clear_keeps _ _ _ _ _ E0).
        rewrite Hk. exact H0.
Qed.

(** Witness for C2: a luma block with header [0x07FA] (DC field -3), one
    coefficient and an end-of-block word, after a stale [0xFE00]. *)
Lemma header_slot_receives_witness :
  exists buf' rest,
    ddv_func7_DecodeMacroBlock_impl
      (after_block_decode_no_effect_q_impl 2 quant_buffers_init)
      [0xFE00; 0x07FA; 0x0403; 0xFE00] (replicate 64 0) 0 true
      = Some (buf', rest) /\
    buf' !! 0%nat = Some (u32 (1024 + 2 * -3)).
Proof.
  eexists _, _. split; [vm_compute; reflexivity|].
  refine (proj2 (proj2 (header_slot_receives
            (after_block_decode_no_effect_q_impl 2 quant_buffers_init)
            [0xFE00; 0x07FA; 0x0403; 0xFE00] (replicate 64 0) 0 true
            0x07FA [0x0403; 0xFE00] eq_refl _ _)) _ _ _).
  - lia.
  - vm_compute. lia.
  - vm_compute. reflexivity.
Defined.

(** C2, the sentence as the specification words it fails: for the chroma
    header [0x0006] the unpacker returns with 6 in slot 0 (DC field 3 in bits
    10..1), whereas bits 15..10 are all zero and would give 0. *)
Lemma header_dc_is_not_bits_15_10 :
  ~ (forall buf' rest,
       ddv_func7_DecodeMacroBlock_impl
         (after_block_decode_no_effect_q_impl 2 quant_buffers_init)
         [0x0006; 0xFE00] (replicate 64 0) 0 false = Some (buf', rest) ->
       buf' !! 0%nat = Some (u32 (spec_header_slot false 0x0006))).
Proof.
  intros H.
  assert (E : ddv_func7_DecodeMacroBlock_impl
                (after_block_decode_no_effect_q_impl 2 quant_buffers_init)
                [0x0006; 0xFE00] (replicate 64 0) 0 false
              = Some (6 :: replicate 63 0, []))
    by (vm_compute; reflexivity).
  specialize (H _ _ E). vm_compute in H. discriminate H.
Qed.


(** *** Layout of a block decoded by the run-skip branch *)

(** Slot offsets read from the two zig-zag tables. *)
Definition zig (j : nat) : nat := Z.to_nat (tbl g_index_look_up_table j).
Definition rl (k : nat) : nat := Z.to_nat (tbl RL_ZSCAN_MATRIX_2 k).

(** [buf'] is [buf] with 0 stored in each of [slots]. *)
Definition zeroed (slots : list nat) (buf buf' : list Z) : Prop :=
  (forall s, s ∈ slots -> buf' !! s = Some 0) /\
  (forall s, s ∉ slots -> buf' !! s = buf !! s).

Lemma zeroed_refl (buf : list Z) : zeroed [] buf buf.
Proof. split; [intros s Hs; inversion Hs|reflexivity]. Qed.

Lemma zeroed_trans (l1 l2 : list nat) (a b c : list Z) :
  zeroed l1 a b -> zeroed l2 b c -> zeroed (l1 ++ l2) a c.
Proof.
  intros [Z1 K1] [Z2 K2]. split.
  - intros s Hs. destruct (decide (s ∈ l2)) as [H2|H2]; [apply Z2, H2|].
    rewrite K2 by exact H2. apply Z1.
    apply elem_of_app in Hs. destruct Hs; [assumption|contradiction].
  - intros s Hs. rewrite K2, K1; [reflexivity|..];
      intros Hin; apply Hs, elem_of_app; auto.
Qed.

Lemma zeroed_store (buf buf' : list Z) (s : nat) :
  store buf s 0 = Some buf' -> zeroed [s] buf buf'.
Proof.
  intros H. split.
  - intros s' Hs. apply list_elem_of_singleton in Hs. subst s'.
    eapply store_same, H.
  - intros s' Hs. eapply store_other; [exact H|].
    intros ->. apply Hs, list_elem_of_singleton. reflexivity.
Qed.

Lemma clear_at_zeroed (t : list Z) (c pOutput : nat) (buf buf' : list Z) :
  clear_at t c pOutput buf = Some buf' ->
  exists idx, t !! c = Some idx /\
    zeroed [(pOutput + Z.to_nat idx)%nat] buf buf'.
Proof.
  unfold clear_at. intros H. bind_inv H. eauto using zeroed_store.
Qed.

Lemma memset_slots_zeroed (n p : nat) (buf buf' : list Z) :
  memset_slots n p buf = Some buf' -> zeroed (seq p n) buf buf'.
Proof.
  revert p buf. induction n as [|n IH]; intros p buf H;
    cbn [memset_slots mbind option_bind seq] in H |- *.
  - injection H as <-. apply zeroed_refl.
  - bind_inv H. apply (zeroed_trans [p] (seq (S p) n) buf l buf').
    + apply zeroed_store, E.
    + apply IH, H.
Qed.

Lemma zero_run_zeroed (n counter pOutput : nat) (buf buf' : list Z)
    (counter' : nat) (idx : Z) :
  zero_run n counter pOutput buf = Some (counter', idx, buf') ->
  counter' = (counter + n)%nat /\
  g_index_look_up_table !! counter' = Some idx /\
  zeroed (map (fun j => (pOutput + zig j)%nat) (seq counter n)) buf buf'.
Proof.
  revert counter buf. induction n as [|n IH]; intros counter buf H;
    cbn [zero_run mbind option_bind] in H.
  - bind_inv H. injection H as <- <- <-.
    split; [lia|]. split; [exact E|apply zeroed_refl].
  - bind_inv H. bind_inv H. destruct (IH _ _ H) as (-> & Hidx & Hz).
    split; [lia|]. split; [exact Hidx|].
    cbn [seq map].
    apply (zeroed_trans [(pOutput + zig counter)%nat] _ buf l buf'); [|exact Hz].
    unfold zig, tbl. rewrite E. cbn [default]. apply zeroed_store, E0.
Qed.

(** The two tables agree up to a shift by one, the offsets of the 63 AC
    positions are pairwise distinct and lie inside the block, and the two
    unrolled tables are the scan table shifted by two and three. *)
Lemma zig_tables_check :
  forallb (fun j =>
    (zig j =? rl (S j))%nat && (1 <=? zig j)%nat && (zig j <=? 63)%nat &&
    forallb (fun i => implb (zig i =? zig j)%nat (i =? j)%nat) (seq 0 64))
    (seq 0 63) = true /\
  forallb (fun c =>
    bool_decide (g_index_look_up_table !! c = RL_ZSCAN_MATRIX_2 !! (c + 1)%nat) &&
    bool_decide (g_block_related_2_dword_42B0CC !! c
                 = RL_ZSCAN_MATRIX_2 !! (c + 2)%nat) &&
    bool_decide (g_block_related_3_dword_42B0D0 !! c
                 = RL_ZSCAN_MATRIX_2 !! (c + 3)%nat))
    (seq 0 61) = true.
Proof. split; vm_compute; reflexivity. Qed.

Lemma zig_facts (j : nat) :
  (j < 63)%nat ->
  zig j = rl (S j) /\ (1 <= zig j <= 63)%nat /\
  forall i, (i < 64)%nat -> zig i = zig j -> i = j.
Proof.
  intros Hj. destruct zig_tables_check as [H _].
  rewrite forallb_forall in H. specialize (H j).
  rewrite in_seq in H. specialize (H ltac:(lia)).
  rewrite !andb_true_iff in H. destruct H as (((H1 & H2) & H3) & H4).
  apply Nat.eqb_eq in H1. apply Nat.leb_le in H2, H3.
  split; [exact H1|]. split; [lia|]. intros i Hi He.
  rewrite forallb_forall in H4. specialize (H4 i).
  rewrite in_seq in H4. specialize (H4 ltac:(lia)).
  rewrite He, Nat.eqb_refl in H4. cbn in H4. apply Nat.eqb_eq, H4.
Qed.

(** Position 63 of the index table holds the out-of-block offset [0x98E]. *)
Lemma zig_63 : zig 63 = 2446%nat.
Proof. reflexivity. Qed.

Lemma zig_inj (i j : nat) :
  (i < 64)%nat -> (j < 64)%nat -> zig i = zig j -> i = j.
Proof.
  intros Hi Hj He.
  destruct (Nat.eq_dec j 63%nat) as [->|Hj63].
  - destruct (Nat.eq_dec i 63%nat) as [->|Hi63]; [reflexivity|].
    destruct (zig_facts i ltac:(lia)) as (_ & Hr & _).
    rewrite He, zig_63 in Hr. lia.
  - destruct (zig_facts j ltac:(lia)) as (_ & _ & Hinj). apply Hinj; assumption.
Qed.

Lemma unrolled_tables (c : nat) :
  (c <= 60)%nat ->
  g_index_look_up_table !! c = RL_ZSCAN_MATRIX_2 !! (c + 1)%nat /\
  g_block_related_2_dword_42B0CC !! c = RL_ZSCAN_MATRIX_2 !! (c + 2)%nat /\
  g_block_related_3_dword_42B0D0 !! c = RL_ZSCAN_MATRIX_2 !! (c + 3)%nat.
Proof.
  intros Hc. destruct zig_tables_check as [_ H].
  rewrite forallb_forall in H. specialize (H c).
  rewrite in_seq in H. specialize (H ltac:(lia)).
  rewrite !andb_true_iff, !bool_decide_eq_true in H. tauto.
Qed.

Lemma rl_lookup (k : nat) (idx : Z) :
  RL_ZSCAN_MATRIX_2 !! k = Some idx -> Z.to_nat idx = rl k.
Proof. intros H. unfold rl, tbl. rewrite H. reflexivity. Qed.

Lemma align_clear_zeroed (c pOutput : nat) (buf buf' : list Z) (c' : nat) :
  align_clear c pOutput buf = Some (c', buf') ->
  (c <= c' <= c + 3)%nat /\ Z.land (Z.of_nat c') 3 = 0 /\
  zeroed (map (fun k => (pOutput + rl k)%nat) (seq c (c' - c))) buf buf'.
Proof.
  unfold align_clear. intros H.
  destruct (Z.eqb_spec (Z.land (Z.of_nat c) 3) 0) as [E0|E0].
  { injection H as <- <-. rewrite Nat.sub_diag.
    split; [lia|]. split; [exact E0|apply zeroed_refl]. }
  bind_inv H. destruct (clear_at_zeroed _ _ _ _ _ E) as (i1 & L1 & Z1).
  rewrite (rl_lookup _ _ L1) in Z1.
  destruct (Z.eqb_spec (Z.land (Z.of_nat (S c)) 3) 0) as [E1|E1].
  { injection H as <- <-. split; [lia|]. split; [exact E1|].
    replace (S c - c)%nat with 1%nat by lia. exact Z1. }
  bind_inv H. destruct (clear_at_zeroed _ _ _ _ _ E2) as (i2 & L2 & Z2).
  rewrite (rl_lookup _ _ L2) in Z2.
  pose proof (zeroed_trans _ _ _ _ _ Z1 Z2) as Z12.
  destruct (Z.eqb_spec (Z.land (Z.of_nat (S (S c))) 3) 0) as [E3|E3].
  { injection H as <- <-. split; [lia|]. split; [exact E3|].
    replace (S (S c) - c)%nat with 2%nat by lia. exact Z12. }
  bind_inv H. destruct (clear_at_zeroed _ _ _ _ _ E4) as (i3 & L3 & Z3).
  rewrite (rl_lookup _ _ L3) in Z3.
  pose proof (zeroed_trans _ _ _ _ _ Z12 Z3) as Z123.
  injection H as <- <-. split; [lia|]. split.
  - change 3 with (Z.ones 2) in *. rewrite Z.land_ones in * by lia.
    change (2 ^ 2) with 4 in *. Z.div_mod_to_equations. lia.
  - replace (S (S (S c)) - c)%nat with 3%nat by lia. exact Z123.
Qed.

Lemma tail_clear_zeroed (fuel c pOutput : nat) (buf buf' : list Z) :
  Z.land (Z.of_nat c) 3 = 0 -> (c <= 64)%nat ->
  tail_clear fuel c pOutput buf = Some buf' ->
  zeroed (map (fun k => (pOutput + rl k)%nat) (seq c (64 - c))) buf buf'.
Proof.
  revert c buf. induction fuel as [|fuel IH]; intros c buf Hc4 Hc H;
    cbn [tail_clear mbind option_bind] in H.
  - discriminate.
  - destruct (Nat.eqb_spec c 64) as [->|Hne].
    { injection H as <-. apply zeroed_refl. }
    assert (Hc60 : (c <= 60)%nat).
    { change 3 with (Z.ones 2) in Hc4. rewrite Z.land_ones in Hc4 by lia.
      change (2 ^ 2) with 4 in Hc4. Z.div_mod_to_equations. lia. }
    destruct (unrolled_tables c Hc60) as (T1 & T2 & T3).
    do 4 bind_inv H.
    destruct (clear_at_zeroed _ _ _ _ _ E) as (i0 & L0 & Z0).
    destruct (clear_at_zeroed _ _ _ _ _ E0) as (i1 & L1 & Z1).
    destruct (clear_at_zeroed _ _ _ _ _ E1) as (i2 & L2 & Z2).
    destruct (clear_at_zeroed _ _ _ _ _ E2) as (i3 & L3 & Z3).
    rewrite T1 in L1. rewrite T2 in L2. rewrite T3 in L3.
    rewrite (rl_lookup _ _ L0) in Z0. rewrite (rl_lookup _ _ L1) in Z1.
    rewrite (rl_lookup _ _ L2) in Z2. rewrite (rl_lookup _ _ L3) in Z3.
    apply IH in H; [| |lia].
    2:{ change 3 with (Z.ones 2) in *. rewrite Z.land_ones in * by lia.
        change (2 ^ 2) with 4 in *. Z.div_mod_to_equations. lia. }
    replace (64 - c)%nat with (4 + (64 - (c + 4)))%nat by lia.
    rewrite seq_app, map_app.
    refine (zeroed_trans _ _ _ _ _ _ H).
    cbn [seq map].
    replace (S c) with (c + 1)%nat by lia.
    replace (S (c + 1)) with (c + 2)%nat by lia.
    replace (S (c + 2)) with (c + 3)%nat by lia.
    apply (zeroed_trans [_] [_; _; _] _ _ _ Z0).
    apply (zeroed_trans [_] [_; _] _ _ _ Z1).
    apply (zeroed_trans [_] [_] _ _ _ Z2 Z3).
Qed.

(** The input word whose coefficient lands at zig-zag position [j] when the
    run-level words [ws] are laid out from position [pos] on: each word skips
    its run (bits 15..10) and takes the next position; [0xFE00] ends the
    block, as does the position 63. *)
Fixpoint coefficient_at (ws : list Z) (pos : nat) (j : nat) : option Z :=
  match ws with
  | [] => None
  | w :: ws =>
      if w =? 0xFE00 then None
      else
        let p := (pos + Z.to_nat (Z.shiftr w 10))%nat in
        if (j =? p)%nat then Some w
        else if (63 <=? S p)%nat then None
        else coefficient_at ws (S p) j
  end.

(** The slot stored for the run-level word [w] with table value [tv]. *)
Definition coefficient_slot (tv w : Z) : Z :=
  let v24 := s32 (u32 (Z.shiftl w 22)) in
  SetLoWord (SetHiWord 0 (GetHiWord v24)) (dequant tv v24).

(** What the run-skip branch leaves at zig-zag position [j]. *)
Definition ac_slot (Q ws : list Z) (pos j : nat) : Z :=
  match coefficient_at ws pos j with
  | Some w => coefficient_slot (tbl Q (S j)) w
  | None => 0
  end.

Lemma coefficient_at_below (ws : list Z) (pos j : nat) :
  (j < pos)%nat -> coefficient_at ws pos j = None.
Proof.
  revert pos. induction ws as [|w ws IH]; intros pos Hj; cbn [coefficient_at].
  - reflexivity.
  - destruct (w =? 0xFE00); [reflexivity|].
    destruct (Nat.eqb_spec j (pos + Z.to_nat (Z.shiftr w 10))); [lia|].
    destruct (63 <=? _)%nat; [reflexivity|]. apply IH. lia.
Qed.

Lemma runskip_loop_layout (ws Q : list Z) (counter pOutput : nat)
    (buf : list Z) (r : runskip_exit) :
  runskip_loop ws Q (S counter) counter pOutput buf = Some r ->
  (counter <= 62)%nat ->
  match r with
  | Returned buf' _ =>
      (forall j, (counter <= j < 63)%nat ->
         buf' !! (pOutput + zig j)%nat = Some (ac_slot Q ws counter j)) /\
      (forall s, (forall j, (counter <= j < 64)%nat -> s <> (pOutput + zig j)%nat) ->
         buf' !! s = buf !! s)
  | Broke c buf' _ =>
      (counter <= c <= 62)%nat /\
      (forall j, (counter <= j < c)%nat ->
         buf' !! (pOutput + zig j)%nat = Some (ac_slot Q ws counter j)) /\
      (forall j, (c <= j)%nat -> coefficient_at ws counter j = None) /\
      (forall s, (forall j, (counter <= j < c)%nat -> s <> (pOutput + zig j)%nat) ->
         buf' !! s = buf !! s)
  end.
Proof.
  revert counter buf. induction ws as [|w ws IH]; intros counter buf H Hc;
    cbn [runskip_loop mbind option_bind] in H.
  - discriminate.
  - destruct (Z.eqb_spec w 0xFE00) as [Hw|Hw].
    { injection H as <-. split; [lia|]. split; [intros; lia|].
      split; [|reflexivity]. intros j _. cbn [coefficient_at].
      rewrite Hw. reflexivity. }
    bind_inv H. destruct p as [[c1 idx] buf1]. cbn [mbind option_bind] in H.
    destruct (zero_run_zeroed _ _ _ _ _ _ _ E) as (-> & Hidx & Hz).
    set (q := Z.to_nat (Z.shiftr w 10)) in *.
    set (p := (counter + q)%nat) in *.
    assert (Hp : (p < 64)%nat).
    { apply lookup_lt_Some in Hidx. exact Hidx. }
    assert (Hzig : Z.to_nat idx = zig p)
      by (unfold zig, tbl; rewrite Hidx; reflexivity).
    bind_inv H. bind_inv H. rewrite Hzig in E1.
    replace (S counter + q)%nat with (S p) in E0 by lia.
    assert (Htv : tbl Q (S p) = z) by (unfold tbl; rewrite E0; reflexivity).
    fold (coefficient_slot z w) in E1. rewrite <- Htv in E1.
    (* the slots of the block after this word *)
    assert (Hhere : forall j, (counter <= j <= p)%nat -> (j < 63)%nat ->
              l !! (pOutput + zig j)%nat = Some (ac_slot Q (w :: ws) counter j)).
    { intros j Hj Hj63. unfold ac_slot. cbn [coefficient_at].
      destruct (Z.eqb_spec w 0xFE00); [contradiction|]. fold q. fold p.
      destruct (Nat.eqb_spec j p) as [->|Hne].
      - eapply store_same, E1.
      - rewrite (coefficient_at_below ws (S p) j) by lia.
        destruct (63 <=? S p)%nat.
        + rewrite (store_other _ _ _ _ _ E1)
            by (intros He; apply Hne; apply (zig_inj j p); lia).
          apply (proj1 Hz). apply list_elem_of_fmap. exists j. split; [reflexivity|].
          apply elem_of_seq. lia.
        + rewrite (store_other _ _ _ _ _ E1)
            by (intros He; apply Hne; apply (zig_inj j p); lia).
          apply (proj1 Hz). apply list_elem_of_fmap. exists j. split; [reflexivity|].
          apply elem_of_seq. lia. }
    assert (Hkeep : forall s,
              (forall j, (counter <= j <= p)%nat -> s <> (pOutput + zig j)%nat) ->
              l !! s = buf !! s).
    { intros s Hs. rewrite (store_other _ _ _ _ _ E1).
      - apply (proj2 Hz). intros Hin. apply list_elem_of_fmap in Hin.
        destruct Hin as (j & -> & Hj). apply elem_of_seq in Hj.
        apply (Hs j); [lia|reflexivity].
      - intros He. apply (Hs p); [lia|]. symmetry. exact He. }
    destruct (Nat.leb_spec 63 (S p)) as [Hend|Hmore].
    + injection H as <-. split.
      * intros j Hj. apply Hhere; lia.
      * intros s Hs. apply Hkeep. intros j Hj. apply Hs. lia.
    + replace (S counter + q + 1)%nat with (S (S p)) in H by lia.
      specialize (IH _ _ H ltac:(lia)).
      assert (Hlater : forall j, (S p <= j)%nat ->
                ac_slot Q (w :: ws) counter j = ac_slot Q ws (S p) j).
      { intros j Hj. unfold ac_slot. cbn [coefficient_at].
        destruct (Z.eqb_spec w 0xFE00); [contradiction|]. fold q. fold p.
        destruct (Nat.eqb_spec j p); [lia|].
        destruct (Nat.leb_spec 63 (S p)); [lia|]. reflexivity. }
      assert (Hca : forall j, (S p <= j)%nat ->
                coefficient_at (w :: ws) counter j = coefficient_at ws (S p) j).
      { intros j Hj. cbn [coefficient_at].
        destruct (Z.eqb_spec w 0xFE00); [contradiction|]. fold q. fold p.
        destruct (Nat.eqb_spec j p); [lia|].
        destruct (Nat.leb_spec 63 (S p)); [lia|]. reflexivity. }
      destruct r as [buf' rest|c buf' rest].
      * destruct IH as [Set_ Keep]. split.
        -- intros j Hj. destruct (Nat.le_gt_cases j p) as [Hle|Hgt].
           ++ rewrite Keep; [apply Hhere; lia|].
              intros j' Hj' He. apply Nat.add_cancel_l in He.
              apply zig_inj in He; lia.
           ++ rewrite Hlater by lia. apply Set_. lia.
        -- intros s Hs. rewrite Keep by (intros j Hj; apply Hs; lia).
           apply Hkeep. intros j Hj. apply Hs. lia.
      * destruct IH as (Hcr & Set_ & None_ & Keep). split; [lia|]. split; [|split].
        -- intros j Hj. destruct (Nat.le_gt_cases j p) as [Hle|Hgt].
           ++ rewrite Keep; [apply Hhere; lia|].
              intros j' Hj' He. apply Nat.add_cancel_l in He.
              apply zig_inj in He; lia.
           ++ rewrite Hlater by lia. apply Set_. lia.
        -- intros j Hj. rewrite Hca by lia. apply None_, Hj.
        -- intros s Hs. rewrite Keep by (intros j Hj; apply Hs; lia).
           apply Hkeep. intros j Hj. apply Hs. lia.
Qed.

Lemma incremental_loop_confined (pInput Q : list Z)
    (pTable counter pOutput : nat) (buf buf' rest : list Z) :
  incremental_loop pInput Q pTable counter pOutput buf = Some (buf', rest) ->
  length buf' = length buf /\
  forall s, (forall j, (j < 64)%nat -> s <> (pOutput + zig j)%nat) ->
            buf' !! s = buf !! s.
Proof.
  revert pTable counter buf.
  induction pInput as [|w pInput IH]; intros pTable counter buf H;
    cbn [incremental_loop mbind option_bind] in H.
  - discriminate.
  - if_inv H; [injection H as <- _; auto|].
    bind_inv H. bind_inv H. bind_inv H. bind_inv H.
    assert (Hz : Z.to_nat z = zig (counter + Z.to_nat (Z.shiftr w 10)))
      by (unfold zig, tbl; rewrite E; reflexivity).
    assert (Hlt : (counter + Z.to_nat (Z.shiftr w 10) < 64)%nat)
      by (apply lookup_lt_Some in E; exact E).
    assert (Hk : length l = length buf /\
                 forall s, (forall j, (j < 64)%nat -> s <> (pOutput + zig j)%nat) ->
                           l !! s = buf !! s).
    { split; [eapply store_length, E2|]. intros s Hs.
      eapply store_other; [exact E2|]. rewrite Hz. intros He.
      apply (Hs _ Hlt). symmetry. exact He. }
    if_inv H.
    + destruct (IH _ _ _ H) as [L K]. split; [lia|].
      intros s Hs. rewrite K by exact Hs. apply Hk, Hs.
    + injection H as <- _. exact Hk.
Qed.

Lemma zero_run_length (n counter pOutput : nat) (buf buf' : list Z)
    (counter' : nat) (idx : Z) :
  zero_run n counter pOutput buf = Some (counter', idx, buf') ->
  length buf' = length buf.
Proof.
  revert counter buf. induction n as [|n IH]; intros counter buf H;
    cbn [zero_run mbind option_bind] in H.
  - bind_inv H. injection H as _ _ <-. reflexivity.
  - bind_inv H. bind_inv H. rewrite (IH _ _ H). eapply store_length, E0.
Qed.

Lemma runskip_loop_length (ws Q : list Z) (pTable counter pOutput : nat)
    (buf : list Z) (r : runskip_exit) :
  runskip_loop ws Q pTable counter pOutput buf = Some r ->
  match r with
  | Returned buf' _ => length buf' = length buf
  | Broke _ buf' _ => length buf' = length buf
  end.
Proof.
  revert pTable counter buf. induction ws as [|w ws IH];
    intros pTable counter buf H; cbn [runskip_loop mbind option_bind] in H.
  - discriminate.
  - if_inv H; [injection H as <-; reflexivity|].
    bind_inv H. destruct p as [[c1 idx] buf1]. cbn [mbind option_bind] in H.
    bind_inv H. bind_inv H.
    pose proof (zero_run_length _ _ _ _ _ _ _ E) as L1.
    pose proof (store_length _ _ _ _ E1) as L2.
    if_inv H.
    + injection H as <-. lia.
    + specialize (IH _ _ _ H). destruct r; lia.
Qed.

Lemma clear_at_length (t : list Z) (c pOutput : nat) (buf buf' : list Z) :
  clear_at t c pOutput buf = Some buf' -> length buf' = length buf.
Proof. unfold clear_at. intros H. bind_inv H. eapply store_length, H. Qed.

Lemma align_clear_length (c pOutput : nat) (buf buf' : list Z) (c' : nat) :
  align_clear c pOutput buf = Some (c', buf') -> length buf' = length buf.
Proof.
  unfold align_clear. intros H.
  repeat match type of H with
  | (if ?b then _ else _) = Some _ =>
      destruct b; [injection H as _ <-; try reflexivity; try congruence|]
  | _ => bind_inv H;
         match goal with
         | E : clear_at _ _ _ _ = Some _ |- _ => apply clear_at_length in E
         end
  end.
  injection H as _ <-. congruence.
Qed.

Lemma tail_clear_length (fuel c pOutput : nat) (buf buf' : list Z) :
  tail_clear fuel c pOutput buf = Some buf' -> length buf' = length buf.
Proof.
  revert c buf. induction fuel as [|fuel IH]; intros c buf H;
    cbn [tail_clear mbind option_bind] in H.
  - discriminate.
  - if_inv H; [injection H as <-; reflexivity|].
    do 4 bind_inv H. apply IH in H.
    apply clear_at_length in E, E0, E1, E2. congruence.
Qed.

Lemma memset_slots_length (n p : nat) (buf buf' : list Z) :
  memset_slots n p buf = Some buf' -> length buf' = length buf.
Proof.
  revert p buf. induction n as [|n IH]; intros p buf H;
    cbn [memset_slots mbind option_bind] in H.
  - injection H as <-. reflexivity.
  - bind_inv H. rewrite (IH _ _ H). eapply store_length, E.
Qed.

(** The slots cleared after the last coefficient at position [c - 1]. *)
Lemma tail_zeroed (c pOutput c3 : nat) (buf b3 b4 : list Z) :
  (1 <= c <= 62)%nat ->
  align_clear (c + 1)%nat pOutput buf = Some (c3, b3) ->
  tail_clear 16 c3 pOutput b3 = Some b4 ->
  zeroed (map (fun j => (pOutput + zig j)%nat) (seq c (63 - c))) buf b4.
Proof.
  intros Hc Ha Ht.
  destruct (align_clear_zeroed _ _ _ _ _ Ha) as (Hc3 & H4 & Z1).
  assert (Hc64 : (c3 <= 64)%nat).
  { change 3 with (Z.ones 2) in H4. rewrite Z.land_ones in H4 by lia.
    change (2 ^ 2) with 4 in H4. Z.div_mod_to_equations. lia. }
  pose proof (tail_clear_zeroed _ _ _ _ _ H4 Hc64 Ht) as Z2.
  pose proof (zeroed_trans _ _ _ _ _ Z1 Z2) as Z12.
  rewrite <- map_app in Z12.
  replace (seq c3 (64 - c3))
    with (seq (c + 1 + (c3 - (c + 1))) (64 - c3)) in Z12 by (f_equal; lia).
  rewrite <- seq_app in Z12.
  replace (c3 - (c + 1) + (64 - c3))%nat with (63 - c)%nat in Z12 by lia.
  destruct Z12 as [Zs Ks]. split.
  - intros s Hs. apply Zs. apply list_elem_of_fmap in Hs.
    destruct Hs as (j & -> & Hj). apply elem_of_seq in Hj.
    apply list_elem_of_fmap. exists (S j). split.
    + f_equal. apply (zig_facts j). lia.
    + apply elem_of_seq. lia.
  - intros s Hs. apply Ks. intros Hin. apply Hs.
    apply list_elem_of_fmap in Hin. destruct Hin as (k & -> & Hk).
    apply elem_of_seq in Hk. apply list_elem_of_fmap. exists (k - 1)%nat. split.
    + f_equal. replace k with (S (k - 1)) at 1 by lia.
      symmetry. apply (zig_facts (k - 1)). lia.
    + apply elem_of_seq. lia.
Qed.

(** In the run-skip branch (bit 0 of the header clear), whenever the
    unpacker returns, the 63 AC positions of the block are determined by the
    input alone: position [j] of the zig-zag order, that is slot
    [g_index_look_up_table[j]], holds the packed coefficient of the run-level
    word that lands on [j], dequantised with entry [j + 1] of the block's
    table, and 0 when no word lands on it, whatever the slot held before. *)
Theorem runskip_block_layout (q : quant_buffers) (inPtr buf : list Z)
    (outputBlockPtr : nat) (isYBlock : bool) (header : Z)
    (ws buf' rest : list Z) :
  skip_eob inPtr = header :: ws ->
  Z.land header 1 = 0 ->
  ddv_func7_DecodeMacroBlock_impl q inPtr buf outputBlockPtr isYBlock
    = Some (buf', rest) ->
  let Q := if isYBlock then g_252_buffer_unk_63580C q
           else g_252_buffer_unk_635A0C q in
  forall j : nat, (j < 63)%nat ->
    buf' !! (outputBlockPtr + Z.to_nat (tbl g_index_look_up_table j))%nat
    = Some (match coefficient_at ws 0 j with
            | Some w => coefficient_slot (tbl Q (S j)) w
            | None => 0
            end).
Proof.
  intros Hskip Hflag H Q j Hj.
  change (buf' !! (outputBlockPtr + zig j)%nat = Some (ac_slot Q ws 0 j)).
  unfold ddv_func7_DecodeMacroBlock_impl in H. rewrite Hskip in H.
  bind_inv H. rewrite Hflag in H. cbn [Z.eqb negb] in H.
  bind_inv H. fold Q in E0.
  pose proof (runskip_loop_layout _ _ _ _ _ _ E0 ltac:(lia)) as L.
  destruct r as [b1 p1|c b1 p1].
  - injection H as <- _. apply L. lia.
  - destruct L as (Hc & Set_ & None_ & Keep).
    destruct (Nat.eqb_spec c 0) as [->|Hc0].
    + bind_inv H. injection H as <- _.
      apply memset_slots_zeroed in E1. unfold ac_slot.
      rewrite None_ by lia. apply (proj1 E1).
      destruct (zig_facts j Hj) as (_ & Hr & _). apply elem_of_seq. lia.
    + bind_inv H. destruct p as [c3 b3]. cbn [mbind option_bind] in H.
      bind_inv H. injection H as <- _.
      pose proof (tail_zeroed c _ _ _ _ _ ltac:(lia) E1 E2) as [Zs Ks].
      destruct (Nat.lt_ge_cases j c) as [Hlt|Hge].
      * rewrite Ks; [apply Set_; lia|].
        intros Hin. apply list_elem_of_fmap in Hin. destruct Hin as (k & He & Hk).
        apply elem_of_seq in Hk. apply Nat.add_cancel_l in He.
        apply zig_inj in He; lia.
      * unfold ac_slot. rewrite None_ by lia. apply Zs.
        apply list_elem_of_fmap. exists j. split; [reflexivity|].
        apply elem_of_seq. lia.
Qed.

(** Whenever the unpacker returns, the buffer has the length it had and no
    slot outside the 64 slots of the block has changed, except possibly the
    slot at offset [0x98E], the entry that closes the index table. *)
Theorem unpacker_stays_in_block (q : quant_buffers) (inPtr buf : list Z)
    (outputBlockPtr : nat) (isYBlock : bool) (buf' rest : list Z) :
  ddv_func7_DecodeMacroBlock_impl q inPtr buf outputBlockPtr isYBlock
    = Some (buf', rest) ->
  length buf' = length buf /\
  forall s : nat,
    (s < outputBlockPtr \/ outputBlockPtr + 64 <= s)%nat ->
    s <> (outputBlockPtr + 0x98E)%nat ->
    buf' !! s = buf !! s.
Proof.
  intros H. unfold ddv_func7_DecodeMacroBlock_impl in H.
  destruct (skip_eob inPtr) as [|header ws]; [discriminate|].
  bind_inv H.
  assert (Hzig : forall s,
            (s < outputBlockPtr \/ outputBlockPtr + 64 <= s)%nat ->
            s <> (outputBlockPtr + 0x98E)%nat ->
            forall j, (j < 64)%nat -> s <> (outputBlockPtr + zig j)%nat).
  { intros s Hs Hne j Hj. destruct (Nat.eq_dec j 63%nat) as [->|Hj63].
    - rewrite zig_63. exact Hne.
    - destruct (zig_facts j ltac:(lia)) as (_ & Hr & _). lia. }
  assert (H0 : length l = length buf /\
               forall s, (s < outputBlockPtr \/ outputBlockPtr + 64 <= s)%nat ->
                         l !! s = buf !! s).
  { split; [eapply store_length, E|]. intros s Hs.
    eapply store_other; [exact E|lia]. }
  destruct (negb _).
  - destruct (incremental_loop_confined _ _ _ _ _ _ _ _ H) as [L K].
    split; [lia|]. intros s Hs Hne. rewrite K by (apply Hzig; assumption).
    apply H0, Hs.
  - bind_inv H.
    pose proof (runskip_loop_length _ _ _ _ _ _ _ E0) as L1.
    pose proof (runskip_loop_layout _ _ _ _ _ _ E0 ltac:(lia)) as Lay.
    destruct r as [b1 p1|c b1 p1].
    + injection H as <- _. split; [lia|]. intros s Hs Hne.
      rewrite (proj2 Lay) by (intros j Hj; apply Hzig; [assumption..|lia]).
      apply H0, Hs.
    + destruct Lay as (Hc & _ & _ & Keep).
      assert (Hb1 : forall s,
                (s < outputBlockPtr \/ outputBlockPtr + 64 <= s)%nat ->
                s <> (outputBlockPtr + 0x98E)%nat -> b1 !! s = buf !! s).
      { intros s Hs Hne.
        rewrite Keep by (intros j Hj; apply Hzig; [assumption..|lia]).
        apply H0, Hs. }
      destruct (Nat.eqb_spec c 0) as [->|Hc0].
      * bind_inv H. injection H as <- _.
        pose proof (memset_slots_length _ _ _ _ E1) as L2.
        apply memset_slots_zeroed in E1. split; [lia|]. intros s Hs Hne.
        rewrite (proj2 E1) by (rewrite elem_of_seq; lia).
        apply Hb1; assumption.
      * bind_inv H. destruct p as [c3 b3]. cbn [mbind option_bind] in H.
        bind_inv H. injection H as <- _.
        pose proof (align_clear_length _ _ _ _ _ E1) as L2.
        pose proof (tail_clear_length _ _ _ _ _ E2) as L3.
        pose proof (tail_zeroed c _ _ _ _ _ ltac:(lia) E1 E2) as [_ Ks].
        split; [lia|]. intros s Hs Hne. rewrite Ks; [apply Hb1; assumption|].
        intros Hin. apply list_elem_of_fmap in Hin. destruct Hin as (k & He & Hk).
        apply elem_of_seq in Hk. revert He. apply Hzig; [assumption..|lia].
Qed.

(** *** Blocks on which the unpacker completes *)

(** What follows a run-skip block in the input, when the positions its words
    take, from [counter] on, stay within the 63 AC positions: each word skips
    its run and takes one position, [0xFE00] ends the block and so does the
    word that takes position 62, the last one. *)
Fixpoint block_tail (counter : nat) (pInput : list Z) : option (list Z) :=
  match pInput with
  | [] => None
  | w :: pInput =>
      if w =? 0xFE00 then Some pInput
      else
        let counter := S (counter + Z.to_nat (Z.shiftr w 10)) in
        if (63 <? counter)%nat then None
        else if (counter =? 63)%nat then Some pInput
        else block_tail counter pInput
  end.

(** What follows a block in the input: stale end codes, a header word with
    bit 0 clear, then the run-level words. *)
Definition after_block (pInput : list Z) : option (list Z) :=
  match skip_eob pInput with
  | header :: pInput =>
      if Z.land header 1 =? 0 then block_tail 0 pInput else None
  | [] => None
  end.

Lemma store_some (buf : list Z) (i : nat) (v : Z) :
  (i < length buf)%nat ->
  exists buf', store buf i v = Some buf' /\ length buf' = length buf.
Proof.
  intros H. unfold store. destruct (Nat.ltb_spec i (length buf)); [|lia].
  eexists. split; [reflexivity|apply length_insert].
Qed.

Lemma scan_table_check :
  forallb (fun k => match RL_ZSCAN_MATRIX_2 !! k with
                    | Some idx => (Z.to_nat idx <=? 63)%nat
                    | None => false
                    end) (seq 0 64) = true.
Proof. vm_compute. reflexivity. Qed.

Lemma scan_table_in_block (k : nat) :
  (k <= 63)%nat ->
  exists idx, RL_ZSCAN_MATRIX_2 !! k = Some idx /\ (Z.to_nat idx <= 63)%nat.
Proof.
  intros Hk. pose proof scan_table_check as H.
  rewrite forallb_forall in H. specialize (H k).
  rewrite in_seq in H. specialize (H ltac:(lia)).
  destruct (RL_ZSCAN_MATRIX_2 !! k) as [idx|]; [|discriminate].
  exists idx. split; [reflexivity|]. apply Nat.leb_le, H.
Qed.

Lemma index_table_in_block (c : nat) :
  (c <= 62)%nat ->
  exists idx, g_index_look_up_table !! c = Some idx /\ (Z.to_nat idx <= 63)%nat.
Proof.
  intros Hc. destruct (scan_table_in_block (c + 1) ltac:(lia)) as (idx & L & B).
  destruct (Nat.le_gt_cases c 60) as [H60|H60].
  - destruct (unrolled_tables c H60) as (T1 & _). exists idx. rewrite T1. auto.
  - assert (c = 61 \/ c = 62)%nat as [-> | ->] by lia;
      eexists; (split; [reflexivity|vm_compute; lia]).
Qed.

Lemma clear_at_some (t : list Z) (c pOutput : nat) (buf : list Z) (idx : Z) :
  t !! c = Some idx -> (Z.to_nat idx <= 63)%nat ->
  (pOutput + 64 <= length buf)%nat ->
  exists buf', clear_at t c pOutput buf = Some buf' /\ length buf' = length buf.
Proof.
  intros Ht Hi Hlen. unfold clear_at. rewrite Ht. cbn [mbind option_bind].
  apply store_some. lia.
Qed.

Lemma zero_run_some (n counter pOutput : nat) (buf : list Z) :
  (counter + n <= 62)%nat -> (pOutput + 64 <= length buf)%nat ->
  exists idx buf',
    zero_run n counter pOutput buf = Some ((counter + n)%nat, idx, buf') /\
    length buf' = length buf /\ (Z.to_nat idx <= 63)%nat.
Proof.
  revert counter buf. induction n as [|n IH]; intros counter buf Hc Hlen;
    cbn [zero_run].
  - destruct (index_table_in_block counter ltac:(lia)) as (idx & -> & Hi).
    cbn [mbind option_bind]. exists idx, buf.
    rewrite Nat.add_0_r. auto.
  - destruct (index_table_in_block counter ltac:(lia)) as (idx & -> & Hi).
    cbn [mbind option_bind].
    destruct (store_some buf (pOutput + Z.to_nat idx) 0 ltac:(lia))
      as (b1 & -> & L1).
    cbn [mbind option_bind].
    destruct (IH (S counter) b1 ltac:(lia) ltac:(lia)) as (i2 & b2 & E & L2 & H2).
    exists i2, b2. rewrite E.
    replace (S counter + n)%nat with (counter + S n)%nat by lia.
    split; [reflexivity|]. split; [lia|exact H2].
Qed.

Lemma runskip_loop_some (Q pInput : list Z) (counter pOutput : nat)
    (buf rest : list Z) :
  length Q = 64%nat -> (pOutput + 64 <= length buf)%nat ->
  (counter <= 62)%nat ->
  block_tail counter pInput = Some rest ->
  exists r,
    runskip_loop pInput Q (counter + 1) counter pOutput buf = Some r /\
    match r with
    | Returned buf' p => p = rest /\ length buf' = length buf
    | Broke c buf' p => p = rest /\ length buf' = length buf /\ (c <= 62)%nat
    end.
Proof.
  intros HQ. revert counter buf.
  induction pInput as [|w pInput IH]; intros counter buf Hlen Hc Hb;
    cbn [block_tail runskip_loop] in *; [discriminate|].
  destruct (w =? 0xFE00).
  { injection Hb as <-. eexists. split; [reflexivity|]. cbn. auto. }
  set (run := Z.to_nat (Z.shiftr w 10)) in *.
  destruct (Nat.ltb_spec 63 (S (counter + run))) as [|Hin]; [discriminate|].
  destruct (zero_run_some run counter pOutput buf ltac:(lia) Hlen)
    as (idx & b1 & -> & L1 & Hi).
  cbn [mbind option_bind].
  destruct (lookup_lt_is_Some_2 Q (counter + 1 + run)%nat ltac:(lia)) as [tv ->].
  cbn [mbind option_bind].
  destruct (store_some b1 (pOutput + Z.to_nat idx)
              (SetLoWord (SetHiWord 0 (GetHiWord (s32 (u32 (Z.shiftl w 22)))))
                 (dequant tv (s32 (u32 (Z.shiftl w 22))))) ltac:(lia))
    as (b2 & -> & L2).
  cbn [mbind option_bind].
  destruct (Nat.eqb_spec (S (counter + run)) 63) as [He|Hne].
  - injection Hb as <-. destruct (Nat.leb_spec 63 (S (counter + run))); [|lia].
    eexists. split; [reflexivity|]. cbn. split; [reflexivity|lia].
  - destruct (Nat.leb_spec 63 (S (counter + run))); [lia|].
    replace (counter + 1 + run + 1)%nat with (S (counter + run) + 1)%nat by lia.
    destruct (IH (S (counter + run)) b2 ltac:(lia) ltac:(lia) Hb) as (r & E & Hr).
    exists r. split; [exact E|].
    destruct r; [destruct Hr; split|destruct Hr as (? & ? & ?); repeat split];
      auto; lia.
Qed.

Lemma memset_slots_some (n p : nat) (buf : list Z) :
  (p + n <= length buf)%nat ->
  exists buf', memset_slots n p buf = Some buf' /\ length buf' = length buf.
Proof.
  revert p buf. induction n as [|n IH]; intros p buf H; cbn [memset_slots].
  - eauto.
  - destruct (store_some buf p 0 ltac:(lia)) as (b1 & -> & L1).
    cbn [mbind option_bind].
    destruct (IH (S p) b1 ltac:(lia)) as (b2 & E & L2).
    exists b2. split; [exact E|lia].
Qed.

Lemma land3_mod (c : nat) : Z.land (Z.of_nat c) 3 = Z.of_nat c mod 4.
Proof. change 3 with (Z.ones 2). apply Z.land_ones. lia. Qed.

Lemma align_clear_some (c pOutput : nat) (buf : list Z) :
  (1 <= c <= 63)%nat -> (pOutput + 64 <= length buf)%nat ->
  exists c' buf',
    align_clear c pOutput buf = Some (c', buf') /\
    length buf' = length buf /\ (4 <= c' <= 64)%nat /\
    Z.land (Z.of_nat c') 3 = 0.
Proof.
  intros Hc Hlen. unfold align_clear.
  destruct (Z.eqb_spec (Z.land (Z.of_nat c) 3) 0) as [E0|E0].
  { exists c, buf. repeat split; auto; try lia.
    rewrite land3_mod in E0. Z.div_mod_to_equations. lia. }
  destruct (scan_table_in_block c ltac:(lia)) as (i1 & T1 & B1).
  destruct (clear_at_some _ c pOutput buf i1 T1 B1 Hlen) as (b1 & -> & L1).
  cbn [mbind option_bind].
  destruct (Z.eqb_spec (Z.land (Z.of_nat (S c)) 3) 0) as [E1|E1].
  { exists (S c), b1. repeat split; auto; try lia.
    rewrite land3_mod in E1. Z.div_mod_to_equations. lia. }
  assert (Hc1 : (S c <= 63)%nat).
  { rewrite land3_mod in E1. Z.div_mod_to_equations. lia. }
  destruct (scan_table_in_block (S c) Hc1) as (i2 & T2 & B2).
  destruct (clear_at_some _ (S c) pOutput b1 i2 T2 B2 ltac:(lia))
    as (b2 & -> & L2).
  cbn [mbind option_bind].
  destruct (Z.eqb_spec (Z.land (Z.of_nat (S (S c))) 3) 0) as [E2|E2].
  { exists (S (S c)), b2. repeat split; auto; try lia.
    rewrite land3_mod in E2. Z.div_mod_to_equations. lia. }
  assert (Hc2 : (S (S c) <= 63)%nat).
  { rewrite land3_mod in E2. Z.div_mod_to_equations. lia. }
  destruct (scan_table_in_block (S (S c)) Hc2) as (i3 & T3 & B3).
  destruct (clear_at_some _ (S (S c)) pOutput b2 i3 T3 B3 ltac:(lia))
    as (b3 & -> & L3).
  cbn [mbind option_bind].
  exists (S (S (S c))), b3. split; [reflexivity|]. split; [lia|].
  rewrite !land3_mod in *. split; Z.div_mod_to_equations; lia.
Qed.

Lemma tail_clear_some (fuel c pOutput : nat) (buf : list Z) :
  Z.land (Z.of_nat c) 3 = 0 -> (4 <= c <= 64)%nat -> (64 - c < 4 * fuel)%nat ->
  (pOutput + 64 <= length buf)%nat ->
  exists buf', tail_clear fuel c pOutput buf = Some buf' /\
               length buf' = length buf.
Proof.
  revert c buf. induction fuel as [|fuel IH]; intros c buf H4 Hc Hf Hlen;
    cbn [tail_clear]; [lia|].
  destruct (Nat.eqb_spec c 64) as [->|Hne]; [eauto|].
  assert (Hc60 : (c <= 60)%nat).
  { rewrite land3_mod in H4. Z.div_mod_to_equations. lia. }
  destruct (unrolled_tables c Hc60) as (T1 & T2 & T3).
  destruct (scan_table_in_block c ltac:(lia)) as (i0 & L0 & B0).
  destruct (scan_table_in_block (c + 1) ltac:(lia)) as (i1 & L1 & B1).
  destruct (scan_table_in_block (c + 2) ltac:(lia)) as (i2 & L2 & B2).
  destruct (scan_table_in_block (c + 3) ltac:(lia)) as (i3 & L3 & B3).
  rewrite <- T1 in L1. rewrite <- T2 in L2. rewrite <- T3 in L3.
  destruct (clear_at_some _ c pOutput buf i0 L0 B0 Hlen) as (b0 & -> & K0).
  cbn [mbind option_bind].
  destruct (clear_at_some _ c pOutput b0 i1 L1 B1 ltac:(lia)) as (b1 & -> & K1).
  cbn [mbind option_bind].
  destruct (clear_at_some _ c pOutput b1 i2 L2 B2 ltac:(lia)) as (b2 & -> & K2).
  cbn [mbind option_bind].
  destruct (clear_at_some _ c pOutput b2 i3 L3 B3 ltac:(lia)) as (b3 & -> & K3).
  cbn [mbind option_bind].
  destruct (IH (c + 4)%nat b3) as (b4 & E & K4); try lia.
  { rewrite !land3_mod in *. Z.div_mod_to_equations. lia. }
  exists b4. split; [exact E|lia].
Qed.

(** On a block whose words stay within the 63 AC positions, with the
    64 slots of the block inside the buffer and 64-entry dequantisation
    arrays, the unpacker returns, leaving the input right after the block. *)
Lemma unpack_block_some (q : quant_buffers) (inPtr buf : list Z)
    (outputBlockPtr : nat) (isYBlock : bool) (rest : list Z) :
  length (g_252_buffer_unk_63580C q) = 64%nat ->
  length (g_252_buffer_unk_635A0C q) = 64%nat ->
  (outputBlockPtr + 64 <= length buf)%nat ->
  after_block inPtr = Some rest ->
  exists buf',
    ddv_func7_DecodeMacroBlock_impl q inPtr buf outputBlockPtr isYBlock
      = Some (buf', rest) /\
    length buf' = length buf.
Proof.
  intros HY HC Hlen Hb. unfold after_block in Hb.
  unfold ddv_func7_DecodeMacroBlock_impl. cbv zeta.
  destruct (skip_eob inPtr) as [|header pInput]; [discriminate|].
  destruct (store_some buf outputBlockPtr
              (header_slot (if isYBlock then 1 else 0) header) ltac:(lia))
    as (b0 & -> & L0).
  cbn [mbind option_bind].
  destruct (Z.land header 1 =? 0); [|discriminate]. cbn [negb].
  set (Q := if isYBlock then _ else _).
  assert (HQ : length Q = 64%nat) by (subst Q; destruct isYBlock; assumption).
  destruct (runskip_loop_some Q pInput 0 outputBlockPtr b0 rest HQ
              ltac:(lia) ltac:(lia) Hb) as (r & E & Hr).
  change (0 + 1)%nat with 1%nat in E. rewrite E. cbn [mbind option_bind].
  destruct r as [b1 p|c b1 p].
  - destruct Hr as [-> L1]. exists b1. split; [reflexivity|lia].
  - destruct Hr as (-> & L1 & Hc).
    destruct (Nat.eqb_spec c 0) as [->|Hc0].
    + destruct (memset_slots_some 63 (outputBlockPtr + 1) b1 ltac:(lia))
        as (b2 & -> & L2).
      cbn [mbind option_bind]. exists b2. split; [reflexivity|lia].
    + destruct (align_clear_some (c + 1) outputBlockPtr b1 ltac:(lia)
                  ltac:(lia)) as (c3 & b2 & -> & L2 & Hc3 & H4).
      cbn [mbind option_bind].
      destruct (tail_clear_some 16 c3 outputBlockPtr b2 H4 Hc3 ltac:(lia)
                  ltac:(lia)) as (b3 & -> & L3).
      cbn [mbind option_bind]. exists b3. split; [reflexivity|lia].
Qed.

(** *** The two halves of a coefficient slot *)

Lemma s16_low16 (z : Z) : s16 (u16 z) = s16 z.
Proof.
  unfold s16, u16. f_equal. rewrite Z.add_mod_idemp_l by lia. reflexivity.
Qed.

Lemma s16_add_multiple (z k : Z) : s16 (z + k * 65536) = s16 z.
Proof.
  unfold s16. change (2 ^ 16) with 65536. f_equal.
  replace (z + k * 65536 + 2 ^ 15) with (z + 2 ^ 15 + k * 65536) by lia.
  apply Z.mod_add. lia.
Qed.

(** [v24 >> 22] is the low 10 bits of the word read as a signed number, and
    the high half of [v24] is those 10 bits shifted left by 6. *)
Lemma level_check :
  forallb (fun w =>
             let v24 := s32 (u32 (Z.shiftl w 22)) in
             (Z.shiftr v24 22 =? sign_extend 10 (bit_field w 9 0))
             && (GetHiWord v24 =? bit_field w 9 0 * 64))
          (zrange 0 1024) = true.
Proof. vm_compute. reflexivity. Qed.

(** Only the low 10 bits of the word reach [v24] and the level field. *)
Lemma level_low_bits (w : Z) :
  s32 (u32 (Z.shiftl w 22)) = s32 (u32 (Z.shiftl (w mod 1024) 22)) /\
  bit_field w 9 0 = bit_field (w mod 1024) 9 0.
Proof.
  split.
  - f_equal. unfold u32. rewrite !Z.shiftl_mul_pow2 by lia.
    change (2 ^ 32) with (1024 * 2 ^ 22).
    rewrite !Z.mul_mod_distr_r by lia. rewrite Z.mod_mod by lia. reflexivity.
  - unfold bit_field. rewrite !Z.shiftr_0_r.
    change (2 ^ (9 - 0 + 1) - 1) with (Z.ones 10).
    rewrite !Z.land_ones by lia. rewrite Z.mod_mod by lia. reflexivity.
Qed.

Lemma dequant_low16 (tv level : Z) :
  -262144 <= tv * level + 4 < 262144 ->
  s16 (u16 (Z.shiftr (u32 (u32 (tv * level) + 4)) 3)) = (tv * level + 4) / 8.
Proof.
  intros Hr. rewrite s16_low16. unfold u32.
  rewrite Z.add_mod_idemp_l by lia. rewrite Z.shiftr_div_pow2 by lia.
  set (x := tv * level + 4) in *.
  change (2 ^ 32) with 4294967296. change (2 ^ 3) with 8.
  rewrite (Z.mod_eq x 4294967296) by lia.
  replace (x - 4294967296 * (x / 4294967296))
    with (x + (- (x / 4294967296) * 536870912) * 8) by lia.
  rewrite Z.div_add by lia.
  replace (- (x / 4294967296) * 536870912)
    with ((- (x / 4294967296) * 8192) * 65536) by lia.
  rewrite s16_add_multiple. apply s16_id.
  split.
  - apply Z.div_le_lower_bound; lia.
  - apply Z.div_lt_upper_bound; lia.
Qed.

(** For a 16-bit run-level word [w] whose level is the signed 10-bit field
    in bits 9..0, and a table value [tv] with [tv * level + 4] within 19
    bits: the low half of the stored slot, read as the [int16_t] that [idct]
    reads, is [(tv * level + 4) / 8] rounded down (the unsigned shift of the
    source loses nothing), and the high half is the level field shifted left
    by 6. *)
Theorem coefficient_slot_halves (tv w : Z) :
  0 <= w < 65536 ->
  let level := sign_extend 10 (bit_field w 9 0) in
  -262144 <= tv * level + 4 < 262144 ->
  s16 (coefficient_slot tv w) = (tv * level + 4) / 8 /\
  GetHiWord (coefficient_slot tv w) = bit_field w 9 0 * 64.
Proof.
  intros Hw level Hr.
  destruct (level_low_bits w) as [Ev Eb].
  assert (Hlow : 0 <= w mod 1024 < 1024) by (apply Z.mod_pos_bound; lia).
  pose proof (forall_zrange _ 0 1024 level_check (w mod 1024) Hlow) as Hc.
  cbv beta zeta in Hc. rewrite <- Ev, <- Eb in Hc.
  apply andb_true_iff in Hc. destruct Hc as [Hl Hh].
  apply Z.eqb_eq in Hl, Hh. fold level in Hl.
  unfold coefficient_slot. cbv zeta.
  set (v24 := s32 (u32 (Z.shiftl w 22))) in *.
  pose proof (GetHiWord_range v24) as Hrange.
  rewrite SetLoWord_value, SetHiWord_value.
  change (0 mod 65536) with 0. rewrite (Z.mod_small (GetHiWord v24)) by lia.
  rewrite (GetHiWord_packed 0) by lia.
  assert (Hd : 0 <= dequant tv v24 mod 65536 < 65536)
    by (apply Z.mod_pos_bound; lia).
  split.
  - rewrite s16_add_multiple.
    change (dequant tv v24 mod 65536) with (u16 (dequant tv v24)).
    rewrite s16_low16. unfold dequant. rewrite Hl. apply dequant_low16, Hr.
  - rewrite GetHiWord_packed by lia. exact Hh.
Qed.

(** *** A small instance: a luma block with one coefficient

    After a stale [0xFE00]: header [0x07FA], the word [0x0403] (run 1, level
    3) and the end-of-block word; the block is the second of a buffer whose
    slots all hold 7. *)

Definition example_q : quant_buffers :=
  after_block_decode_no_effect_q_impl 2 quant_buffers_init.

Definition example_input : list Z := [0xFE00; 0x07FA; 0x0403; 0xFE00].

Lemma runskip_block_layout_witness :
  exists buf' rest,
    ddv_func7_DecodeMacroBlock_impl example_q example_input (replicate 192 7)
      64 true = Some (buf', rest) /\
    buf' !! (64 + 1)%nat = Some 0 /\
    buf' !! (64 + 8)%nat
      = Some (coefficient_slot (tbl (g_252_buffer_unk_63580C example_q) 2)
                0x0403) /\
    buf' !! (64 + 63)%nat = Some 0.
Proof.
  eexists _, _. split; [vm_compute; reflexivity|].
  pose proof (runskip_block_layout example_q example_input (replicate 192 7)
                64 true 0x07FA [0x0403; 0xFE00] _ _ eq_refl eq_refl eq_refl)
    as H.
  cbv zeta in H.
  split; [refine (H 0%nat _); lia|].
  split; [refine (H 1%nat _); lia|refine (H 62%nat _); lia].
Defined.

Lemma unpacker_stays_in_block_witness :
  exists buf' rest,
    ddv_func7_DecodeMacroBlock_impl example_q example_input (replicate 192 7)
      64 true = Some (buf', rest) /\
    length buf' = 192%nat /\ buf' !! 63%nat = Some 7 /\ buf' !! 128%nat = Some 7.
Proof.
  eexists _, _. split; [vm_compute; reflexivity|].
  destruct (unpacker_stays_in_block example_q example_input (replicate 192 7)
              64 true _ _ eq_refl) as [L K].
  split; [exact L|].
  split; [refine (K 63%nat _ _); lia|refine (K 128%nat _ _); lia].
Defined.

Lemma coefficient_slot_halves_witness :
  s16 (coefficient_slot 36 0x07FD) = (36 * -3 + 4) / 8 /\
  GetHiWord (coefficient_slot 36 0x07FD) = 1021 * 64.
Proof.
  apply (coefficient_slot_halves 36 0x07FD);
    [lia|vm_compute; split; [discriminate|reflexivity]].
Defined.

End Unpack.

(** ** Inverse DCT: [half_idct] and [idct]

    [T64IntsArray] is [std::array<int32_t, 256>]; [idct] touches its first 64
    entries only.  The [int32_t] arithmetic is written with its wrap-around
    ([s32]); [x >> n] on a signed value is [Z.shiftr]. *)

Module Idct.

(** [a[i]] for an index inside the array. *)
Definition rd (a : list Z) (i : nat) : Z := default 0 (a !! i).

(** One iteration of the [for] loop of [half_idct]. *)
Definition half_idct_line (pSource pDestination : list Z) (nPitch : nat)
    (nShift : Z) (sourceIdx destinationIdx : nat) : list Z :=
  let src k := rd pSource (k * nPitch + sourceIdx) in
  let pTemp4 := s32 (src 0%nat * 8192 + src 2%nat * 10703 + src 4%nat * 8192 + src 6%nat * 4433) in
  let pTemp5 := s32 (src 0%nat * 8192 + src 2%nat * 4433 - src 4%nat * 8192 - src 6%nat * 10704) in
  let pTemp6 := s32 (src 0%nat * 8192 - src 2%nat * 4433 - src 4%nat * 8192 + src 6%nat * 10704) in
  let pTemp7 := s32 (src 0%nat * 8192 - src 2%nat * 10703 + src 4%nat * 8192 - src 6%nat * 4433) in
  let pTemp0 := s32 (src 1%nat * 11363 + src 3%nat * 9633 + src 5%nat * 6437 + src 7%nat * 2260) in
  let pTemp1 := s32 (src 1%nat * 9633 - src 3%nat * 2259 - src 5%nat * 11362 - src 7%nat * 6436) in
  let pTemp2 := s32 (src 1%nat * 6437 - src 3%nat * 11362 + src 5%nat * 2261 + src 7%nat * 9633) in
  let pTemp3 := s32 (src 1%nat * 2260 - src 3%nat * 6436 + src 5%nat * 9633 - src 7%nat * 11363) in
  let d := pDestination in
  let d := <[(0 * nPitch + destinationIdx)%nat := Z.shiftr (s32 (pTemp4 + pTemp0)) nShift]> d in
  let d := <[(1 * nPitch + destinationIdx)%nat := Z.shiftr (s32 (pTemp5 + pTemp1)) nShift]> d in
  let d := <[(2 * nPitch + destinationIdx)%nat := Z.shiftr (s32 (pTemp6 + pTemp2)) nShift]> d in
  let d := <[(3 * nPitch + destinationIdx)%nat := Z.shiftr (s32 (pTemp7 + pTemp3)) nShift]> d in
  let d := <[(4 * nPitch + destinationIdx)%nat := Z.shiftr (s32 (pTemp7 - pTemp3)) nShift]> d in
  let d := <[(5 * nPitch + destinationIdx)%nat := Z.shiftr (s32 (pTemp6 - pTemp2)) nShift]> d in
  let d := <[(6 * nPitch + destinationIdx)%nat := Z.shiftr (s32 (pTemp5 - pTemp1)) nShift]> d in
  let d := <[(7 * nPitch + destinationIdx)%nat := Z.shiftr (s32 (pTemp4 - pTemp0)) nShift]> d in
  d.

(** The [for (int i = 0; i < 8; i++)] loop with [n] iterations left. *)
Fixpoint half_idct_loop (n : nat) (pSource pDestination : list Z)
    (nPitch nIncrement : nat) (nShift : Z) (sourceIdx destinationIdx : nat)
    : list Z :=
  match n with
  | O => pDestination
  | S n' =>
      half_idct_loop n' pSource
        (half_idct_line pSource pDestination nPitch nShift sourceIdx
           destinationIdx)
        nPitch nIncrement nShift
        (sourceIdx + nIncrement)%nat (destinationIdx + nIncrement)%nat
  end.

Definition half_idct (pSource pDestination : list Z) (nPitch nIncrement : nat)
    (nShift : Z) : list Z :=
  half_idct_loop 8 pSource pDestination nPitch nIncrement nShift 0 0.

(** [for (i < 64) pExtendedSource[i] = input[i * 2]]: [input] is the block's
    list of 32-bit slots, and the [int16_t] at element [2 i] is the low half
    of slot [i] (little-endian), read as a signed value. *)
Fixpoint extend_loop (n : nat) (i : nat) (input pExtendedSource : list Z)
    : list Z :=
  match n with
  | O => pExtendedSource
  | S n' => extend_loop n' (S i) input (<[i := s16 (rd input i)]> pExtendedSource)
  end.

(** [idct], with the initial contents of its two uninitialised locals made
    explicit. *)
Definition idct_from (pTemp pExtendedSource : list Z) (input : list Z)
    (pDestination : list Z) : list Z :=
  let pExtendedSource := extend_loop 64 0 input pExtendedSource in
  let pTemp := half_idct pExtendedSource pTemp 8 1 11 in
  half_idct pTemp pDestination 1 8 18.

Definition idct (input pDestination : list Z) : list Z :=
  idct_from (replicate 256 0) (replicate 256 0) input pDestination.

(** *** The butterfly as the specification lists it *)

(** [x >> shift] in 32-bit signed arithmetic. *)
Definition asr32 (x shift : Z) : Z := Z.shiftr (s32 x) shift.

Definition butterfly (shift : Z) (s : nat -> Z) (k : nat) : Z :=
  let s0 := s 0%nat in let s1 := s 1%nat in let s2 := s 2%nat in
  let s3 := s 3%nat in let s4 := s 4%nat in let s5 := s 5%nat in
  let s6 := s 6%nat in let s7 := s 7%nat in
  let E0 := s0 * 8192 + s2 * 10703 + s4 * 8192 + s6 * 4433 in
  let E1 := s0 * 8192 + s2 * 4433 - s4 * 8192 - s6 * 10704 in
  let E2 := s0 * 8192 - s2 * 4433 - s4 * 8192 + s6 * 10704 in
  let E3 := s0 * 8192 - s2 * 10703 + s4 * 8192 - s6 * 4433 in
  let O0 := s1 * 11363 + s3 * 9633 + s5 * 6437 + s7 * 2260 in
  let O1 := s1 * 9633 - s3 * 2259 - s5 * 11362 - s7 * 6436 in
  let O2 := s1 * 6437 - s3 * 11362 + s5 * 2261 + s7 * 9633 in
  let O3 := s1 * 2260 - s3 * 6436 + s5 * 9633 - s7 * 11363 in
  match k with
  | 0%nat => asr32 (E0 + O0) shift
  | 1%nat => asr32 (E1 + O1) shift
  | 2%nat => asr32 (E2 + O2) shift
  | 3%nat => asr32 (E3 + O3) shift
  | 4%nat => asr32 (E3 - O3) shift
  | 5%nat => asr32 (E2 - O2) shift
  | 6%nat => asr32 (E1 - O1) shift
  | _ => asr32 (E0 - O0) shift
  end.

(** *** Properties *)

Lemma s32_mod (x : Z) : s32 x mod 2 ^ 32 = x mod 2 ^ 32.
Proof.
  unfold s32. rewrite Zminus_mod, Z.mod_mod by lia.
  rewrite <- Zminus_mod. f_equal. lia.
Qed.

Lemma s32_eqm (x y : Z) : x mod 2 ^ 32 = y mod 2 ^ 32 -> s32 x = s32 y.
Proof.
  intros H. unfold s32. f_equal.
  rewrite (Z.add_mod x), (Z.add_mod y) by lia. rewrite H. reflexivity.
Qed.

Lemma s32_add (x y : Z) : s32 (s32 x + s32 y) = s32 (x + y).
Proof.
  apply s32_eqm. rewrite Z.add_mod, !s32_mod, <- Z.add_mod by lia. reflexivity.
Qed.

Lemma s32_sub (x y : Z) : s32 (s32 x - s32 y) = s32 (x - y).
Proof.
  apply s32_eqm. rewrite Zminus_mod, !s32_mod, <- Zminus_mod. reflexivity.
Qed.

Lemma half_idct_line_length (pSource pDestination : list Z) (nPitch : nat)
    (nShift : Z) (sourceIdx destinationIdx : nat) :
  length (half_idct_line pSource pDestination nPitch nShift sourceIdx
            destinationIdx) = length pDestination.
Proof. unfold half_idct_line. cbv zeta. rewrite !length_insert. reflexivity. Qed.

Lemma half_idct_line_other (pSource pDestination : list Z) (nPitch : nat)
    (nShift : Z) (sourceIdx destinationIdx : nat) (p : nat) :
  (forall k : nat, (k < 8)%nat -> p <> (k * nPitch + destinationIdx)%nat) ->
  half_idct_line pSource pDestination nPitch nShift sourceIdx destinationIdx
    !! p = pDestination !! p.
Proof.
  intros Hp. unfold half_idct_line. cbv zeta.
  rewrite !list_lookup_insert_ne; [reflexivity|..];
    intros Heq; symmetry in Heq; revert Heq; apply Hp; lia.
Qed.

Lemma half_idct_line_lookup (pSource pDestination : list Z) (nPitch : nat)
    (nShift : Z) (sourceIdx destinationIdx : nat) (k : nat) :
  (1 <= nPitch)%nat ->
  (7 * nPitch + destinationIdx < length pDestination)%nat ->
  (k < 8)%nat ->
  half_idct_line pSource pDestination nPitch nShift sourceIdx destinationIdx
    !! (k * nPitch + destinationIdx)%nat
  = Some (butterfly nShift
            (fun m => rd pSource (m * nPitch + sourceIdx)) k).
Proof.
  intros Hp Hlen Hk. unfold half_idct_line. cbv zeta.
  do 8 (destruct k as [|k];
    [ rewrite ?list_lookup_insert_ne by lia;
      rewrite list_lookup_insert_eq by (rewrite ?length_insert; lia);
      unfold butterfly, asr32; cbv zeta;
      rewrite ?s32_add, ?s32_sub; reflexivity |]).
  lia.
Qed.

Lemma butterfly_ext (shift : Z) (f g : nat -> Z) (k : nat) :
  (forall m : nat, (m < 8)%nat -> f m = g m) ->
  butterfly shift f k = butterfly shift g k.
Proof.
  intros H. unfold butterfly.
  rewrite !(H 0%nat), !(H 1%nat), !(H 2%nat), !(H 3%nat), !(H 4%nat),
          !(H 5%nat), !(H 6%nat), !(H 7%nat) by lia.
  reflexivity.
Qed.

(** Pass 1: pitch 8, increment 1 (one column per iteration). *)
Lemma half_idct_loop_columns (nShift : Z) (n idx : nat)
    (pSource pDestination : list Z) :
  (idx + n <= 8)%nat ->
  (64 <= length pDestination)%nat ->
  let r := half_idct_loop n pSource pDestination 8 1 nShift idx idx in
  length r = length pDestination /\
  (forall j k : nat, (idx <= j < idx + n)%nat -> (k < 8)%nat ->
     r !! (k * 8 + j)%nat
       = Some (butterfly nShift (fun m => rd pSource (m * 8 + j)) k)) /\
  (forall p : nat,
     (forall j k : nat, (idx <= j < idx + n)%nat -> (k < 8)%nat ->
        p <> (k * 8 + j)%nat) ->
     r !! p = pDestination !! p).
Proof.
  revert idx pDestination.
  induction n as [|n IH]; intros idx dst Hn Hlen; cbn [half_idct_loop].
  - split; [reflexivity|]. split; [intros; lia|reflexivity].
  - set (dst1 := half_idct_line pSource dst 8 nShift idx idx).
    assert (Hlen1 : length dst1 = length dst) by apply half_idct_line_length.
    destruct (IH (idx + 1)%nat dst1 ltac:(lia) ltac:(lia)) as (L & Set_ & Keep).
    split; [lia|]. split.
    + intros j k Hj Hk. destruct (Nat.eq_dec j idx) as [->|Hne].
      * rewrite Keep by (intros; lia).
        apply half_idct_line_lookup; lia.
      * apply Set_; lia.
    + intros p Hp. rewrite Keep by (intros; apply Hp; lia).
      apply half_idct_line_other. intros k Hk. apply Hp; lia.
Qed.

(** Pass 2: pitch 1, increment 8 (one row per iteration). *)
Lemma half_idct_loop_rows (nShift : Z) (n i : nat)
    (pSource pDestination : list Z) :
  (i + n <= 8)%nat ->
  (64 <= length pDestination)%nat ->
  let r := half_idct_loop n pSource pDestination 1 8 nShift (8 * i) (8 * i) in
  length r = length pDestination /\
  (forall j k : nat, (i <= j < i + n)%nat -> (k < 8)%nat ->
     r !! (k * 1 + 8 * j)%nat
       = Some (butterfly nShift (fun m => rd pSource (m * 1 + 8 * j)) k)) /\
  (forall p : nat,
     (forall j k : nat, (i <= j < i + n)%nat -> (k < 8)%nat ->
        p <> (k * 1 + 8 * j)%nat) ->
     r !! p = pDestination !! p).
Proof.
  revert i pDestination.
  induction n as [|n IH]; intros i dst Hn Hlen; cbn [half_idct_loop].
  - split; [reflexivity|]. split; [intros; lia|reflexivity].
  - set (dst1 := half_idct_line pSource dst 1 nShift (8 * i) (8 * i)).
    assert (Hlen1 : length dst1 = length dst) by apply half_idct_line_length.
    replace (8 * i + 8)%nat with (8 * (i + 1))%nat by lia.
    destruct (IH (i + 1)%nat dst1 ltac:(lia) ltac:(lia)) as (L & Set_ & Keep).
    split; [lia|]. split.
    + intros j k Hj Hk. destruct (Nat.eq_dec j i) as [->|Hne].
      * rewrite Keep by (intros; lia).
        apply half_idct_line_lookup; lia.
      * apply Set_; lia.
    + intros p Hp. rewrite Keep by (intros; apply Hp; lia).
      apply half_idct_line_other. intros k Hk. apply Hp; lia.
Qed.

Lemma extend_loop_spec (n i : nat) (input pExtendedSource : list Z) :
  (i + n <= length pExtendedSource)%nat ->
  let r := extend_loop n i input pExtendedSource in
  length r = length pExtendedSource /\
  (forall j : nat, (i <= j < i + n)%nat -> r !! j = Some (s16 (rd input j))) /\
  (forall j : nat, (j < i)%nat -> r !! j = pExtendedSource !! j).
Proof.
  revert i pExtendedSource.
  induction n as [|n IH]; intros i ext Hlen; cbn [extend_loop].
  - split; [reflexivity|]. split; [intros; lia|reflexivity].
  - destruct (IH (S i) (<[i := s16 (rd input i)]> ext)) as (L & Set_ & Keep).
    { rewrite length_insert. lia. }
    rewrite length_insert in L. split; [exact L|]. split.
    + intros j Hj. destruct (Nat.eq_dec j i) as [->|Hne].
      * rewrite Keep by lia. apply list_lookup_insert_eq. lia.
      * apply Set_. lia.
    + intros j Hj. rewrite Keep by lia. apply list_lookup_insert_ne. lia.
Qed.

(** The butterfly over the integers, without the 32-bit wrap-around. *)
Definition butterfly_exact (shift : Z) (s : nat -> Z) (k : nat) : Z :=
  let s0 := s 0%nat in let s1 := s 1%nat in let s2 := s 2%nat in
  let s3 := s 3%nat in let s4 := s 4%nat in let s5 := s 5%nat in
  let s6 := s 6%nat in let s7 := s 7%nat in
  let E0 := s0 * 8192 + s2 * 10703 + s4 * 8192 + s6 * 4433 in
  let E1 := s0 * 8192 + s2 * 4433 - s4 * 8192 - s6 * 10704 in
  let E2 := s0 * 8192 - s2 * 4433 - s4 * 8192 + s6 * 10704 in
  let E3 := s0 * 8192 - s2 * 10703 + s4 * 8192 - s6 * 4433 in
  let O0 := s1 * 11363 + s3 * 9633 + s5 * 6437 + s7 * 2260 in
  let O1 := s1 * 9633 - s3 * 2259 - s5 * 11362 - s7 * 6436 in
  let O2 := s1 * 6437 - s3 * 11362 + s5 * 2261 + s7 * 9633 in
  let O3 := s1 * 2260 - s3 * 6436 + s5 * 9633 - s7 * 11363 in
  match k with
  | 0%nat => Z.shiftr (E0 + O0) shift
  | 1%nat => Z.shiftr (E1 + O1) shift
  | 2%nat => Z.shiftr (E2 + O2) shift
  | 3%nat => Z.shiftr (E3 + O3) shift
  | 4%nat => Z.shiftr (E3 - O3) shift
  | 5%nat => Z.shiftr (E2 - O2) shift
  | 6%nat => Z.shiftr (E1 - O1) shift
  | _ => Z.shiftr (E0 - O0) shift
  end.

(** On 16-bit inputs, as in the first pass, nothing wraps. *)
Lemma butterfly_no_wrap (shift : Z) (s : nat -> Z) (k : nat) :
  (forall i : nat, (i < 8)%nat -> -32768 <= s i < 32768) ->
  butterfly shift s k = butterfly_exact shift s k.
Proof.
  intros H.
  pose proof (H 0%nat ltac:(lia)). pose proof (H 1%nat ltac:(lia)).
  pose proof (H 2%nat ltac:(lia)). pose proof (H 3%nat ltac:(lia)).
  pose proof (H 4%nat ltac:(lia)). pose proof (H 5%nat ltac:(lia)).
  pose proof (H 6%nat ltac:(lia)). pose proof (H 7%nat ltac:(lia)).
  unfold butterfly, butterfly_exact, asr32. cbv zeta.
  do 7 (destruct k as [|k]; [rewrite s32_id by lia; reflexivity|]).
  rewrite s32_id by lia. reflexivity.
Qed.

(** C5. For every block of packed input slots and whatever the scratch
    arrays held before, output entry [8 i + k] of [idct] is the 8-point
    butterfly with shift 18 applied along row [i] of the intermediate array,
    whose entry [8 i + m] is the butterfly with shift 11 applied along column
    [m] of the input; the butterfly is the one with the listed multipliers
    ([butterfly]), computed in 32-bit signed arithmetic with arithmetic
    shifts; the inputs of the first pass are the low 16 bits of each slot
    read as signed values; entries from 64 on are left alone. *)
Theorem idct_is_two_butterfly_passes
    (pTemp pExtendedSource input pDestination : list Z) :
  (64 <= length pTemp)%nat ->
  (64 <= length pExtendedSource)%nat ->
  (64 <= length pDestination)%nat ->
  let out := idct_from pTemp pExtendedSource input pDestination in
  length out = length pDestination /\
  (forall i k : nat, (i < 8)%nat -> (k < 8)%nat ->
     out !! (8 * i + k)%nat
       = Some (butterfly 18
                 (fun m => butterfly 11
                             (fun n => s16 (rd input (8 * n + m))) i) k)) /\
  (forall p : nat, (64 <= p)%nat -> out !! p = pDestination !! p).
Proof.
  intros HT HE HD. unfold idct_from, half_idct. cbv zeta.
  destruct (extend_loop_spec 64 0 input pExtendedSource ltac:(lia))
    as (LE & SetE & _).
  set (ext := extend_loop 64 0 input pExtendedSource) in *.
  destruct (half_idct_loop_columns 11 8 0 ext pTemp ltac:(lia) HT)
    as (L1 & Set1 & _).
  set (tmp := half_idct_loop 8 ext pTemp 8 1 11 0 0) in *.
  destruct (half_idct_loop_rows 18 8 0 tmp pDestination ltac:(lia) HD)
    as (L2 & Set2 & Keep2).
  change (8 * 0)%nat with 0%nat in *.
  set (out := half_idct_loop 8 tmp pDestination 1 8 18 0 0) in *.
  split; [exact L2|]. split.
  - intros i k Hi Hk.
    replace (8 * i + k)%nat with (k * 1 + 8 * i)%nat by lia.
    rewrite Set2 by lia. f_equal. apply butterfly_ext. intros m Hm.
    unfold rd at 1.
    replace (m * 1 + 8 * i)%nat with (i * 8 + m)%nat by lia.
    rewrite Set1 by lia. cbn [default].
    apply butterfly_ext. intros n Hn.
    unfold rd at 1. rewrite SetE by lia. cbn [default].
    replace (n * 8 + m)%nat with (8 * n + m)%nat by lia. reflexivity.
  - intros p Hp. apply Keep2. intros; lia.
Qed.

(** Witness for C5: the block whose only non-zero slot is the DC slot, with
    the value 64 in its low half and stale bits in its high half. *)
Lemma idct_is_two_butterfly_passes_witness :
  idct (0x12340040 :: replicate 63 0) (replicate 256 0) !! 0%nat
  = Some (butterfly 18
            (fun m => butterfly 11
               (fun n => s16 (rd (0x12340040 :: replicate 63 0) (8 * n + m)))
               0) 0).
Proof.
  refine (proj1 (proj2 (idct_is_two_butterfly_passes
            (replicate 256 0) (replicate 256 0)
            (0x12340040 :: replicate 63 0) (replicate 256 0) _ _ _))
            0%nat 0%nat _ _).
  - vm_compute. lia.
  - vm_compute. lia.
  - vm_compute. lia.
  - lia.
  - lia.
Defined.


(** *** What the transform depends on, and the flat block *)

Lemma extend_loop_ext (n i : nat) (input input' pExtendedSource : list Z) :
  (forall j : nat, (i <= j < i + n)%nat ->
     u16 (rd input j) = u16 (rd input' j)) ->
  extend_loop n i input pExtendedSource
  = extend_loop n i input' pExtendedSource.
Proof.
  revert i pExtendedSource. induction n as [|n IH]; intros i ext H;
    cbn [extend_loop].
  - reflexivity.
  - rewrite <- (Unpack.s16_low16 (rd input i)), (H i) by lia.
    rewrite Unpack.s16_low16. apply IH. intros j Hj. apply H. lia.
Qed.

(** [idct] reads only the low 16 bits of each of the 64 slots of its input:
    two blocks that agree on them, whatever their high halves hold, give the
    same output. *)
Theorem idct_reads_low_halves (input input' pDestination : list Z) :
  (forall i : nat, (i < 64)%nat -> u16 (rd input i) = u16 (rd input' i)) ->
  idct input pDestination = idct input' pDestination.
Proof.
  intros H. unfold idct, idct_from. cbv zeta.
  rewrite (extend_loop_ext 64 0 input input') by (intros j Hj; apply H; lia).
  reflexivity.
Qed.

(** An instance: stale high halves in every slot. *)
Lemma idct_reads_low_halves_witness :
  idct (0x12340040 :: replicate 63 0xFFFF0000) (replicate 256 0)
  = idct (0x0040 :: replicate 63 0) (replicate 256 0).
Proof.
  apply idct_reads_low_halves. intros i Hi.
  do 64 (destruct i as [|i]; [reflexivity|]). lia.
Defined.

(** Entry [8 i + k] of the output, as the two passes compute it. *)
Lemma idct_entry (input pDestination : list Z) (i k : nat) :
  (64 <= length pDestination)%nat -> (i < 8)%nat -> (k < 8)%nat ->
  idct input pDestination !! (8 * i + k)%nat
  = Some (butterfly 18
            (fun m => butterfly 11
                        (fun n => s16 (rd input (8 * n + m))) i) k).
Proof.
  intros HD Hi Hk. unfold idct, idct_from, half_idct. cbv zeta.
  destruct (extend_loop_spec 64 0 input (replicate 256 0))
    as (LE & SetE & _); [rewrite length_replicate; lia|].
  set (ext := extend_loop 64 0 input (replicate 256 0)) in *.
  destruct (half_idct_loop_columns 11 8 0 ext (replicate 256 0) ltac:(lia))
    as (L1 & Set1 & _); [rewrite length_replicate; lia|].
  set (tmp := half_idct_loop 8 ext (replicate 256 0) 8 1 11 0 0) in *.
  destruct (half_idct_loop_rows 18 8 0 tmp pDestination ltac:(lia) HD)
    as (L2 & Set2 & Keep2).
  change (8 * 0)%nat with 0%nat in *.
  replace (8 * i + k)%nat with (k * 1 + 8 * i)%nat by lia.
  rewrite Set2 by lia. f_equal. apply butterfly_ext. intros m Hm.
  unfold rd at 1.
  replace (m * 1 + 8 * i)%nat with (i * 8 + m)%nat by lia.
  rewrite Set1 by lia. cbn [default].
  apply butterfly_ext. intros n Hn.
  unfold rd at 1. rewrite SetE by lia. cbn [default].
  replace (n * 8 + m)%nat with (8 * n + m)%nat by lia. reflexivity.
Qed.

Lemma butterfly_dc (shift d : Z) (s : nat -> Z) (k : nat) :
  s 0%nat = d -> (forall m : nat, (1 <= m < 8)%nat -> s m = 0) ->
  butterfly shift s k = asr32 (d * 8192) shift.
Proof.
  intros H0 Hz. unfold butterfly.
  rewrite H0, !Hz by lia. cbv zeta.
  do 7 (destruct k as [|k]; [f_equal; lia|]). f_equal; lia.
Qed.

(** A block whose AC slots all have a zero low half decodes to a flat block:
    every one of the 64 outputs is the DC value (the low half of slot 0, as
    a signed number) divided by 8, rounded down. *)
Theorem idct_dc_only (input pDestination : list Z) :
  (64 <= length pDestination)%nat ->
  (forall i : nat, (1 <= i < 64)%nat -> s16 (rd input i) = 0) ->
  forall p : nat, (p < 64)%nat ->
    idct input pDestination !! p = Some (s16 (rd input 0) / 8).
Proof.
  intros HD Hz p Hp.
  replace p with (8 * (p / 8) + p mod 8)%nat by (symmetry; apply Nat.div_mod; lia).
  assert (Hi : (p / 8 < 8)%nat) by (apply Nat.Div0.div_lt_upper_bound; lia).
  assert (Hk : (p mod 8 < 8)%nat) by (apply Nat.mod_upper_bound; lia).
  rewrite idct_entry by assumption. f_equal.
  set (d := s16 (rd input 0)).
  pose proof (s16_range (rd input 0)) as Hd. fold d in Hd.
  rewrite (butterfly_dc 18 (d * 4)).
  - unfold asr32. rewrite s32_id by lia. rewrite Z.shiftr_div_pow2 by lia.
    replace (d * 4 * 8192) with (d * 2 ^ 15) by lia.
    change (2 ^ 18) with (8 * 2 ^ 15).
    rewrite Z.div_mul_cancel_r by lia. reflexivity.
  - rewrite (butterfly_dc 11 d).
    + unfold asr32. rewrite s32_id by lia. rewrite Z.shiftr_div_pow2 by lia.
      replace (d * 8192) with (d * 4 * 2 ^ 11) by lia.
      apply Z.div_mul. lia.
    + reflexivity.
    + intros n Hn. apply Hz. lia.
  - intros m Hm. rewrite (butterfly_dc 11 0).
    + reflexivity.
    + apply Hz. lia.
    + intros n Hn. apply Hz. lia.
Qed.

(** An instance: DC value -16, stale high halves. *)
Lemma idct_dc_only_witness :
  idct (0x1234FFF0 :: replicate 63 0x00010000) (replicate 256 0) !! 37%nat
  = Some (-16 / 8).
Proof.
  refine (idct_dc_only (0x1234FFF0 :: replicate 63 0x00010000)
            (replicate 256 0) _ _ 37%nat _).
  - vm_compute. lia.
  - intros i Hi. destruct i as [|i]; [lia|].
    do 63 (destruct i as [|i]; [reflexivity|]). lia.
  - lia.
Defined.

End Idct.

(** ** Video bitstream decoder: [decode_bitstream]

    The lookup tables [gTbl1] and [gTbl2] live in [masher_tables.hpp]; the
    decoder is stated over arbitrary tables.  The nested
    [while (1)] / [do ... while] loops are flattened into program points: the
    top of the innermost loop ([PLookup]), the test that follows the load of
    output field [k] of the current [gTbl2] entry into [rawWord4]
    ([PField k]), and the 11-bit read that follows the emission of
    [MDEC_END] from field [k] ([PEob k]).  A shift is [Z.shiftl] followed by
    the conversion to the destination type.  Reading a word past the end of
    the frame is a fault. *)

Module Tbl1.
Record entry := mk { mBitsToShift : Z; mOutputWord : Z }.
End Tbl1.

Module Tbl2.
Record entry := mk {
  mBitsToShift : Z; mOutputWord1 : Z; mOutputWord2 : Z; mOutputWord3 : Z
}.
End Tbl2.

Module Vlc.

Definition MASK_11_BITS : Z := 0x7FF.
Definition MASK_10_BITS : Z := 0x3FF.
Definition MDEC_END : Z := 0xFE00.

Definition ExtractBits (value numBits : Z) : Z := Z.shiftr value (32 - numBits).

Inductive field := F1 | F2 | F3.

Inductive point := PLookup | PField (k : field) | PEob (k : field).

Record state := mkState {
  workBits : Z;
  rawWord4 : Z;
  usedBitCount : Z;
  rawBitStreamPtr : nat;
  pOutput : list Z;
  table_index_2 : Z;
  pc : point
}.

Inductive outcome :=
  | Running (s : state)
  | Finished (ret : Z) (output : list Z)
  | Fault.

(** [SkipBits(workBits, numBits, usedBitCount)] *)
Definition SkipBits (numBits : Z) (s : state) : state :=
  mkState (u32 (Z.shiftl (workBits s) numBits)) (rawWord4 s)
          (s8 (usedBitCount s + numBits)) (rawBitStreamPtr s) (pOutput s)
          (table_index_2 s) (pc s).

(** [*pOutput++ = static_cast<unsigned short>(w)] *)
Definition emit (w : Z) (s : state) : state :=
  mkState (workBits s) (rawWord4 s) (usedBitCount s) (rawBitStreamPtr s)
          (pOutput s ++ [u16 w]) (table_index_2 s) (pc s).

Definition set_rawWord4 (v : Z) (s : state) : state :=
  mkState (workBits s) v (usedBitCount s) (rawBitStreamPtr s) (pOutput s)
          (table_index_2 s) (pc s).

Definition set_table_index_2 (v : Z) (s : state) : state :=
  mkState (workBits s) (rawWord4 s) (usedBitCount s) (rawBitStreamPtr s)
          (pOutput s) v (pc s).

Definition goto (p : point) (s : state) : state :=
  mkState (workBits s) (rawWord4 s) (usedBitCount s) (rawBitStreamPtr s)
          (pOutput s) (table_index_2 s) p.

Section Decoder.

Variable gTbl1 : Z -> Tbl1.entry.
Variable gTbl2 : Z -> Tbl2.entry.
Variable pFrameData : list Z.

(** [GetBits]: refill when bit 4 of [usedBitCount] is set. *)
Definition GetBits (s : state) : option state :=
  if Z.land (usedBitCount s) 16 =? 0 then Some s
  else
    let used := Z.land (usedBitCount s) 15 in
    w ← pFrameData !! rawBitStreamPtr s;
    let raw := u32 (Z.shiftl w used) in
    Some (mkState (Z.lor (workBits s) raw) raw used (S (rawBitStreamPtr s))
                  (pOutput s) (table_index_2 s) (pc s)).

Definition OutputWordAndAdvance (s : state) : option state :=
  let out := pOutput s ++ [u16 (Z.shiftr (workBits s) (32 - 16))] in
  w ← pFrameData !! rawBitStreamPtr s;
  let raw := u32 (Z.shiftl w (usedBitCount s)) in
  Some (mkState (u32 (Z.lor raw (Z.shiftl (workBits s) 16))) raw
                (usedBitCount s) (S (rawBitStreamPtr s)) out
                (table_index_2 s) (pc s)).

(** The output field [k] of the current [gTbl2] entry. *)
Definition field_word (k : field) (s : state) : Z :=
  let e := gTbl2 (table_index_2 s) in
  match k with
  | F1 => Tbl2.mOutputWord1 e
  | F2 => Tbl2.mOutputWord2 e
  | F3 => Tbl2.mOutputWord3 e
  end.

(** [SetLoWord(rawWord4, gTbl2[table_index_2].mOutputWord<k>)], then on to
    the test of that field. *)
Definition load_field (k : field) (s : state) : state :=
  goto (PField k) (set_rawWord4 (SetLoWord (rawWord4 s) (field_word k s)) s).

(** What follows the emission of a field that is not the end of a block. *)
Definition after_field (k : field) (s : state) : state :=
  match k with
  | F1 => load_field F2 s
  | F2 => load_field F3 s
  | F3 => goto PLookup s
  end.

Definition lift (o : option state) : outcome :=
  match o with Some s => Running s | None => Fault end.

Definition step (ret : Z) (s : state) : outcome :=
  match pc s with
  | PLookup =>
      let s := set_table_index_2 (ExtractBits (workBits s) 13) s in
      if 32 <=? table_index_2 s then
        let tblValueBits := s8 (Tbl2.mBitsToShift (gTbl2 (table_index_2 s))) in
        lift (s ← GetBits (SkipBits tblValueBits s);
              Some (load_field F1 s))
      else
        let table_index_1 := ExtractBits (workBits s) 17 in
        lift (s ← GetBits (SkipBits 8 s);
              let bitsToShiftFromTbl :=
                s8 (Tbl1.mBitsToShift (gTbl1 table_index_1)) in
              s ← GetBits (SkipBits bitsToShiftFromTbl s);
              Some (emit (Tbl1.mOutputWord (gTbl1 table_index_1)) s))
  | PField k =>
      let zero_loops := match k with F1 => false | _ => true end in
      if zero_loops && (u16 (rawWord4 s) =? 0) then Running (goto PLookup s)
      else if u16 (rawWord4 s) =? 0x7C1F then
        lift (s ← OutputWordAndAdvance s; Some (goto PLookup s))
      else
        let s := emit (rawWord4 s) s in
        if u16 (rawWord4 s) =? MDEC_END then Running (goto (PEob k) s)
        else Running (after_field k s)
  | PEob k =>
      let v15 := ExtractBits (workBits s) 11 in
      let s := SkipBits 11 s in
      if v15 =? MASK_10_BITS then Finished ret (pOutput s)
      else
        let s := set_rawWord4
                   (match k with
                    | F3 => v15
                    | _ => Z.land v15 MASK_11_BITS
                    end) s in
        let s := emit (rawWord4 s) s in
        lift (s ← GetBits s; Some (after_field k s))
  end.

Fixpoint run (fuel : nat) (ret : Z) (s : state) : option (Z * list Z) :=
  match fuel with
  | O => None
  | S fuel' =>
      match step ret s with
      | Running s' => run fuel' ret s'
      | Finished r out => Some (r, out)
      | Fault => None
      end
  end.

(** The statements before the loops: capture [ret], build the work register
    from words 1 and 2, emit the first 11-bit field. *)
Definition init : option (Z * state) :=
  ret ← pFrameData !! 0%nat;
  w1 ← pFrameData !! 1%nat;
  w2 ← pFrameData !! 2%nat;
  let workBits := u32 (Z.lor (Z.shiftl w2 16) w1) in
  let workBits := u32 (Z.lor (Z.shiftl workBits 16) (Z.shiftr workBits 16)) in
  let rawWord4 := ExtractBits workBits 11 in
  let s := mkState workBits rawWord4 0 3 [] 0 PLookup in
  let s := SkipBits 11 s in
  Some (ret, emit rawWord4 s).

Definition decode_bitstream (fuel : nat) : option (Z * list Z) :=
  '(ret, s) ← init; run fuel ret s.

(** The states the decoder passes through. *)
Fixpoint steps (n : nat) (ret : Z) (s : state) : outcome :=
  match n with
  | O => Running s
  | S n' =>
      match step ret s with
      | Running s' => steps n' ret s'
      | o => o
      end
  end.

(** *** Properties of the state machine *)

(** The [MDEC_END] invariant: the decoder stands at an end-of-block read only
    right after it has emitted [MDEC_END]. *)
Definition eob_inv (s : state) : Prop :=
  forall k, pc s = PEob k -> last (pOutput s) = Some MDEC_END.

(** The work register is a 32-bit value. *)
Definition work_inv (s : state) : Prop := 0 <= workBits s < 2 ^ 32.

Lemma u32_lor (a b : Z) : Z.lor (u32 a) (u32 b) = u32 (Z.lor a b).
Proof.
  unfold u32. rewrite <- !Z.land_ones by lia.
  symmetry. apply Z.land_lor_distr_l.
Qed.

Lemma u32_bound (a : Z) : 0 <= u32 a < 2 ^ 32.
Proof. unfold u32. apply Z.mod_pos_bound. lia. Qed.

Lemma u32_idem (a : Z) : 0 <= a < 2 ^ 32 -> u32 a = a.
Proof. intros H. unfold u32. apply Z.mod_small. exact H. Qed.


Lemma GetBits_inv (s s' : state) :
  GetBits s = Some s' ->
  pc s' = pc s /\ pOutput s' = pOutput s /\
  table_index_2 s' = table_index_2 s /\
  (work_inv s -> work_inv s').
Proof.
  unfold GetBits. destruct (_ =? 0).
  - intros [= <-]. auto.
  - destruct (pFrameData !! rawBitStreamPtr s) as [w|]; [|discriminate].
    cbn [mbind option_bind]. intros [= <-].
    refine (conj eq_refl (conj eq_refl (conj eq_refl _))).
    unfold work_inv. cbn [workBits]. intros Hw.
    rewrite <- (u32_idem (workBits s) Hw), u32_lor. apply u32_bound.
Qed.


(** [work_inv] through the state updates. *)
Ltac work_tac :=
  unfold work_inv in *;
  repeat match goal with
         | |- context [after_field ?k _] => is_var k; destruct k
         end;
  cbn [workBits emit goto load_field set_rawWord4 set_table_index_2 SkipBits
       after_field] in *;
  first [ assumption
        | match goal with |- 0 <= u32 _ < _ => apply u32_bound end ].

Lemma after_field_pc (k : field) (s : state) :
  pc (after_field k s)
  = match k with F1 => PField F2 | F2 => PField F3 | F3 => PLookup end.
Proof. destruct k; reflexivity. Qed.


(** Every state produced by a step satisfies both invariants. *)
Lemma step_inv (ret : Z) (s s' : state) :
  step ret s = Running s' ->
  eob_inv s' /\ (work_inv s -> work_inv s').
Proof.
  unfold step, eob_inv. destruct (pc s) as [|k|k] eqn:Hpc.
  - (* PLookup *)
    destruct (32 <=? _).
    + destruct (GetBits _) as [s1|] eqn:E; cbn [mbind option_bind lift];
        [|discriminate]. intros [= <-].
      destruct (GetBits_inv _ _ E) as (_ & _ & _ & Hw). split.
      * intros k Hk. cbn in Hk. discriminate Hk.
      * intros _. assert (work_inv s1) by (apply Hw; work_tac). work_tac.
    + destruct (GetBits _) as [s1|] eqn:E; cbn [mbind option_bind lift];
        [|discriminate].
      destruct (GetBits (SkipBits _ s1)) as [s2|] eqn:E2;
        cbn [mbind option_bind lift]; [|discriminate]. intros [= <-].
      destruct (GetBits_inv _ _ E) as (P1 & _ & _ & _).
      destruct (GetBits_inv _ _ E2) as (P2 & _ & _ & Hw). split.
      * intros k Hk. cbn in Hk. rewrite P2 in Hk. cbn in Hk.
        rewrite P1 in Hk. cbn in Hk. rewrite Hpc in Hk. discriminate Hk.
      * intros _. assert (work_inv s2) by (apply Hw; work_tac). work_tac.
  - (* PField k *)
    destruct (_ && _).
    { intros [= <-]. split; [intros k' Hk; cbn in Hk; discriminate Hk|intros; work_tac]. }
    destruct (u16 (rawWord4 s) =? 31775).
    + unfold OutputWordAndAdvance.
      destruct (pFrameData !! rawBitStreamPtr s) as [w|];
        cbn [mbind option_bind lift]; [|discriminate]. intros [= <-]. split.
      * intros k' Hk. cbn in Hk. discriminate Hk.
      * intros _. unfold work_inv. cbn. apply u32_bound.
    + cbn [emit rawWord4].
      destruct (u16 (rawWord4 s) =? MDEC_END) eqn:Hend; intros [= <-].
      * split.
        -- intros k' _. cbn. rewrite last_snoc.
           apply Z.eqb_eq in Hend. rewrite Hend. reflexivity.
        -- intros Hw. work_tac.
      * split.
        -- intros k'. rewrite after_field_pc. destruct k; intros Hk; discriminate Hk.
        -- intros Hw. work_tac.
  - (* PEob k *)
    destruct (_ =? MASK_10_BITS); [discriminate|].
    destruct (GetBits _) as [s1|] eqn:E; cbn [mbind option_bind lift];
      [|discriminate]. intros [= <-].
    destruct (GetBits_inv _ _ E) as (_ & _ & _ & Hw). split.
    + intros k'. rewrite after_field_pc. destruct k; intros Hk; discriminate Hk.
    + intros _. assert (work_inv s1) by (apply Hw; work_tac). work_tac.
Qed.

Lemma steps_inv (ret : Z) (n : nat) (s s' : state) :
  steps n ret s = Running s' ->
  eob_inv s -> work_inv s -> eob_inv s' /\ work_inv s'.
Proof.
  revert s. induction n as [|n IH]; intros s H He Hw; cbn [steps] in H.
  - injection H as <-. auto.
  - destruct (step ret s) as [s1| |] eqn:E; try discriminate.
    destruct (step_inv _ _ _ E) as [He1 Hw1]. eauto.
Qed.

Lemma init_inv (ret : Z) (s0 : state) :
  init = Some (ret, s0) ->
  pFrameData !! 0%nat = Some ret /\ eob_inv s0 /\ work_inv s0.
Proof.
  unfold init.
  destruct (pFrameData !! 0%nat) as [r|]; [|discriminate].
  destruct (pFrameData !! 1%nat) as [w1|]; [|discriminate].
  destruct (pFrameData !! 2%nat) as [w2|]; [|discriminate].
  cbn [mbind option_bind]. intros [= <- <-]. split; [reflexivity|]. split.
  - intros k. cbn. discriminate.
  - unfold work_inv. cbn. apply u32_bound.
Qed.

(** A step returns exactly at an end-of-block read whose 11-bit field is
    [0x3FF]; it then returns [ret] and the words emitted so far. *)
Lemma step_finished_iff (ret : Z) (s : state) (r : Z) (out : list Z) :
  step ret s = Finished r out <->
  (exists k, pc s = PEob k) /\
  ExtractBits (workBits s) 11 = MASK_10_BITS /\ r = ret /\ out = pOutput s.
Proof.
  unfold step. destruct (pc s) as [|k|k] eqn:Hpc.
  - split; [|intros ([k Hk] & _); discriminate].
    destruct (32 <=? _); destruct (GetBits _); cbn [mbind option_bind lift];
      try discriminate.
    destruct (GetBits _); cbn [mbind option_bind lift]; discriminate.
  - split; [|intros ([k' Hk] & _); discriminate].
    destruct (_ && _); [discriminate|].
    destruct (_ =? 31775).
    + destruct (OutputWordAndAdvance s); cbn [mbind option_bind lift];
        discriminate.
    + destruct (_ =? MDEC_END); discriminate.
  - destruct (Z.eqb_spec (ExtractBits (workBits s) 11) MASK_10_BITS) as [He|Hne].
    + split.
      * intros [= <- <-]. split; [eauto|]. auto.
      * intros (_ & _ & -> & ->). reflexivity.
    + split; [|intros (_ & He & _); contradiction].
      destruct (GetBits _); cbn [mbind option_bind lift]; discriminate.
Qed.

Lemma run_finished (fuel : nat) (ret : Z) (s : state) (r : Z) (out : list Z) :
  run fuel ret s = Some (r, out) ->
  exists n s', (n < fuel)%nat /\ steps n ret s = Running s' /\
               step ret s' = Finished r out.
Proof.
  revert s. induction fuel as [|fuel IH]; intros s H; cbn [run] in H.
  - discriminate.
  - destruct (step ret s) as [s1|r1 out1|] eqn:E; try discriminate.
    + destruct (IH _ H) as (n & s' & Hn & Hs & Hf).
      exists (S n), s'. split; [lia|]. cbn [steps]. rewrite E. auto.
    + injection H as <- <-. exists 0%nat, s. split; [lia|]. auto.
Qed.


Lemma window_is_16_bits (s : state) :
  work_inv s -> u16 (Z.shiftr (workBits s) (32 - 16)) = Z.shiftr (workBits s) 16.
Proof.
  unfold work_inv. intros Hw. change (32 - 16) with 16.
  apply u16_id. rewrite Z.shiftr_div_pow2 by lia.
  change (2 ^ 32) with (65536 * 2 ^ 16) in Hw. split.
  - apply Z.div_pos; lia.
  - apply Z.div_lt_upper_bound; lia.
Qed.



(** When the low 16 bits of [rawWord4], just loaded from field [k] of a
    [gTbl2] entry, are [0x7C1F] and a word [w] is left in the frame, the
    decoder emits the top 16 bits of the work register instead, refills the
    register with [w] (shifted by [usedBitCount]) under the register shifted
    left by 16, advances the stream pointer, and goes back to the table
    lookup at the top of the innermost loop: the lookup that follows does
    not depend on the entry the escape came from. *)
Theorem escape_emits_work_window (ret : Z) (s0 : state) :
  init = Some (ret, s0) ->
  forall n s k w,
    steps n ret s0 = Running s ->
    pc s = PField k ->
    u16 (rawWord4 s) = 0x7C1F ->
    pFrameData !! rawBitStreamPtr s = Some w ->
    exists s',
      step ret s = Running s' /\
      pOutput s' = pOutput s ++ [Z.shiftr (workBits s) 16] /\
      workBits s'
        = u32 (Z.lor (u32 (Z.shiftl w (usedBitCount s)))
                     (Z.shiftl (workBits s) 16)) /\
      rawBitStreamPtr s' = S (rawBitStreamPtr s) /\
      pc s' = PLookup /\
      (forall t, step ret (set_table_index_2 t s') = step ret s').
Proof.
  intros Hinit n s k w Hs Hk Hesc Hw.
  destruct (init_inv _ _ Hinit) as (_ & He0 & Hw0).
  destruct (steps_inv _ _ _ _ Hs He0 Hw0) as [_ Hwork].
  unfold step at 1. rewrite Hk.
  assert (Hz : (u16 (rawWord4 s) =? 0) = false)
    by (rewrite Hesc; reflexivity).
  rewrite Hz, andb_false_r, Hesc, Z.eqb_refl.
  unfold OutputWordAndAdvance. rewrite Hw. cbn [mbind option_bind lift].
  eexists. split; [reflexivity|].
  cbn [goto pOutput workBits rawBitStreamPtr pc].
  rewrite (window_is_16_bits s Hwork).
  repeat (split; [reflexivity|]). intros t. reflexivity.
Qed.


(** *** The work register mirrors the bit stream *)

Lemma lor_disjoint (A b k : Z) :
  0 <= k -> 0 <= b < 2 ^ k -> Z.lor (A * 2 ^ k) b = A * 2 ^ k + b.
Proof.
  intros Hk Hb.
  assert (H : Z.land (A * 2 ^ k) b = 0).
  { apply Z.bits_inj'. intros n Hn. rewrite Z.land_spec, Z.bits_0.
    destruct (Z_lt_le_dec n k) as [Hlt|Hge].
    - rewrite Z.mul_pow2_bits_low by lia. reflexivity.
    - rewrite <- (Z.mod_small b (2 ^ k)) by lia.
      rewrite Z.mod_pow2_bits_high by lia. apply andb_false_r. }
  rewrite <- Z.lxor_lor by exact H. symmetry. apply Z.add_nocarry_lxor, H.
Qed.

Lemma mod_shift_in (X P w : Z) :
  0 < P -> 0 <= w < 65536 ->
  (X * 65536 + w) mod (P * 65536) = (X mod P) * 65536 + w.
Proof.
  intros HP Hw. symmetry. apply (Z.mod_unique _ _ (X / P)).
  - left. pose proof (Z.mod_pos_bound X P HP). nia.
  - rewrite (Z.div_mod X P) at 1 by lia. ring.
Qed.

Lemma pow2_pos (k : Z) : 0 <= k -> 0 < 2 ^ k.
Proof. intros. apply Z.pow_pos_nonneg; lia. Qed.

Lemma skip_arith (X u n : Z) :
  0 <= u -> 0 <= n -> u + n <= 32 ->
  u32 (Z.shiftl ((X mod 2 ^ (32 - u)) * 2 ^ u) n)
  = (X mod 2 ^ (32 - (u + n))) * 2 ^ (u + n).
Proof.
  intros Hu Hn Hun. rewrite Z.shiftl_mul_pow2 by lia. unfold u32.
  rewrite <- Z.mul_assoc, <- Z.pow_add_r by lia.
  replace 32 with ((32 - (u + n)) + (u + n)) at 2 by lia.
  rewrite (Z.pow_add_r 2 (32 - (u + n)) (u + n)) by lia.
  pose proof (pow2_pos (u + n) ltac:(lia)).
  pose proof (pow2_pos (32 - (u + n)) ltac:(lia)).
  rewrite Z.mul_mod_distr_r by lia. f_equal.
  apply Z.mod_mod_divide. exists (2 ^ n).
  rewrite <- Z.pow_add_r by lia. f_equal. lia.
Qed.

Lemma refill_arith (X u w : Z) :
  16 <= u <= 31 -> 0 <= w < 65536 ->
  Z.lor ((X mod 2 ^ (32 - u)) * 2 ^ u) (u32 (Z.shiftl w (u - 16)))
  = ((X * 65536 + w) mod 2 ^ (32 - (u - 16))) * 2 ^ (u - 16).
Proof.
  intros Hu Hw. rewrite Z.shiftl_mul_pow2 by lia.
  pose proof (pow2_pos (u - 16) ltac:(lia)) as Hp.
  assert (Hle : 2 ^ (u - 16) <= 2 ^ 15) by (apply Z.pow_le_mono_r; lia).
  change (2 ^ 15) with 32768 in Hle.
  assert (Hu16 : 2 ^ u = 65536 * 2 ^ (u - 16)).
  { replace u with (16 + (u - 16)) at 1 by lia.
    rewrite Z.pow_add_r by lia. reflexivity. }
  rewrite u32_id by nia.
  rewrite lor_disjoint by (try lia; rewrite Hu16; nia).
  replace (32 - (u - 16)) with ((32 - u) + 16) by lia.
  rewrite Z.pow_add_r by lia. change (2 ^ 16) with 65536.
  rewrite mod_shift_in by (try apply pow2_pos; lia).
  rewrite Hu16. ring.
Qed.

Lemma advance_arith (X u w : Z) :
  0 <= u <= 15 -> 0 <= w < 65536 ->
  u32 (Z.lor (u32 (Z.shiftl w u))
             (Z.shiftl ((X mod 2 ^ (32 - u)) * 2 ^ u) 16))
  = ((X * 65536 + w) mod 2 ^ (32 - u)) * 2 ^ u.
Proof.
  intros Hu Hw. rewrite !Z.shiftl_mul_pow2 by lia.
  pose proof (pow2_pos u ltac:(lia)) as Hp.
  pose proof (pow2_pos (32 - u) ltac:(lia)) as Hq.
  assert (Hle : 2 ^ u <= 2 ^ 15) by (apply Z.pow_le_mono_r; lia).
  change (2 ^ 15) with 32768 in Hle. change (2 ^ 16) with 65536.
  rewrite (u32_id (w * 2 ^ u)) by nia. rewrite Z.lor_comm.
  replace (X mod 2 ^ (32 - u) * 2 ^ u * 65536)
    with ((X mod 2 ^ (32 - u)) * 2 ^ (u + 16))
    by (rewrite Z.pow_add_r by lia; change (2 ^ 16) with 65536; ring).
  rewrite lor_disjoint
    by (try lia; rewrite Z.pow_add_r by lia; change (2 ^ 16) with 65536; nia).
  rewrite Z.pow_add_r by lia. change (2 ^ 16) with 65536.
  replace (X mod 2 ^ (32 - u) * (2 ^ u * 65536) + w * 2 ^ u)
    with ((X mod 2 ^ (32 - u) * 65536 + w) * 2 ^ u) by ring.
  unfold u32. replace 32 with ((32 - u) + u) at 2 by lia.
  rewrite (Z.pow_add_r 2 (32 - u) u) by lia.
  rewrite Z.mul_mod_distr_r by lia. f_equal.
  rewrite Z.add_mod, Z.mul_mod_idemp_l, <- Z.add_mod by lia. reflexivity.
Qed.

Lemma window_arith (X u b : Z) :
  0 <= u -> 0 <= b -> u + b <= 32 ->
  Z.shiftr ((X mod 2 ^ (32 - u)) * 2 ^ u) (32 - b)
  = (X / 2 ^ (32 - u - b)) mod 2 ^ b.
Proof.
  intros Hu Hb Hub. rewrite Z.shiftr_div_pow2 by lia.
  pose proof (pow2_pos u ltac:(lia)) as Hp.
  pose proof (pow2_pos b ltac:(lia)) as Hq.
  pose proof (pow2_pos (32 - u - b) ltac:(lia)) as Hr.
  remember (32 - u - b) as m eqn:Hm.
  replace (32 - b) with (m + u) by lia.
  replace (32 - u) with (m + b) by lia.
  rewrite !Z.pow_add_r by lia.
  rewrite Z.div_mul_cancel_r by lia.
  rewrite Z.rem_mul_r by lia.
  rewrite (Z.mul_comm (2 ^ m) (_ mod _)), Z.div_add by lia.
  rewrite Z.div_small by (apply Z.mod_pos_bound; lia). reflexivity.
Qed.

Lemma used_bits_check :
  forallb (fun u => Bool.eqb (Z.land u 16 =? 0) (u <? 16)
                    && (if u <? 16 then true else Z.land u 15 =? u - 16))
          (zrange 0 32) = true.
Proof. vm_compute. reflexivity. Qed.


(** The first [k] words that follow the scale word, as one big-endian
    number: the bit stream read so far when [k] words have been loaded. *)
Definition stream_value (k : nat) : Z :=
  fold_left (fun acc w => acc * 65536 + w) (take k (drop 1 pFrameData)) 0.

(** The shift counts of both tables are between 0 and 16. *)
Definition shifts_ok : Prop :=
  (forall i, 0 <= Tbl1.mBitsToShift (gTbl1 i) <= 16) /\
  (forall i, 0 <= Tbl2.mBitsToShift (gTbl2 i) <= 16).

(** The frame is made of 16-bit words. *)
Definition frame_ok : Prop := Forall (fun w => 0 <= w < 65536) pFrameData.

(** With [usedBitCount] at most [hi]: the work register holds the stream
    bits not consumed yet, of the words loaded so far, above [usedBitCount]
    zero bits. *)
Definition reader_inv (hi : Z) (s : state) : Prop :=
  0 <= usedBitCount s <= hi /\ (1 <= rawBitStreamPtr s)%nat /\
  workBits s
  = (stream_value (rawBitStreamPtr s - 1) mod 2 ^ (32 - usedBitCount s))
    * 2 ^ usedBitCount s.

Lemma stream_value_next (p : nat) (w : Z) :
  (1 <= p)%nat -> pFrameData !! p = Some w ->
  stream_value (S p - 1) = stream_value (p - 1) * 65536 + w.
Proof.
  intros Hp Hw. unfold stream_value.
  replace (S p - 1)%nat with (S (p - 1)) by lia.
  rewrite (take_S_r _ _ w), fold_left_app; [reflexivity|].
  rewrite lookup_drop. replace (1 + (p - 1))%nat with p by lia. exact Hw.
Qed.

Lemma frame_word_range (p : nat) (w : Z) :
  frame_ok -> pFrameData !! p = Some w -> 0 <= w < 65536.
Proof.
  intros Hf Hw. unfold frame_ok in Hf. rewrite Forall_lookup in Hf.
  exact (Hf p w Hw).
Qed.

Lemma s8_small (z : Z) : -128 <= z < 128 -> s8 z = z.
Proof.
  intros H. unfold s8. change (2 ^ 8) with 256. change (2 ^ 7) with 128.
  rewrite Z.mod_small; lia.
Qed.

Lemma reader_inv_same (hi : Z) (s s' : state) :
  workBits s' = workBits s -> usedBitCount s' = usedBitCount s ->
  rawBitStreamPtr s' = rawBitStreamPtr s ->
  reader_inv hi s -> reader_inv hi s'.
Proof. unfold reader_inv. intros -> -> ->. auto. Qed.

Lemma SkipBits_reader (hi n : Z) (s : state) :
  reader_inv hi s -> 0 <= n -> hi + n <= 31 ->
  reader_inv (hi + n) (SkipBits n s).
Proof.
  intros (Hu & Hp & Hw) Hn Hhi. unfold reader_inv.
  cbn [SkipBits usedBitCount rawBitStreamPtr workBits].
  rewrite s8_small by lia. split; [lia|]. split; [exact Hp|].
  rewrite Hw. apply skip_arith; lia.
Qed.

Lemma SkipBits_reader_31 (n : Z) (s : state) :
  reader_inv 15 s -> 0 <= n <= 16 -> reader_inv 31 (SkipBits n s).
Proof.
  intros Hinv Hn.
  destruct (SkipBits_reader 15 n s Hinv ltac:(lia) ltac:(lia)) as (A & B & C).
  split; [lia|]. split; assumption.
Qed.

Lemma GetBits_reader (s s' : state) :
  frame_ok -> reader_inv 31 s -> GetBits s = Some s' -> reader_inv 15 s'.
Proof.
  intros Hf (Hu & Hp & Hw). unfold GetBits.
  pose proof (forall_zrange _ 0 32 used_bits_check (usedBitCount s)
                ltac:(lia)) as Hc.
  apply andb_true_iff in Hc. destruct Hc as [Hc1 Hc2].
  apply Bool.eqb_prop in Hc1. rewrite Hc1.
  destruct (Z.ltb_spec (usedBitCount s) 16) as [Hlt|Hge].
  - intros [= <-]. unfold reader_inv. split; [lia|]. split; assumption.
  - apply Z.eqb_eq in Hc2. rewrite Hc2.
    destruct (pFrameData !! rawBitStreamPtr s) as [w|] eqn:E; [|discriminate].
    cbn [mbind option_bind]. intros [= <-]. unfold reader_inv.
    cbn [usedBitCount rawBitStreamPtr workBits].
    split; [lia|]. split; [lia|].
    rewrite (stream_value_next _ w Hp E), Hw.
    apply refill_arith; [lia|]. eapply frame_word_range; eassumption.
Qed.

Lemma OutputWordAndAdvance_reader (s s' : state) :
  frame_ok -> reader_inv 15 s -> OutputWordAndAdvance s = Some s' ->
  reader_inv 15 s'.
Proof.
  intros Hf (Hu & Hp & Hw). unfold OutputWordAndAdvance.
  destruct (pFrameData !! rawBitStreamPtr s) as [w|] eqn:E; [|discriminate].
  cbn [mbind option_bind]. intros [= <-]. unfold reader_inv.
  cbn [usedBitCount rawBitStreamPtr workBits].
  split; [lia|]. split; [lia|].
  rewrite (stream_value_next _ w Hp E), Hw.
  apply advance_arith; [lia|]. eapply frame_word_range; eassumption.
Qed.

Lemma after_field_reader (hi : Z) (k : field) (s : state) :
  reader_inv hi s -> reader_inv hi (after_field k s).
Proof. apply reader_inv_same; destruct k; reflexivity. Qed.

(** A step keeps the reader invariant. *)
Lemma step_reader (ret : Z) (s s' : state) :
  shifts_ok -> frame_ok -> reader_inv 15 s ->
  step ret s = Running s' -> reader_inv 15 s'.
Proof.
  intros [Hs1 Hs2] Hf Hinv. unfold step.
  destruct (pc s) as [|k|k] eqn:Hpc.
  - (* PLookup *)
    set (s1 := set_table_index_2 _ s).
    assert (Hinv1 : reader_inv 15 s1)
      by (revert Hinv; apply reader_inv_same; reflexivity).
    destruct (32 <=? _).
    + destruct (GetBits _) as [s2|] eqn:E; cbn [mbind option_bind lift];
        [|discriminate]. intros [= <-].
      apply GetBits_reader in E; [|exact Hf|].
      * revert E. apply reader_inv_same; reflexivity.
      * specialize (Hs2 (table_index_2 s1)).
        rewrite s8_small by lia. apply SkipBits_reader_31; assumption.
    + destruct (GetBits _) as [s2|] eqn:E; cbn [mbind option_bind lift];
        [|discriminate].
      destruct (GetBits (SkipBits _ s2)) as [s3|] eqn:E2;
        cbn [mbind option_bind lift]; [|discriminate]. intros [= <-].
      apply GetBits_reader in E; [|exact Hf|].
      2:{ apply SkipBits_reader_31; [exact Hinv1|lia]. }
      apply GetBits_reader in E2; [|exact Hf|].
      * revert E2. apply reader_inv_same; reflexivity.
      * specialize (Hs1 (ExtractBits (workBits s1) 17)).
        rewrite s8_small by lia. apply SkipBits_reader_31; assumption.
  - (* PField k *)
    destruct (_ && _).
    { intros [= <-]. revert Hinv. apply reader_inv_same; reflexivity. }
    destruct (u16 (rawWord4 s) =? 31775).
    + destruct (OutputWordAndAdvance s) as [s1|] eqn:E;
        cbn [mbind option_bind lift]; [|discriminate]. intros [= <-].
      apply OutputWordAndAdvance_reader in E; [|assumption..].
      revert E. apply reader_inv_same; reflexivity.
    + destruct (u16 (rawWord4 (emit (rawWord4 s) s)) =? MDEC_END);
        intros [= <-].
      * revert Hinv. apply reader_inv_same; reflexivity.
      * apply after_field_reader. revert Hinv.
        apply reader_inv_same; reflexivity.
  - (* PEob k *)
    destruct (_ =? MASK_10_BITS); [discriminate|].
    destruct (GetBits _) as [s1|] eqn:E; cbn [mbind option_bind lift];
      [|discriminate]. intros [= <-].
    apply after_field_reader.
    apply GetBits_reader in E; [exact E|exact Hf|].
    pose proof (SkipBits_reader_31 11 s Hinv ltac:(lia)) as Hsk.
    revert Hsk. apply reader_inv_same; reflexivity.
Qed.

Lemma steps_reader (ret : Z) (n : nat) (s s' : state) :
  shifts_ok -> frame_ok -> reader_inv 15 s ->
  steps n ret s = Running s' -> reader_inv 15 s'.
Proof.
  intros Hs Hf. revert s. induction n as [|n IH]; intros s Hinv H;
    cbn [steps] in H.
  - injection H as <-. exact Hinv.
  - destruct (step ret s) as [s1| |] eqn:E; try discriminate.
    apply (IH s1); [|exact H]. eapply step_reader; eassumption.
Qed.

Lemma init_reader (ret : Z) (s0 : state) :
  frame_ok -> init = Some (ret, s0) -> reader_inv 15 s0.
Proof.
  intros Hf. unfold init.
  destruct (pFrameData !! 0%nat) as [r|]; [|discriminate].
  destruct (pFrameData !! 1%nat) as [w1|] eqn:E1; [|discriminate].
  destruct (pFrameData !! 2%nat) as [w2|] eqn:E2; [|discriminate].
  cbn [mbind option_bind]. intros [= <- <-].
  pose proof (frame_word_range _ _ Hf E1) as H1.
  pose proof (frame_word_range _ _ Hf E2) as H2.
  set (wb := u32 (Z.lor (Z.shiftl w2 16) w1)).
  set (work := u32 (Z.lor (Z.shiftl wb 16) (Z.shiftr wb 16))).
  assert (Hwb : wb = w2 * 65536 + w1).
  { subst wb. rewrite Z.shiftl_mul_pow2 by lia.
    rewrite lor_disjoint by (change (2 ^ 16) with 65536; lia).
    change (2 ^ 16) with 65536. apply u32_id. lia. }
  assert (Hwork : work = w1 * 65536 + w2).
  { subst work. rewrite Z.shiftl_mul_pow2, Z.shiftr_div_pow2 by lia.
    assert (Hd : wb / 2 ^ 16 = w2).
    { rewrite Hwb. change (2 ^ 16) with 65536.
      rewrite Z.add_comm, Z.div_add by lia. rewrite Z.div_small by lia. lia. }
    rewrite Hd, lor_disjoint by (change (2 ^ 16) with 65536; lia).
    rewrite Hwb. change (2 ^ 16) with 65536. unfold u32.
    change (2 ^ 32) with 4294967296.
    replace ((w2 * 65536 + w1) * 65536 + w2)
      with (w1 * 65536 + w2 + w2 * 4294967296) by lia.
    rewrite Z.mod_add by lia. apply Z.mod_small. lia. }
  assert (H0 : reader_inv 0 (mkState work (ExtractBits work 11) 0 3 [] 0 PLookup)).
  { unfold reader_inv. cbn [usedBitCount rawBitStreamPtr workBits].
    split; [lia|]. split; [lia|].
    assert (Hsv : stream_value (3 - 1) = w1 * 65536 + w2).
    { change (3 - 1)%nat with (S 2 - 1)%nat.
      rewrite (stream_value_next 2 w2 ltac:(lia) E2).
      change (2 - 1)%nat with (S 1 - 1)%nat.
      rewrite (stream_value_next 1 w1 ltac:(lia) E1).
      unfold stream_value. change (1 - 1)%nat with 0%nat.
      rewrite take_0. cbn [fold_left]. lia. }
    rewrite Hsv, Hwork. change (2 ^ (32 - 0)) with 4294967296.
    change (2 ^ 0) with 1. rewrite Z.mod_small by lia. lia. }
  pose proof (SkipBits_reader 0 11 _ H0 ltac:(lia) ltac:(lia)) as Hsk.
  assert (Hsk' : reader_inv 15 (SkipBits 11
            (mkState work (ExtractBits work 11) 0 3 [] 0 PLookup))).
  { destruct Hsk as (A & B & C). split; [lia|]. split; assumption. }
  revert Hsk'. apply reader_inv_same; reflexivity.
Qed.

(** For tables whose shift counts are between 0 and 16 and a frame of
    16-bit words: in every state the decoder reaches, [usedBitCount] is at
    most 15 and the work register is exactly the part of the bit stream (the
    words after the scale word, most significant bit first) that has been
    loaded and not consumed, followed by [usedBitCount] zero bits; so the
    [b] bits a table lookup or a field read extracts ([b] up to 17) are the
    next [b] bits of the stream. *)
Theorem reader_tracks_stream (ret : Z) (s0 : state) (n : nat) (s : state) :
  shifts_ok -> frame_ok ->
  init = Some (ret, s0) ->
  steps n ret s0 = Running s ->
  let X := stream_value (rawBitStreamPtr s - 1) in
  let u := usedBitCount s in
  0 <= u <= 15 /\
  workBits s = (X mod 2 ^ (32 - u)) * 2 ^ u /\
  forall b, 0 <= b <= 17 ->
    ExtractBits (workBits s) b = (X / 2 ^ (32 - u - b)) mod 2 ^ b.
Proof.
  intros Hs Hf Hinit Hsteps X u.
  pose proof (init_reader _ _ Hf Hinit) as H0.
  destruct (steps_reader _ _ _ _ Hs Hf H0 Hsteps) as (Hu & _ & Hw).
  fold X u in Hu, Hw. split; [exact Hu|]. split; [exact Hw|].
  intros b Hb. unfold ExtractBits. rewrite Hw. apply window_arith; lia.
Qed.

(** The value [decode_bitstream] returns is word 0 of the frame. *)
Lemma decode_bitstream_returns_scale (fuel : nat) (r : Z) (out : list Z) :
  decode_bitstream fuel = Some (r, out) -> pFrameData !! 0%nat = Some r.
Proof.
  unfold decode_bitstream.
  destruct init as [[ret s0]|] eqn:Hinit; [|discriminate].
  cbn [mbind option_bind]. intros H.
  destruct (init_inv _ _ Hinit) as (H0 & _ & _).
  destruct (run_finished _ _ _ _ _ H) as (n & s & _ & _ & Hf).
  apply step_finished_iff in Hf. destruct Hf as (_ & _ & -> & _).
  exact H0.
Qed.

End Decoder.

(** *** A small instance

    Example tables (the real ones are not part of this file): every 13-bit
    index selects an end-of-block entry, except [0x1000] whose first field is
    the escape code. *)

Definition example_gTbl1 (i : Z) : Tbl1.entry := Tbl1.mk 0 1.

Definition example_gTbl2 (i : Z) : Tbl2.entry :=
  if i =? 0x1000 then Tbl2.mk 13 0x7C1F 0 0 else Tbl2.mk 13 0xFE00 0 0.

(** Scale word 7, then the bit stream: header [5] (11 bits), index [0x1000]
    (13 bits), raw word [0xABCD], index [0x1FFF] (13 bits), end-of-frame
    field [0x3FF] (11 bits); two spare words for the refills. *)
Definition example_frame : list Z := [7; 0x00B0; 0x00AB; 0xCDFF; 0xFBFF; 0; 0].

Definition example_start : state := mkState 2147833856 5 11 3 [5] 0 PLookup.


(** An instance: the state after the first lookup of the example. *)
Lemma escape_emits_work_window_witness :
  exists s',
    step example_gTbl1 example_gTbl2 example_frame 7
      (mkState 2882404096 13466655 8 4 [5] 4096 (PField F1)) = Running s' /\
    pOutput s' = [5] ++ [Z.shiftr 2882404096 16].
Proof.
  destruct (escape_emits_work_window example_gTbl1 example_gTbl2 example_frame
              7 example_start eq_refl 1%nat
              (mkState 2882404096 13466655 8 4 [5] 4096 (PField F1)) F1 0xFBFF
              eq_refl eq_refl eq_refl eq_refl) as (s' & H1 & H2 & _).
  exists s'. split; [exact H1|exact H2].
Defined.




(** An instance: the state of the example after its first lookup, where the
    next 16 bits of the stream are the raw word [0xABCD]. *)
Lemma reader_tracks_stream_witness :
  let s := mkState 2882404096 13466655 8 4 [5] 4096 (PField F1) in
  ExtractBits (workBits s) 16
  = (stream_value example_frame 3 / 2 ^ (32 - 8 - 16)) mod 2 ^ 16.
Proof.
  refine (proj2 (proj2 (reader_tracks_stream example_gTbl1 example_gTbl2
            example_frame 7 example_start 1
            (mkState 2882404096 13466655 8 4 [5] 4096 (PField F1))
            _ _ eq_refl eq_refl)) 16 _).
  - split; intros i; unfold example_gTbl1, example_gTbl2;
      [|destruct (i =? 0x1000)]; cbn; lia.
  - unfold frame_ok, example_frame. repeat constructor; lia.
  - lia.
Defined.

End Vlc.

(** ** Audio decoder: [AudioDecompressor] and [Masher::decode_audio_frame]

    The raw frame is the memory seen through [rawFrameBuffer]: the refill
    reads one 16-bit word ahead of the bits it needs, so the buffer is a
    total map from word index to word.  The PCM buffer is a map from sample
    index to sample together with the list of stores made, in order.  A shift
    is [Z.shiftl]/[Z.shiftr] followed by the conversion to the destination
    type; where the count is a run-time value that can leave 0..31 (a sample
    magnitude, a residual width, the number of bits in the work register) it
    is taken through [count32]. *)

Module Audio.

(** Modelled from the spec: the class declaration ([masher.hpp]) is not among
    the sources; the work register is the 32-bit register of the audio bit
    reader, taken unsigned, and the other members are [s32]. *)
Record AudioDecompressor := mkAD {
  mUsedBits : Z;
  mWorkBits : Z;
  mAudioFrameSizeBytes : Z;
  mAudioFrameDataPtr : nat
}.

Record pcm := mkPcm {
  cells : Z -> Z;
  stores : list (Z * Z)
}.

(** [*outPtr = v] with [outPtr] at sample index [p]. *)
Definition store (p v : Z) (o : pcm) : pcm :=
  mkPcm (fun q => if q =? p then u16 v else cells o q)
        (stores o ++ [(p, u16 v)]).

(** [memset(outPtr, 0, bytes)] over the 16-bit samples it covers (a negative
    count, which the source would turn into a huge [size_t], covers none). *)
Definition memset0 (bytes : Z) (o : pcm) : pcm :=
  mkPcm (fun q => if (0 <=? q) && (2 * q <? bytes) then 0 else cells o q)
        (stores o).

(** The inner [for (int i = index; i > 0; ++tableValue) i >>= 1]. *)
Fixpoint bit_count (fuel : nat) (i tableValue : Z) : Z :=
  match fuel with
  | O => tableValue
  | S fuel' =>
      if 0 <? i then bit_count fuel' (Z.shiftr i 1) (tableValue + 1)
      else tableValue
  end.

(** [init_Snd_tbl]: the 256 entries of [gSndTbl_byte_62EEB0]. *)
Definition gSndTbl_byte_62EEB0 : list Z :=
  map (fun index => u8 (bit_count 32 index 0)) (zrange 0 256).

Definition snd_tbl (i : Z) : Z :=
  default 0 (gSndTbl_byte_62EEB0 !! Z.to_nat i).

Definition GetSoundTableValue (tblIndex : Z) : Z :=
  let positiveTblIdx := Z.abs tblIndex in
  let shiftedIdx := Z.land (Z.shiftr positiveTblIdx 7) 0xFF in
  let result :=
    Z.lor (u16 (s32 (Z.shiftl (s16 (snd_tbl shiftedIdx)) 7)))
          (u16 (Z.shiftr positiveTblIdx (snd_tbl shiftedIdx))) in
  if tblIndex <? 0 then - result else result.

Definition sub_408F50 (sample : Z) : Z :=
  let absSample := Z.abs sample in
  let sampleBits := Z.shiftr absSample 7 in
  let sampleMasked := Z.land absSample 0x7F in
  let result := s16 (u16 (s32 (Z.shiftl sampleMasked (count32 sampleBits)))) in
  let result :=
    if 2 <=? sampleBits
    then s16 (Z.lor result
                (u16 (s32 (Z.shiftl 1 (count32 (sampleBits - 2))))))
    else result in
  if sample <? 0 then s16 (- result) else result.

(** [SampleMatches]: the flag and the value left in [sample]. *)
Definition SampleMatches (sample bitNum : Z) : bool * Z :=
  let bitMask := s32 (Z.shiftl 1 (count32 (bitNum - 1))) in
  if negb (sample =? bitMask) then
    (true,
     if negb (Z.land sample bitMask =? 0)
     then s16 (- Z.land sample (Z.lnot bitMask))
     else sample)
  else (false, sample).

(** *** The codec functions as the specification words them *)

(** The number of bits required to represent [i]. *)
Definition bits_required (i : Z) : Z := if i =? 0 then 0 else Z.log2 i + 1.






Lemma u16_s32 (z : Z) : u16 (s32 z) = u16 z.
Proof.
  unfold u16, s32. rewrite Zminus_mod.
  rewrite (Z.mod_mod_divide (z + 2 ^ 31) (2 ^ 32) (2 ^ 16))
    by (exists (2 ^ 16); reflexivity).
  rewrite <- Zminus_mod. f_equal. lia.
Qed.

Lemma s16_u16 (z : Z) : s16 (u16 z) = s16 z.
Proof.
  unfold s16, u16. f_equal. rewrite Z.add_mod_idemp_l by lia. reflexivity.
Qed.


(** [sub_408F50] returns an [s16]. *)
Lemma sub_408F50_range (y : Z) : -32768 <= sub_408F50 y < 32768.
Proof.
  unfold sub_408F50. cbv zeta.
  destruct (y <? 0); [apply s16_range|].
  destruct (2 <=? _); apply s16_range.
Qed.


(** *** The bit-length table and the companding pair *)

Lemma snd_tbl_check :
  forallb (fun i => (snd_tbl i =? bits_required i)
                    && ((i =? 0) || ((2 ^ (snd_tbl i - 1) <=? i)
                                     && (i <? 2 ^ snd_tbl i))))
          (zrange 0 256) = true.
Proof. vm_compute. reflexivity. Qed.

(** [init_Snd_tbl] fills entry [i] of the table with the number of bits of
    [i]: 0 for 0, and otherwise the [t] with [2 ^ (t - 1) <= i < 2 ^ t]. *)
Theorem snd_tbl_is_bit_length (i : Z) :
  0 <= i < 256 ->
  snd_tbl i = (if i =? 0 then 0 else Z.log2 i + 1) /\
  (0 < i -> 2 ^ (snd_tbl i - 1) <= i < 2 ^ snd_tbl i).
Proof.
  intros Hi. pose proof (forall_zrange _ 0 256 snd_tbl_check i Hi) as H.
  apply andb_true_iff in H. destruct H as [H1 H2].
  apply Z.eqb_eq in H1. split; [exact H1|]. intros Hpos.
  apply orb_true_iff in H2. destruct H2 as [H2|H2].
  - apply Z.eqb_eq in H2. lia.
  - apply andb_true_iff in H2. destruct H2 as [A B].
    apply Z.leb_le in A. apply Z.ltb_lt in B. lia.
Qed.

(** An instance: entry 200. *)
Lemma snd_tbl_is_bit_length_witness :
  snd_tbl 200 = Z.log2 200 + 1 /\ 2 ^ (snd_tbl 200 - 1) <= 200 < 2 ^ snd_tbl 200.
Proof.
  destruct (snd_tbl_is_bit_length 200 ltac:(lia)) as [H1 H2].
  split; [exact H1|apply H2; lia].
Defined.

(** [ascending f prev xs]: [prev], [f x1], [f x2], ... never decreases. *)
Fixpoint ascending (f : Z -> Z) (prev : Z) (xs : list Z) : bool :=
  match xs with
  | [] => true
  | x :: rest => let y := f x in (prev <=? y) && ascending f y rest
  end.

Lemma ascending_steps (f : Z -> Z) (n : nat) (lo : Z) :
  ascending f (f lo) (zcount n (lo + 1)) = true ->
  forall x, lo <= x < lo + Z.of_nat n -> f x <= f (x + 1).
Proof.
  revert lo. induction n as [|n IH]; intros lo H x Hx; [lia|].
  simpl in H. apply andb_true_iff in H. destruct H as [H1 H2].
  apply Z.leb_le in H1.
  destruct (Z.eq_dec x lo) as [->|Hne]; [exact H1|].
  apply (IH (lo + 1) H2). lia.
Qed.

Lemma ascending_zrange (f : Z -> Z) (lo hi : Z) :
  ascending f (f lo) (zrange (lo + 1) hi) = true ->
  forall x, lo <= x < hi - 1 -> f x <= f (x + 1).
Proof.
  unfold zrange. intros H x Hx.
  apply (ascending_steps f (Z.to_nat (hi - (lo + 1))) lo H). lia.
Qed.

Lemma compress_check :
  ascending GetSoundTableValue (GetSoundTableValue 0) (zrange 1 32768) = true.
Proof. vm_cast_no_check (eq_refl true). Qed.

Lemma monotone_steps (f : Z -> Z) (lo hi : Z) :
  (forall x, lo <= x < hi -> f x <= f (x + 1)) ->
  forall x y, lo <= x -> x <= y -> y <= hi -> f x <= f y.
Proof.
  intros Hstep x y Hlo Hxy Hhi.
  replace y with (x + Z.of_nat (Z.to_nat (y - x))) by lia.
  assert (Hn : x + Z.of_nat (Z.to_nat (y - x)) <= hi) by lia.
  revert Hn. generalize (Z.to_nat (y - x)) as n.
  induction n as [|n IH]; intros Hn.
  - replace (x + Z.of_nat 0) with x by lia. lia.
  - specialize (IH ltac:(lia)).
    replace (x + Z.of_nat (S n)) with (x + Z.of_nat n + 1) by lia.
    specialize (Hstep (x + Z.of_nat n) ltac:(lia)). lia.
Qed.

Lemma GetSoundTableValue_opp (x : Z) :
  GetSoundTableValue (- x) = - GetSoundTableValue x.
Proof.
  unfold GetSoundTableValue. cbv zeta. rewrite Z.abs_opp.
  destruct (Z.ltb_spec (- x) 0), (Z.ltb_spec x 0); try lia.
  assert (x = 0) as -> by lia. reflexivity.
Qed.

Lemma GetSoundTableValue_nonneg (a b : Z) :
  0 <= a -> a <= b -> b <= 32767 ->
  0 <= GetSoundTableValue a /\ GetSoundTableValue a <= GetSoundTableValue b /\
  GetSoundTableValue b <= 1151.
Proof.
  intros Ha Hab Hb.
  assert (Hmono : forall x y, 0 <= x -> x <= y -> y <= 32767 ->
            GetSoundTableValue x <= GetSoundTableValue y).
  { apply monotone_steps. intros x Hx.
    apply (ascending_zrange _ 0 32768 compress_check). lia. }
  pose proof (Hmono 0 a ltac:(lia) Ha ltac:(lia)) as H0.
  pose proof (Hmono b 32767 ltac:(lia) Hb ltac:(lia)) as H1.
  change (GetSoundTableValue 0) with 0 in H0.
  change (GetSoundTableValue 32767) with 1151 in H1.
  split; [exact H0|]. split; [apply Hmono; assumption|exact H1].
Qed.

(** On the 16-bit values other than -32768, [GetSoundTableValue] is an odd,
    non-decreasing function into the 12-bit range -1151..1151. *)
Theorem GetSoundTableValue_odd_monotone (x y : Z) :
  -32767 <= x -> x <= y -> y <= 32767 ->
  GetSoundTableValue (- x) = - GetSoundTableValue x /\
  -1151 <= GetSoundTableValue x <= 1151 /\
  GetSoundTableValue x <= GetSoundTableValue y.
Proof.
  intros Hx Hxy Hy. split; [apply GetSoundTableValue_opp|].
  assert (Hneg : forall z, GetSoundTableValue z = - GetSoundTableValue (- z)).
  { intros z. rewrite GetSoundTableValue_opp. lia. }
  destruct (Z_lt_le_dec x 0) as [Hx0|Hx0]; destruct (Z_lt_le_dec y 0) as [Hy0|Hy0];
    try lia.
  - rewrite (Hneg x), (Hneg y).
    pose proof (GetSoundTableValue_nonneg (- y) (- x) ltac:(lia) ltac:(lia) ltac:(lia)).
    lia.
  - rewrite (Hneg x).
    pose proof (GetSoundTableValue_nonneg (- x) (- x) ltac:(lia) ltac:(lia) ltac:(lia)).
    pose proof (GetSoundTableValue_nonneg y y ltac:(lia) ltac:(lia) ltac:(lia)).
    lia.
  - pose proof (GetSoundTableValue_nonneg x y ltac:(lia) ltac:(lia) ltac:(lia)).
    lia.
Qed.

(** An instance: 300 and 20000. *)
Lemma GetSoundTableValue_odd_monotone_witness :
  GetSoundTableValue (- 300) = - GetSoundTableValue 300 /\
  -1151 <= GetSoundTableValue 300 <= 1151 /\
  GetSoundTableValue 300 <= GetSoundTableValue 20000.
Proof. apply (GetSoundTableValue_odd_monotone 300 20000); lia. Defined.

Lemma compand_check :
  forallb (fun x =>
             let y := GetSoundTableValue x in
             let e := sub_408F50 y in
             (64 * Z.abs (e - x) <=? x) && (e <=? 32767)
             && (GetSoundTableValue e =? y))
          (zrange 0 32768) = true.
Proof. vm_cast_no_check (eq_refl true). Qed.

Lemma sub_408F50_opp (y : Z) :
  0 < y -> sub_408F50 (- y) = s16 (- sub_408F50 y).
Proof.
  intros Hy. unfold sub_408F50. cbv zeta. rewrite Z.abs_opp.
  destruct (Z.ltb_spec (- y) 0), (Z.ltb_spec y 0); solve [lia | reflexivity].
Qed.

Lemma compand_nonneg (x : Z) :
  0 <= x <= 32767 ->
  let y := GetSoundTableValue x in
  0 <= sub_408F50 y <= 32767 /\
  64 * Z.abs (sub_408F50 y - x) <= x /\ GetSoundTableValue (sub_408F50 y) = y.
Proof.
  intros Hx y.
  pose proof (forall_zrange _ _ _ compand_check x ltac:(lia)) as H. cbv zeta in H.
  rewrite !andb_true_iff in H. destruct H as ((A & B) & C).
  apply Z.leb_le in A, B. apply Z.eqb_eq in C. fold y in A, B, C. lia.
Qed.

(** Expanding a compressed value gives the value back up to a relative error
    of 1/64 (exactly, for magnitudes up to 128), and compressing again gives
    the same code: for every 16-bit [x] other than -32768. *)
Theorem compand_round_trip (x : Z) :
  -32767 <= x <= 32767 ->
  let y := GetSoundTableValue x in
  64 * Z.abs (sub_408F50 y - x) <= Z.abs x /\
  GetSoundTableValue (sub_408F50 y) = y.
Proof.
  intros Hx y. destruct (Z_lt_le_dec x 0) as [Hneg|Hpos].
  - destruct (compand_nonneg (- x) ltac:(lia)) as (He & Herr & Hcode).
    cbv zeta in *.
    assert (Hyx : y = - GetSoundTableValue (- x)).
    { unfold y. rewrite GetSoundTableValue_opp. lia. }
    set (y' := GetSoundTableValue (- x)) in *.
    assert (Hy' : 0 < y').
    { pose proof (GetSoundTableValue_nonneg (- x) (- x)
                    ltac:(lia) ltac:(lia) ltac:(lia)) as Hy. fold y' in Hy.
      destruct (Z.eq_dec y' 0) as [E|E]; [|lia].
      rewrite E in Herr. change (sub_408F50 0) with 0 in Herr. lia. }
    rewrite Hyx, sub_408F50_opp by exact Hy'.
    rewrite s16_id by lia. rewrite GetSoundTableValue_opp, Hcode.
    split; lia.
  - destruct (compand_nonneg x ltac:(lia)) as (He & Herr & Hcode).
    fold y in Herr, Hcode. split; [lia|exact Hcode].
Qed.

(** An instance: 1000. *)
Lemma compand_round_trip_witness :
  64 * Z.abs (sub_408F50 (GetSoundTableValue 1000) - 1000) <= Z.abs 1000 /\
  GetSoundTableValue (sub_408F50 (GetSoundTableValue 1000))
  = GetSoundTableValue 1000.
Proof. apply (compand_round_trip 1000). lia. Defined.

Lemma SampleMatches_check :
  forallb (fun w =>
    forallb (fun raw =>
      let '(ok, v) := SampleMatches raw w in
      if raw =? 2 ^ (w - 1) then negb ok
      else ok && (v =? (if raw <? 2 ^ (w - 1) then raw
                        else - (raw - 2 ^ (w - 1)))))
      (zrange 0 (2 ^ w)))
    (zrange 1 16) = true.
Proof. vm_cast_no_check (eq_refl true). Qed.

(** A residual of width [w] (1 to 15 bits) is a sign bit above a magnitude
    of [w - 1] bits: the field [raw] is accepted as [raw] when its top bit
    is clear and as [- (raw - 2 ^ (w - 1))] when it is set, except for
    the field with only the top bit set ("minus zero"), which is refused so
    that the next width is tried. *)
Theorem SampleMatches_sign_magnitude (w raw : Z) :
  1 <= w <= 15 -> 0 <= raw < 2 ^ w ->
  SampleMatches raw w
  = if raw =? 2 ^ (w - 1) then (false, raw)
    else (true, if raw <? 2 ^ (w - 1) then raw else - (raw - 2 ^ (w - 1))).
Proof.
  intros Hw Hraw.
  pose proof (forall_zrange _ 1 16 SampleMatches_check w ltac:(lia)) as H.
  cbv beta in H.
  pose proof (forall_zrange _ 0 (2 ^ w) H raw Hraw) as H1. cbv beta in H1.
  assert (Hsnd : fst (SampleMatches raw w) = false ->
                 snd (SampleMatches raw w) = raw).
  { unfold SampleMatches. cbv zeta. destruct (negb _); [discriminate|reflexivity]. }
  destruct (SampleMatches raw w) as [ok v]. cbn [fst snd] in Hsnd.
  destruct (raw =? 2 ^ (w - 1)).
  - destruct ok; [discriminate|]. rewrite Hsnd by reflexivity. reflexivity.
  - apply andb_true_iff in H1. destruct H1 as [-> Hv].
    apply Z.eqb_eq in Hv. rewrite Hv. reflexivity.
Qed.

(** An instance: the 4-bit fields 13 (minus 5) and 8 (refused). *)
Lemma SampleMatches_sign_magnitude_witness :
  SampleMatches 13 4 = (true, - (13 - 8)) /\ SampleMatches 8 4 = (false, 8).
Proof.
  split.
  - apply (SampleMatches_sign_magnitude 4 13); [lia|vm_compute; split; [discriminate|reflexivity]].
  - apply (SampleMatches_sign_magnitude 4 8); [lia|vm_compute; split; [discriminate|reflexivity]].
Defined.

Section Frame.

Variable rawFrameBuffer : nat -> Z.

Definition ReadNextAudioWord (value : Z) (d : AudioDecompressor)
    : Z * AudioDecompressor :=
  if mUsedBits d <=? 16 then
    let srcVal := rawFrameBuffer (mAudioFrameDataPtr d) in
    (s32 (Z.lor value (s32 (Z.shiftl srcVal (count32 (mUsedBits d))))),
     mkAD (s32 (mUsedBits d + 16)) (mWorkBits d) (mAudioFrameSizeBytes d)
          (S (mAudioFrameDataPtr d)))
  else (value, d).

Definition NextSoundBits (numBits : Z) (d : AudioDecompressor)
    : Z * AudioDecompressor :=
  let ret :=
    s16 (Z.land (mWorkBits d)
           (u32 (s32 (Z.shiftl 1 (count32 numBits)) - 1))) in
  let d := mkAD (s32 (mUsedBits d - numBits))
                (u32 (Z.shiftr (mWorkBits d) (count32 numBits)))
                (mAudioFrameSizeBytes d) (mAudioFrameDataPtr d) in
  let '(value, d) := ReadNextAudioWord (s32 (mWorkBits d)) d in
  (ret, mkAD (mUsedBits d) (u32 value) (mAudioFrameSizeBytes d)
             (mAudioFrameDataPtr d)).

Definition SndRelated_sub_409650 (d : AudioDecompressor) : AudioDecompressor :=
  let numBits := Z.land (mUsedBits d) 7 in
  let d := mkAD (s32 (mUsedBits d - numBits))
                (u32 (Z.shiftr (mWorkBits d) numBits))
                (mAudioFrameSizeBytes d) (mAudioFrameDataPtr d) in
  let '(value, d) := ReadNextAudioWord (s32 (mWorkBits d)) d in
  mkAD (mUsedBits d) (u32 value) (mAudioFrameSizeBytes d)
       (mAudioFrameDataPtr d).

(** The [do { ... } while (false)] block: try the three widths in turn. *)
Definition read_residual (firstWord secondWord thirdWord : Z)
    (d : AudioDecompressor) : Z * AudioDecompressor :=
  let '(samplePart, d) := NextSoundBits (u16 firstWord) d in
  let '(ok, samplePart) := SampleMatches samplePart firstWord in
  if ok then (samplePart, d)
  else
    let '(samplePart, d) := NextSoundBits (u16 secondWord) d in
    let '(ok, samplePart) := SampleMatches samplePart secondWord in
    if ok then (samplePart, d)
    else
      let '(samplePart, d) := NextSoundBits (u16 thirdWord) d in
      let '(ok, samplePart) := SampleMatches samplePart thirdWord in
      (samplePart, d).

(** The local variables of [decode_16bit_audio_frame] that live across the
    sample loop. *)
Record locals := mkLocals {
  previousValue1 : Z;
  previousValue2 : Z;
  previousValue3 : Z;
  outPtr : Z
}.

(** The part of the loop body after the residual has been read. *)
Definition predict_and_store (useTableFlag samplePart : Z) (stride : Z)
    (l : locals) (o : pcm) : locals * pcm :=
  let previous := s32 (5 * previousValue3 l - 4 * previousValue2 l) in
  let samplePartOrTableIndex := Z.shiftr (s32 (previousValue1 l + previous)) 1 in
  let previousValue1 := previousValue2 l in
  let previousValue2 := previousValue3 l in
  let bUseTbl := negb (useTableFlag =? 0) in
  let previousValue3 :=
    if bUseTbl then
      let soundTableValue := GetSoundTableValue (s16 samplePartOrTableIndex) in
      sub_408F50 (s16 (samplePart + soundTableValue))
    else s16 (samplePartOrTableIndex + samplePart) in
  let o := store (outPtr l) previousValue3 o in
  (mkLocals previousValue1 previousValue2 previousValue3 (outPtr l + stride), o).

(** One iteration of the sample loop. *)
Definition decode_sample (useTableFlag firstWord secondWord thirdWord : Z)
    (d : AudioDecompressor) (l : locals) (o : pcm)
    : AudioDecompressor * locals * pcm :=
  let '(samplePart, d) := read_residual firstWord secondWord thirdWord d in
  let '(l, o) :=
    predict_and_store useTableFlag samplePart (mAudioFrameSizeBytes d) l o in
  (d, l, o).

(** [for (counter = 0; counter < numSamplesPerFrame - 3; counter++)] with
    [n] iterations left. *)
Fixpoint sample_loop (n : nat) (useTableFlag firstWord secondWord thirdWord : Z)
    (d : AudioDecompressor) (l : locals) (o : pcm)
    : AudioDecompressor * locals * pcm :=
  match n with
  | O => (d, l, o)
  | S n' =>
      let '(d, l, o) :=
        decode_sample useTableFlag firstWord secondWord thirdWord d l o in
      sample_loop n' useTableFlag firstWord secondWord thirdWord d l o
  end.

Definition decode_16bit_audio_frame (out : Z) (numSamplesPerFrame : Z)
    (isLast : bool) (d : AudioDecompressor) (o : pcm)
    : AudioDecompressor * pcm :=
  let '(useTableFlag, d) := NextSoundBits 16 d in
  let '(firstWord, d) := NextSoundBits 16 d in
  let '(secondWord, d) := NextSoundBits 16 d in
  let '(thirdWord, d) := NextSoundBits 16 d in
  let '(previous1, d) := NextSoundBits 16 d in
  let o := store out previous1 o in
  let out := out + mAudioFrameSizeBytes d in
  let '(previous2, d) := NextSoundBits 16 d in
  let o := store out previous2 o in
  let out := out + mAudioFrameSizeBytes d in
  let '(previous3, d) := NextSoundBits 16 d in
  let o := store out previous3 o in
  let out := out + mAudioFrameSizeBytes d in
  let l := mkLocals previous1 previous2 previous3 out in
  let '(d, l, o) :=
    if 3 <? numSamplesPerFrame
    then sample_loop (Z.to_nat (numSamplesPerFrame - 3)) useTableFlag
           firstWord secondWord thirdWord d l o
    else (d, l, o) in
  let d := if negb isLast then SndRelated_sub_409650 d else d in
  (d, o).

(** [SetAudioFrameSizeBytesAndBits] and [SetupAudioDecodePtrs] on a fresh
    decompressor. *)
Definition SetAudioFrameSizeBytesAndBits (audioFrameSizeBytes : Z)
    (d : AudioDecompressor) : AudioDecompressor :=
  mkAD (mUsedBits d) (mWorkBits d) audioFrameSizeBytes (mAudioFrameDataPtr d).

Definition SetupAudioDecodePtrs (d : AudioDecompressor) : AudioDecompressor :=
  mkAD 32
       (u32 (Z.lor (rawFrameBuffer 0%nat) (Z.shiftl (rawFrameBuffer 1%nat) 16)))
       (mAudioFrameSizeBytes d) 2.

(** The body of [Masher::decode_audio_frame], keeping the output buffer as
    it is after each of the three statements that write to it: the [memset],
    the decode of the first channel and the decode of the second. *)
Definition decode_audio_frame_steps (outBuffer : Z -> Z)
    (numSamplesPerFrame : Z)
    : pcm * (AudioDecompressor * pcm) * (AudioDecompressor * pcm) :=
  let o := mkPcm outBuffer [] in
  let decompressor := mkAD 0 0 0 0 in
  let decompressor := SetAudioFrameSizeBytesAndBits 2 decompressor in
  let decompressor := SetupAudioDecodePtrs decompressor in
  let o := memset0 (s32 (numSamplesPerFrame * 4)) o in
  let first :=
    decode_16bit_audio_frame 0 numSamplesPerFrame false decompressor o in
  let second :=
    if mAudioFrameSizeBytes (fst first) =? 2
    then decode_16bit_audio_frame (0 + 1) numSamplesPerFrame true (fst first)
           (snd first)
    else first in
  (o, first, second).

Definition decode_audio_frame (outBuffer : Z -> Z) (numSamplesPerFrame : Z)
    : AudioDecompressor * pcm :=
  snd (decode_audio_frame_steps outBuffer numSamplesPerFrame).

(** *** Properties *)

Definition in_s16 (z : Z) : Prop := -32768 <= z < 32768.

(** [o'] is [o] after stores at exactly the positions [ps], in order. *)
Definition grows (o o' : pcm) (ps : list Z) : Prop :=
  map fst (stores o') = map fst (stores o) ++ ps /\
  forall q, ~ In q ps -> cells o' q = cells o q.

Lemma grows_refl (o : pcm) : grows o o [].
Proof. split; [rewrite app_nil_r; reflexivity|reflexivity]. Qed.

Lemma grows_store (p v : Z) (o : pcm) : grows o (store p v o) [p].
Proof.
  split.
  - cbn [store stores]. rewrite map_app. reflexivity.
  - intros q Hq. cbn [store cells].
    destruct (Z.eqb_spec q p) as [->|]; [|reflexivity].
    exfalso. apply Hq. left. reflexivity.
Qed.

Lemma grows_trans (o o' o'' : pcm) (ps qs : list Z) :
  grows o o' ps -> grows o' o'' qs -> grows o o'' (ps ++ qs).
Proof.
  intros [S1 C1] [S2 C2]. split.
  - rewrite S2, S1, app_assoc. reflexivity.
  - intros q Hq. rewrite C2, C1; [reflexivity|..];
      intros Hin; apply Hq, in_or_app; auto.
Qed.

Lemma ReadNextAudioWord_size (value : Z) (d : AudioDecompressor) :
  mAudioFrameSizeBytes (snd (ReadNextAudioWord value d))
  = mAudioFrameSizeBytes d.
Proof. unfold ReadNextAudioWord. destruct (_ <=? _); reflexivity. Qed.

Lemma NextSoundBits_spec (numBits : Z) (d : AudioDecompressor) :
  mAudioFrameSizeBytes (snd (NextSoundBits numBits d)) = mAudioFrameSizeBytes d
  /\ in_s16 (fst (NextSoundBits numBits d)).
Proof.
  unfold NextSoundBits. cbv zeta.
  match goal with |- context [ReadNextAudioWord ?v ?x] =>
    pose proof (ReadNextAudioWord_size v x) as H;
    destruct (ReadNextAudioWord v x) as [value d']
  end.
  cbn [fst snd mAudioFrameSizeBytes] in *. split; [exact H|apply s16_range].
Qed.

Lemma SndRelated_sub_409650_size (d : AudioDecompressor) :
  mAudioFrameSizeBytes (SndRelated_sub_409650 d) = mAudioFrameSizeBytes d.
Proof.
  unfold SndRelated_sub_409650. cbv zeta.
  match goal with |- context [ReadNextAudioWord ?v ?x] =>
    pose proof (ReadNextAudioWord_size v x) as H;
    destruct (ReadNextAudioWord v x) as [value d']
  end.
  cbn [fst snd mAudioFrameSizeBytes] in *. exact H.
Qed.

Lemma read_residual_size (firstWord secondWord thirdWord : Z)
    (d : AudioDecompressor) :
  mAudioFrameSizeBytes (snd (read_residual firstWord secondWord thirdWord d))
  = mAudioFrameSizeBytes d.
Proof.
  unfold read_residual.
  repeat match goal with
  | |- context [NextSoundBits ?n ?x] =>
      let H := fresh "H" in
      destruct (NextSoundBits_spec n x) as [H _];
      destruct (NextSoundBits n x) as [? ?]; cbn [fst snd] in H
  | |- context [SampleMatches ?a ?b] =>
      destruct (SampleMatches a b) as [[|] ?]
  end; cbn [snd]; congruence.
Qed.

Lemma predict_and_store_spec (useTableFlag samplePart stride : Z) (l : locals)
    (o : pcm) :
  let r := predict_and_store useTableFlag samplePart stride l o in
  outPtr (fst r) = outPtr l + stride /\
  previousValue1 (fst r) = previousValue2 l /\
  previousValue2 (fst r) = previousValue3 l /\
  snd r = store (outPtr l) (previousValue3 (fst r)) o.
Proof. unfold predict_and_store. cbv zeta. cbn. auto. Qed.

Lemma decode_sample_grows (useTableFlag firstWord secondWord thirdWord : Z)
    (d d' : AudioDecompressor) (l l' : locals) (o o' : pcm) :
  decode_sample useTableFlag firstWord secondWord thirdWord d l o
    = (d', l', o') ->
  mAudioFrameSizeBytes d' = mAudioFrameSizeBytes d /\
  outPtr l' = outPtr l + mAudioFrameSizeBytes d /\
  grows o o' [outPtr l].
Proof.
  unfold decode_sample.
  pose proof (read_residual_size firstWord secondWord thirdWord d) as Hs.
  destruct (read_residual _ _ _ d) as [samplePart d1]. cbn [snd] in Hs.
  pose proof (predict_and_store_spec useTableFlag samplePart
                (mAudioFrameSizeBytes d1) l o) as (Hp & _ & _ & Ho).
  destruct (predict_and_store _ _ _ l o) as [l1 o1]. cbn [fst snd] in *.
  intros [= <- <- <-]. split; [exact Hs|]. split; [congruence|].
  rewrite Ho. apply grows_store.
Qed.

Lemma sample_loop_grows (n : nat)
    (useTableFlag firstWord secondWord thirdWord : Z)
    (d d' : AudioDecompressor) (l l' : locals) (o o' : pcm) :
  sample_loop n useTableFlag firstWord secondWord thirdWord d l o
    = (d', l', o') ->
  mAudioFrameSizeBytes d' = mAudioFrameSizeBytes d /\
  grows o o' (strided n (outPtr l) (mAudioFrameSizeBytes d)).
Proof.
  revert d l o. induction n as [|n IH]; intros d l o; cbn [sample_loop strided].
  - intros [= <- <- <-]. split; [reflexivity|apply grows_refl].
  - destruct (decode_sample _ _ _ _ d l o) as [[d1 l1] o1] eqn:E.
    destruct (decode_sample_grows _ _ _ _ _ _ _ _ _ _ E) as (Hs & Hp & Hg).
    intros H. destruct (IH _ _ _ H) as (Hs' & Hg').
    split; [congruence|].
    rewrite Hp, Hs in Hg'.
    apply (grows_trans _ _ _ [outPtr l] _ Hg Hg').
Qed.

Lemma decode_16bit_audio_frame_grows (out numSamplesPerFrame : Z)
    (isLast : bool) (d : AudioDecompressor) (o : pcm) :
  let r := decode_16bit_audio_frame out numSamplesPerFrame isLast d o in
  mAudioFrameSizeBytes (fst r) = mAudioFrameSizeBytes d /\
  grows o (snd r)
    (strided (Z.to_nat (Z.max 3 numSamplesPerFrame)) out
       (mAudioFrameSizeBytes d)).
Proof.
  unfold decode_16bit_audio_frame.
  repeat match goal with
  | |- context [NextSoundBits 16 ?x] =>
      let H := fresh "H" in
      destruct (NextSoundBits_spec 16 x) as [H _];
      destruct (NextSoundBits 16 x) as [? ?]; cbn [fst snd] in H
  end.
  set (st := mAudioFrameSizeBytes d) in *.
  repeat match goal with
  | a : AudioDecompressor |- _ =>
      lazymatch goal with
      | _ : mAudioFrameSizeBytes a = st |- _ => fail
      | _ => assert (mAudioFrameSizeBytes a = st) by congruence
      end
  end.
  repeat match goal with
  | H : mAudioFrameSizeBytes _ = st |- _ => rewrite !H
  end.
  match goal with
  | |- context [store (out + st + st) ?v3 (store (out + st) ?v2 (store out ?v1 o))] =>
      set (o3 := store (out + st + st) v3 (store (out + st) v2 (store out v1 o)));
      assert (G3 : grows o o3 (strided 3 out st))
        by (subst o3;
            eapply (grows_trans _ _ _ [out] [out + st; out + st + st]);
              [apply grows_store|];
            eapply (grows_trans _ _ _ [out + st] [out + st + st]);
              [apply grows_store|];
            apply grows_store)
  end.
  match goal with
  | |- context [if 3 <? numSamplesPerFrame then ?a else ?b] =>
      destruct (Z.ltb_spec 3 numSamplesPerFrame) as [Hn|Hn];
      [destruct a as [[d1 l1] o1] eqn:E|]
  end.
  - destruct (sample_loop_grows _ _ _ _ _ _ _ _ _ _ _ E) as (Hs & Hg).
    cbn [outPtr] in Hg.
    assert (Hd1 : mAudioFrameSizeBytes d1 = st) by congruence.
    split.
    + destruct isLast; cbn [negb fst];
        rewrite ?SndRelated_sub_409650_size; exact Hd1.
    + cbn [snd].
      replace (Z.to_nat (Z.max 3 numSamplesPerFrame))
        with (3 + Z.to_nat (numSamplesPerFrame - 3))%nat by lia.
      rewrite strided_app.
      replace (out + Z.of_nat 3 * st) with (out + st + st + st) by lia.
      match goal with
      | H : mAudioFrameSizeBytes ?a = st |- _ =>
          match type of Hg with context [mAudioFrameSizeBytes a] =>
            rewrite H in Hg end
      end.
      exact (grows_trans _ _ _ _ _ G3 Hg).
  - split.
    + destruct isLast; cbn [negb fst];
        rewrite ?SndRelated_sub_409650_size; assumption.
    + cbn [snd]. replace (Z.to_nat (Z.max 3 numSamplesPerFrame)) with 3%nat by lia.
      exact G3.
Qed.


(** The hypothesis of [predictor_step] holds all along the loop: every
    sample the loop produces is a 16-bit value. *)
Lemma decode_sample_in_s16 (useTableFlag firstWord secondWord thirdWord : Z)
    (d d' : AudioDecompressor) (l l' : locals) (o o' : pcm) :
  in_s16 (previousValue2 l) -> in_s16 (previousValue3 l) ->
  decode_sample useTableFlag firstWord secondWord thirdWord d l o
    = (d', l', o') ->
  in_s16 (previousValue1 l') /\ in_s16 (previousValue2 l') /\
  in_s16 (previousValue3 l').
Proof.
  intros H2 H3. unfold decode_sample.
  destruct (read_residual _ _ _ d) as [samplePart d1].
  unfold predict_and_store. cbv zeta. intros [= <- <- <-].
  cbn [previousValue1 previousValue2 previousValue3].
  split; [exact H2|]. split; [exact H3|].
  destruct (negb _); [|apply s16_range].
  apply sub_408F50_range.
Qed.

(** C3 (as the code has it). With [N] the larger of 3 and
    [numSamplesPerFrame] (so [N = numSamplesPerFrame] from 3 samples on): one
    call of [decode_16bit_audio_frame] stores exactly [N] samples, at the
    positions [out], [out + stride], ..., in this order, [stride] being the
    decompressor's [mAudioFrameSizeBytes] (consecutive positions for 1); and
    [Masher::decode_audio_frame], which always sets the stride to 2 and
    decodes two channels, stores [N] samples at the even positions
    [0, 2, ...] followed by [N] samples at the odd positions [1, 3, ...]. *)
Theorem audio_samples_per_channel (outBuffer : Z -> Z)
    (numSamplesPerFrame : Z) :
  let N := Z.to_nat (Z.max 3 numSamplesPerFrame) in
  (3 <= numSamplesPerFrame -> N = Z.to_nat numSamplesPerFrame) /\
  (forall out isLast d o,
     map fst (stores (snd (decode_16bit_audio_frame out numSamplesPerFrame
                             isLast d o)))
     = map fst (stores o) ++ strided N out (mAudioFrameSizeBytes d)) /\
  map fst (stores (snd (decode_audio_frame outBuffer numSamplesPerFrame)))
  = strided N 0 2 ++ strided N 1 2.
Proof.
  intros N. split; [lia|]. split.
  - intros out isLast d o.
    apply (decode_16bit_audio_frame_grows out numSamplesPerFrame isLast d o).
  - unfold decode_audio_frame, decode_audio_frame_steps. cbv zeta. cbn [snd].
    match goal with
    | |- context [decode_16bit_audio_frame 0 _ false ?d0 ?o0] =>
        destruct (decode_16bit_audio_frame_grows 0 numSamplesPerFrame false
                    d0 o0) as (Hs & Hg & _);
        destruct (decode_16bit_audio_frame 0 numSamplesPerFrame false d0 o0)
          as [d1 o1]
    end.
    cbn [fst snd SetupAudioDecodePtrs SetAudioFrameSizeBytesAndBits
         mAudioFrameSizeBytes memset0 stores map app] in Hs, Hg.
    cbn [fst snd]. rewrite Hs. cbn [Z.eqb Pos.eqb].
    destruct (decode_16bit_audio_frame_grows (0 + 1) numSamplesPerFrame true
                d1 o1) as (_ & Hg1 & _).
    rewrite Hg1, Hg, Hs. reflexivity.
Qed.

(** C10. For a sample count [n] whose byte size fits an [int], along the
    body of [Masher::decode_audio_frame]: the [memset] runs before any
    sample is stored and leaves 0 in each of the first [2 * n] 16-bit
    positions of the output (that is, [4 * n] bytes) and the rest of the
    buffer as it was; the decode of the first channel, which works on this
    zero-filled buffer, stores at the even positions only, so that every
    other position of the first [2 * n], in particular every odd one, holds
    0 when the second channel starts; and in the buffer the function leaves,
    which is the one after the second channel, every position of the first
    [2 * n] at which no sample was stored holds 0 and every position outside
    the samples of the frame is as it was. *)
Theorem audio_zero_fill (outBuffer : Z -> Z) (numSamplesPerFrame : Z) :
  0 <= numSamplesPerFrame < 2 ^ 29 ->
  let steps := decode_audio_frame_steps outBuffer numSamplesPerFrame in
  let zeroed := fst (fst steps) in
  let first := snd (snd (fst steps)) in
  let last := snd (snd steps) in
  let N := Z.to_nat (Z.max 3 numSamplesPerFrame) in
  (stores zeroed = [] /\
   (forall p, 0 <= p < 2 * numSamplesPerFrame -> cells zeroed p = 0) /\
   (forall p, p < 0 \/ 2 * numSamplesPerFrame <= p ->
      cells zeroed p = outBuffer p)) /\
  (map fst (stores first) = strided N 0 2 /\
   (forall p, 0 <= p < 2 * numSamplesPerFrame ->
      ~ In p (map fst (stores first)) -> cells first p = 0) /\
   (forall k, 0 <= k < numSamplesPerFrame -> cells first (2 * k + 1) = 0)) /\
  (snd (decode_audio_frame outBuffer numSamplesPerFrame) = last /\
   (forall p, 0 <= p < 2 * numSamplesPerFrame ->
      ~ In p (map fst (stores last)) -> cells last p = 0) /\
   (forall p, p < 0 \/ 2 * Z.of_nat N <= p -> cells last p = outBuffer p)).
Proof.
  intros Hn steps zeroed first last N.
  subst zeroed first last steps. unfold decode_audio_frame.
  unfold decode_audio_frame_steps. cbv zeta. cbn [fst snd].
  set (d0 := SetupAudioDecodePtrs (SetAudioFrameSizeBytesAndBits 2 (mkAD 0 0 0 0))).
  set (o0 := memset0 (s32 (numSamplesPerFrame * 4)) (mkPcm outBuffer [])).
  assert (Hbytes : s32 (numSamplesPerFrame * 4) = numSamplesPerFrame * 4)
    by (apply s32_id; lia).
  assert (Hfill : forall p, 0 <= p < 2 * numSamplesPerFrame -> cells o0 p = 0).
  { intros p Hp. subst o0. cbn [memset0 cells]. rewrite Hbytes.
    destruct (Z.leb_spec 0 p); [|lia].
    destruct (Z.ltb_spec (2 * p) (numSamplesPerFrame * 4)); [reflexivity|lia]. }
  assert (Hout : forall p, p < 0 \/ 2 * numSamplesPerFrame <= p ->
                   cells o0 p = outBuffer p).
  { intros p Hp. subst o0. cbn [memset0 cells]. rewrite Hbytes.
    destruct (Z.leb_spec 0 p); [|reflexivity].
    destruct (Z.ltb_spec (2 * p) (numSamplesPerFrame * 4)); [lia|reflexivity]. }
  split; [split; [reflexivity|split; assumption]|].
  destruct (decode_16bit_audio_frame_grows 0 numSamplesPerFrame false d0 o0)
    as (Hs & Hst & Hc).
  destruct (decode_16bit_audio_frame 0 numSamplesPerFrame false d0 o0)
    as [d1 o1].
  cbn [fst snd] in *.
  change (mAudioFrameSizeBytes d0) with 2 in Hs, Hst, Hc.
  change (map fst (stores o0)) with (@nil Z) in Hst. cbn [app] in Hst.
  fold N in Hst, Hc.
  rewrite Hs. cbn [Z.eqb Pos.eqb].
  split.
  - split; [exact Hst|]. split.
    + intros p Hp Hnot. rewrite Hc; [apply Hfill, Hp|]. rewrite <- Hst. exact Hnot.
    + intros k Hk. rewrite Hc; [apply Hfill; lia|].
      rewrite in_strided. intros (j & _ & He). lia.
  - destruct (decode_16bit_audio_frame_grows (0 + 1) numSamplesPerFrame true
                d1 o1) as (_ & Hst1 & Hc1).
    rewrite Hs in Hst1, Hc1. fold N in Hst1, Hc1.
    split; [reflexivity|]. split.
    + intros p Hp Hnot. rewrite Hst1, Hst in Hnot.
      rewrite Hc1, Hc; [apply Hfill, Hp|..];
        intros Hin; apply Hnot; apply in_or_app; auto.
    + intros p Hp. rewrite Hc1, Hc; [apply Hout; lia|..];
        rewrite in_strided; intros (j & Hj & He); lia.
Qed.



(** *** The bit reader delivers the frame's bits in order *)

(** The first [n] words of the frame as one little-endian number: bit [k] of
    the stream is bit [k] of this number. *)
Fixpoint le_words (n : nat) : Z :=
  match n with
  | O => 0
  | S n' => le_words n' + rawFrameBuffer n' * 2 ^ (16 * Z.of_nat n')
  end.

(** The frame is made of 16-bit words. *)
Definition words_ok : Prop := forall i, 0 <= rawFrameBuffer i < 65536.

(** The number of stream bits the reader has handed out. *)
Definition consumed (d : AudioDecompressor) : Z :=
  16 * Z.of_nat (mAudioFrameDataPtr d) - mUsedBits d.

(** Between two reads the work register holds the 17 to 32 stream bits that
    follow the consumed ones. *)
Definition audio_inv (d : AudioDecompressor) : Prop :=
  17 <= mUsedBits d <= 32 /\ 0 <= consumed d /\
  mWorkBits d = le_words (mAudioFrameDataPtr d) / 2 ^ consumed d.

Lemma le_words_bound (n : nat) :
  words_ok -> 0 <= le_words n < 2 ^ (16 * Z.of_nat n).
Proof.
  intros Hw. induction n as [|n IH]; cbn [le_words].
  - change (2 ^ (16 * Z.of_nat 0)) with 1. lia.
  - replace (16 * Z.of_nat (S n)) with (16 * Z.of_nat n + 16) by lia.
    rewrite Z.pow_add_r by lia. change (2 ^ 16) with 65536.
    specialize (Hw n).
    pose proof (Vlc.pow2_pos (16 * Z.of_nat n) ltac:(lia)). nia.
Qed.

Lemma u32_of_s32 (z : Z) : u32 (s32 z) = u32 z.
Proof.
  unfold u32, s32. rewrite Zminus_mod, Z.mod_mod by lia.
  rewrite <- Zminus_mod. f_equal. lia.
Qed.

Lemma u32_lor_s32 (a b : Z) :
  0 <= a < 2 ^ 32 -> 0 <= b < 2 ^ 32 ->
  u32 (s32 (Z.lor (s32 a) (s32 b))) = Z.lor a b.
Proof.
  intros Ha Hb. rewrite u32_of_s32, <- Vlc.u32_lor, !u32_of_s32.
  rewrite !Vlc.u32_idem by assumption. reflexivity.
Qed.

(** The effect on the reader of handing out [n] bits and refilling. *)
Lemma take_bits (n : Z) (d : AudioDecompressor) :
  words_ok -> audio_inv d -> 0 <= n <= 16 ->
  let d1 := mkAD (s32 (mUsedBits d - n)) (u32 (Z.shiftr (mWorkBits d) n))
                 (mAudioFrameSizeBytes d) (mAudioFrameDataPtr d) in
  let r := ReadNextAudioWord (s32 (mWorkBits d1)) d1 in
  let d' := mkAD (mUsedBits (snd r)) (u32 (fst r))
                 (mAudioFrameSizeBytes (snd r)) (mAudioFrameDataPtr (snd r)) in
  0 <= mWorkBits d < 2 ^ 32 /\
  audio_inv d' /\ consumed d' = consumed d + n /\
  mAudioFrameSizeBytes d' = mAudioFrameSizeBytes d.
Proof.
  intros Hw (HU & Hc & HW) Hn d1 r d'. unfold consumed in *.
  set (U := mUsedBits d) in *. set (P := mAudioFrameDataPtr d) in *.
  set (c := 16 * Z.of_nat P - U) in *.
  pose proof (le_words_bound P Hw) as HL.
  pose proof (Vlc.pow2_pos c Hc) as Hpc.
  pose proof (Vlc.pow2_pos n ltac:(lia)) as Hpn.
  pose proof (Vlc.pow2_pos U ltac:(lia)) as HpU.
  assert (HWU : 0 <= mWorkBits d < 2 ^ U).
  { rewrite HW. split; [apply Z.div_pos; lia|].
    apply Z.div_lt_upper_bound; [lia|].
    rewrite <- Z.pow_add_r by lia. replace (c + U) with (16 * Z.of_nat P) by lia.
    lia. }
  assert (HU32 : 2 ^ U <= 2 ^ 32) by (apply Z.pow_le_mono_r; lia).
  assert (HW1 : Z.shiftr (mWorkBits d) n = le_words P / 2 ^ (c + n)).
  { rewrite Z.shiftr_div_pow2, HW, Z.div_div, <- Z.pow_add_r by lia.
    reflexivity. }
  assert (HW1b : 0 <= Z.shiftr (mWorkBits d) n < 2 ^ (U - n)).
  { rewrite Z.shiftr_div_pow2 by lia. split; [apply Z.div_pos; lia|].
    apply Z.div_lt_upper_bound; [lia|].
    rewrite <- Z.pow_add_r by lia. replace (n + (U - n)) with U by lia. lia. }
  assert (HUn : 2 ^ (U - n) <= 2 ^ 32) by (apply Z.pow_le_mono_r; lia).
  split; [lia|].
  subst d' r d1. unfold ReadNextAudioWord.
  cbn [mUsedBits mWorkBits mAudioFrameSizeBytes mAudioFrameDataPtr].
  rewrite (s32_id (U - n)) by lia.
  rewrite (u32_id (Z.shiftr _ n)) by (change 4294967296 with (2 ^ 32); lia).
  destruct (Z.leb_spec (U - n) 16) as [Hre|Hno];
    cbn [fst snd mUsedBits mWorkBits mAudioFrameSizeBytes mAudioFrameDataPtr].
  - (* refill *)
    rewrite (count32_id (U - n)) by lia.
    fold P. set (w := rawFrameBuffer P).
    pose proof (Hw P) as Hwr. fold w in Hwr.
    pose proof (Vlc.pow2_pos (U - n) ltac:(lia)) as HpUn.
    assert (H16 : 2 ^ (U - n) <= 2 ^ 16) by (apply Z.pow_le_mono_r; lia).
    change (2 ^ 16) with 65536 in H16.
    assert (Hy : 0 <= Z.shiftl w (U - n) < 2 ^ 32).
    { rewrite Z.shiftl_mul_pow2 by lia. change (2 ^ 32) with 4294967296. nia. }
    rewrite u32_lor_s32 by (try exact Hy; lia).
    rewrite (s32_id (U - n + 16)) by lia.
    unfold audio_inv, consumed.
    cbn [mUsedBits mWorkBits mAudioFrameSizeBytes mAudioFrameDataPtr].
    replace (16 * Z.of_nat (S P) - (U - n + 16)) with (c + n) by lia.
    split; [|split; [lia|reflexivity]].
    split; [lia|]. split; [lia|].
    rewrite Z.shiftl_mul_pow2, Z.lor_comm by lia.
    rewrite Vlc.lor_disjoint by lia.
    cbn [le_words]. fold w.
    replace (16 * Z.of_nat P) with ((U - n) + (c + n)) by lia.
    rewrite Z.pow_add_r, Z.mul_assoc, Z.div_add by lia.
    rewrite HW1. lia.
  - rewrite u32_of_s32.
    rewrite (u32_id (Z.shiftr _ n)) by (change 4294967296 with (2 ^ 32); lia).
    unfold audio_inv, consumed.
    cbn [mUsedBits mWorkBits mAudioFrameSizeBytes mAudioFrameDataPtr].
    fold P. replace (16 * Z.of_nat P - (U - n)) with (c + n) by lia.
    split; [|split; [lia|reflexivity]].
    split; [lia|]. split; [lia|exact HW1].
Qed.

Lemma NextSoundBits_reads (n : Z) (d : AudioDecompressor) :
  words_ok -> audio_inv d -> 0 <= n <= 16 ->
  fst (NextSoundBits n d)
    = s16 ((le_words (mAudioFrameDataPtr d) / 2 ^ consumed d) mod 2 ^ n) /\
  audio_inv (snd (NextSoundBits n d)) /\
  consumed (snd (NextSoundBits n d)) = consumed d + n /\
  mAudioFrameSizeBytes (snd (NextSoundBits n d)) = mAudioFrameSizeBytes d.
Proof.
  intros Hw Hinv Hn.
  pose proof (take_bits n d Hw Hinv Hn) as H. cbv zeta in H.
  destruct H as (HW32 & Hinv' & Hc' & Hsz).
  unfold NextSoundBits. cbv zeta. rewrite (count32_id n) by lia.
  destruct (ReadNextAudioWord _ _) as [value d2]. cbn [fst snd] in *.
  split; [|auto]. f_equal.
  assert (Hmask : u32 (s32 (Z.shiftl 1 n) - 1) = Z.ones n).
  { rewrite Z.shiftl_mul_pow2, Z.mul_1_l by lia.
    pose proof (Vlc.pow2_pos n ltac:(lia)).
    assert (2 ^ n <= 2 ^ 16) by (apply Z.pow_le_mono_r; lia).
    change (2 ^ 16) with 65536 in *.
    rewrite s32_id, u32_id by lia. rewrite Z.ones_equiv. lia. }
  rewrite Hmask, Z.land_ones by lia.
  destruct Hinv as (_ & _ & ->). reflexivity.
Qed.

Lemma SndRelated_sub_409650_aligns (d : AudioDecompressor) :
  words_ok -> audio_inv d ->
  audio_inv (SndRelated_sub_409650 d) /\
  consumed d <= consumed (SndRelated_sub_409650 d) < consumed d + 8 /\
  consumed (SndRelated_sub_409650 d) mod 8 = 0.
Proof.
  intros Hw Hinv.
  assert (Hn : Z.land (mUsedBits d) 7 = mUsedBits d mod 8).
  { change 7 with (Z.ones 3). apply Z.land_ones. lia. }
  pose proof (Z.mod_pos_bound (mUsedBits d) 8 ltac:(lia)) as Hb.
  pose proof (take_bits (mUsedBits d mod 8) d Hw Hinv ltac:(lia)) as H.
  cbv zeta in H. destruct H as (_ & Hinv' & Hc' & _).
  unfold SndRelated_sub_409650. cbv zeta. rewrite Hn.
  destruct (ReadNextAudioWord _ _) as [value d2]. cbn [fst snd] in *.
  split; [exact Hinv'|]. rewrite Hc'. split; [lia|].
  unfold consumed. Z.div_mod_to_equations. lia.
Qed.

Lemma SetupAudioDecodePtrs_inv (d : AudioDecompressor) :
  words_ok ->
  audio_inv (SetupAudioDecodePtrs d) /\ consumed (SetupAudioDecodePtrs d) = 0.
Proof.
  intros Hw. unfold audio_inv, consumed, SetupAudioDecodePtrs.
  cbn [mUsedBits mWorkBits mAudioFrameDataPtr le_words].
  change (16 * Z.of_nat 2 - 32) with 0. change (2 ^ 0) with 1.
  rewrite Z.div_1_r. split; [|reflexivity]. split; [lia|]. split; [lia|].
  pose proof (Hw 0%nat). pose proof (Hw 1%nat).
  change (16 * Z.of_nat 0) with 0. change (16 * Z.of_nat 1) with 16.
  rewrite Z.shiftl_mul_pow2, Z.lor_comm by lia.
  rewrite Vlc.lor_disjoint by (change (2 ^ 16) with 65536; lia).
  change (2 ^ 16) with 65536. change (2 ^ 0) with 1.
  rewrite u32_id by lia. lia.
Qed.

(** From the start of a frame of 16-bit words, and after any sequence of
    reads: a read of [n] bits (0 to 16) returns the next [n] bits of the
    frame, taken least significant bit first from the little-endian words
    and converted to [s16], and moves the read position by exactly [n]
    bits; the position starts at bit 0. *)
Theorem NextSoundBits_reads_stream (n : Z) (d : AudioDecompressor) :
  words_ok ->
  (audio_inv (SetupAudioDecodePtrs d) /\
   consumed (SetupAudioDecodePtrs d) = 0) /\
  (audio_inv d -> 0 <= n <= 16 ->
   fst (NextSoundBits n d)
     = s16 ((le_words (mAudioFrameDataPtr d) / 2 ^ consumed d) mod 2 ^ n) /\
   audio_inv (snd (NextSoundBits n d)) /\
   consumed (snd (NextSoundBits n d)) = consumed d + n).
Proof.
  intros Hw. split; [apply SetupAudioDecodePtrs_inv, Hw|].
  intros Hinv Hn.
  destruct (NextSoundBits_reads n d Hw Hinv Hn) as (A & B & C & _). auto.
Qed.

(** Between the two channels the reader moves to the next byte boundary:
    [SndRelated_sub_409650] skips the 0 to 7 bits that bring the number of
    consumed bits to a multiple of 8. *)
Theorem channel_starts_on_byte_boundary (d : AudioDecompressor) :
  words_ok -> audio_inv d ->
  let d' := SndRelated_sub_409650 d in
  audio_inv d' /\
  consumed d <= consumed d' < consumed d + 8 /\ consumed d' mod 8 = 0.
Proof. intros Hw Hinv. apply SndRelated_sub_409650_aligns; assumption. Qed.

(** Word [k] of the frame, read back from the stream. *)
Lemma le_words_word (p k : nat) :
  words_ok -> (k < p)%nat ->
  (le_words p / 2 ^ (16 * Z.of_nat k)) mod 2 ^ 16 = rawFrameBuffer k.
Proof.
  intros Hw. induction p as [|p IH]; intros Hk; [lia|]. cbn [le_words].
  pose proof (Vlc.pow2_pos (16 * Z.of_nat k) ltac:(lia)) as Hpk.
  destruct (Nat.eq_dec k p) as [->|Hne].
  - rewrite Z.div_add by lia.
    rewrite Z.div_small by (apply le_words_bound, Hw).
    apply Z.mod_small, Hw.
  - replace (16 * Z.of_nat p)
      with (16 * (Z.of_nat p - Z.of_nat k - 1) + 16 + 16 * Z.of_nat k) by lia.
    rewrite !Z.pow_add_r, !Z.mul_assoc, Z.div_add by lia.
    rewrite Z.mod_add by lia. apply IH. lia.
Qed.

(** A 16-bit read at a word boundary returns that word. *)
Lemma NextSoundBits_word (k : nat) (d : AudioDecompressor) :
  words_ok -> audio_inv d -> consumed d = 16 * Z.of_nat k ->
  fst (NextSoundBits 16 d) = s16 (rawFrameBuffer k) /\
  audio_inv (snd (NextSoundBits 16 d)) /\
  consumed (snd (NextSoundBits 16 d)) = 16 * Z.of_nat (S k) /\
  mAudioFrameSizeBytes (snd (NextSoundBits 16 d)) = mAudioFrameSizeBytes d.
Proof.
  intros Hw Hinv Hc.
  destruct (NextSoundBits_reads 16 d Hw Hinv ltac:(lia)) as (A & B & C & D).
  split; [|split; [exact B|split; [lia|exact D]]].
  rewrite A, Hc. f_equal. apply le_words_word; [exact Hw|].
  destruct Hinv as (HU & _ & _). unfold consumed in Hc. lia.
Qed.

Lemma u16_of_s16 (z : Z) : u16 (s16 z) = u16 z.
Proof.
  unfold u16, s16. rewrite Zminus_mod, Z.mod_mod by lia.
  rewrite <- Zminus_mod. f_equal. lia.
Qed.

(** One 16-bit read at a word boundary, in the goal. *)
Ltac read_word Hw v d' A I C Sz :=
  match goal with
  | Hinv : audio_inv ?d, Hc : consumed ?d = 16 * Z.of_nat ?k
    |- context [NextSoundBits 16 ?d] =>
      destruct (NextSoundBits_word k d Hw Hinv Hc) as (A & I & C & Sz);
      destruct (NextSoundBits 16 d) as [v d'];
      cbn [fst snd] in A, I, C, Sz; clear Hinv Hc
  end.

(** The seven header words of a channel that starts at word [k]: a flag,
    three widths and the three seed samples, which are stored as they are. *)
Lemma decode_16bit_audio_frame_seeds (out numSamplesPerFrame : Z)
    (isLast : bool) (d : AudioDecompressor) (o : pcm) (k : nat) :
  words_ok -> audio_inv d -> consumed d = 16 * Z.of_nat k ->
  0 < mAudioFrameSizeBytes d ->
  let r := decode_16bit_audio_frame out numSamplesPerFrame isLast d o in
  let st := mAudioFrameSizeBytes d in
  cells (snd r) out = rawFrameBuffer (k + 4) /\
  cells (snd r) (out + st) = rawFrameBuffer (k + 5) /\
  cells (snd r) (out + st + st) = rawFrameBuffer (k + 6).
Proof.
  intros Hw Hinv Hc Hst r st. subst r.
  unfold decode_16bit_audio_frame.
  read_word Hw useTableFlag d0 A0 I0 C0 Q0.
  read_word Hw firstWord d1 A1 I1 C1 Q1.
  read_word Hw secondWord d2 A2 I2 C2 Q2.
  read_word Hw thirdWord d3 A3 I3 C3 Q3.
  read_word Hw previous1 d4 A4 I4 C4 Q4.
  read_word Hw previous2 d5 A5 I5 C5 Q5.
  read_word Hw previous3 d6 A6 I6 C6 Q6.
  replace (S (S (S (S k)))) with (k + 4)%nat in * by lia.
  replace (S (k + 4)) with (k + 5)%nat in * by lia.
  replace (S (k + 5)) with (k + 6)%nat in * by lia.
  fold st in Q0.
  assert (E4 : mAudioFrameSizeBytes d4 = st) by congruence.
  assert (E5 : mAudioFrameSizeBytes d5 = st) by congruence.
  assert (E6 : mAudioFrameSizeBytes d6 = st) by congruence.
  rewrite E4, E5, E6.
  set (o3 := store (out + st + st) previous3
              (store (out + st) previous2 (store out previous1 o))).
  assert (H3 : cells o3 out = rawFrameBuffer (k + 4) /\
               cells o3 (out + st) = rawFrameBuffer (k + 5) /\
               cells o3 (out + st + st) = rawFrameBuffer (k + 6)).
  { subst o3. cbn [store cells].
    rewrite A4, A5, A6, !u16_of_s16, !u16_id by apply Hw.
    rewrite !Z.eqb_refl.
    destruct (Z.eqb_spec out (out + st + st)); [lia|].
    destruct (Z.eqb_spec out (out + st)); [lia|].
    destruct (Z.eqb_spec (out + st) (out + st + st)); [lia|]. auto. }
  match goal with
  | |- context [if 3 <? numSamplesPerFrame then ?a else ?b] =>
      destruct (Z.ltb_spec 3 numSamplesPerFrame) as [Hn|Hn];
      [destruct a as [[d7 l7] o7] eqn:E|]
  end.
  - destruct (sample_loop_grows _ _ _ _ _ _ _ _ _ _ _ E) as (_ & _ & Hk).
    cbn [outPtr] in Hk. rewrite E6 in Hk. cbn [snd].
    rewrite !Hk; [exact H3|..]; rewrite in_strided;
      intros (j & Hj & He); nia.
  - cbn [snd]. exact H3.
Qed.

(** For a frame of 16-bit words: words 0 to 3 are the table flag and the
    three residual widths of the first channel, and words 4, 5 and 6 are its
    three seed samples, which [decode_audio_frame] leaves unchanged in the
    first three samples of the first channel (positions 0, 2 and 4 of the
    interleaved output), whatever the rest of the frame decodes to. *)
Theorem seed_samples_verbatim (outBuffer : Z -> Z) (numSamplesPerFrame : Z) :
  words_ok ->
  let r := decode_audio_frame outBuffer numSamplesPerFrame in
  cells (snd r) 0 = rawFrameBuffer 4 /\
  cells (snd r) 2 = rawFrameBuffer 5 /\
  cells (snd r) 4 = rawFrameBuffer 6.
Proof.
  intros Hw r. subst r.
  unfold decode_audio_frame, decode_audio_frame_steps. cbv zeta. cbn [snd].
  set (d0 := SetupAudioDecodePtrs (SetAudioFrameSizeBytesAndBits 2 (mkAD 0 0 0 0))).
  set (o0 := memset0 _ _).
  destruct (SetupAudioDecodePtrs_inv
              (SetAudioFrameSizeBytesAndBits 2 (mkAD 0 0 0 0)) Hw) as [Hinv Hc].
  fold d0 in Hinv, Hc.
  pose proof (decode_16bit_audio_frame_seeds 0 numSamplesPerFrame false d0 o0
                0%nat Hw Hinv Hc ltac:(cbn; lia)) as H1.
  pose proof (decode_16bit_audio_frame_grows 0
                numSamplesPerFrame false d0 o0) as (Hs & _).
  cbv zeta in H1.
  destruct (decode_16bit_audio_frame 0 numSamplesPerFrame false d0 o0)
    as [d1 o1].
  cbn [fst snd] in H1, Hs. cbn [fst snd].
  change (mAudioFrameSizeBytes d0) with 2 in H1, Hs.
  change (0 + 2) with 2 in H1. change (2 + 2) with 4 in H1.
  rewrite Hs. cbn [Z.eqb Pos.eqb].
  pose proof (decode_16bit_audio_frame_grows (0 + 1)
                numSamplesPerFrame true d1 o1) as (_ & _ & Hk).
  rewrite Hs in Hk.
  rewrite !Hk; [exact H1|..]; rewrite in_strided;
    intros (j & Hj & He); lia.
Qed.

Lemma SampleMatches_16_check :
  forallb (fun s => fst (SampleMatches s 16)) (zrange (-32768) 32768) = true.
Proof. vm_cast_no_check (eq_refl true). Qed.

(** With a first width of 16 bits no field is refused: the residual reader
    always takes the first field and never reads with the second or the
    third width (the field [0x8000] is accepted, as 0). *)
Theorem full_width_residual_is_never_refused (secondWord thirdWord : Z)
    (d : AudioDecompressor) :
  read_residual 16 secondWord thirdWord d
  = (snd (SampleMatches (fst (NextSoundBits 16 d)) 16),
     snd (NextSoundBits 16 d)) /\
  SampleMatches (s16 0x8000) 16 = (true, 0).
Proof.
  split; [|vm_compute; reflexivity].
  unfold read_residual. change (u16 16) with 16.
  destruct (NextSoundBits_spec 16 d) as [_ Hr].
  destruct (NextSoundBits 16 d) as [s d']. cbn [fst snd] in *.
  pose proof (forall_zrange _ _ _ SampleMatches_16_check s Hr) as Hok.
  cbv beta in Hok. revert Hok.
  destruct (SampleMatches s 16) as [ok v]. cbn [fst snd].
  intros ->. reflexivity.
Qed.

End Frame.

(** *** A small instance: a frame of zero words *)

Definition silent_frame : nat -> Z := fun _ => 0.

(** C3, the sentence as the specification words it fails: for
    [samplesPerFrame = 2] each channel still receives its three seed samples
    (positions 0, 2, 4 and 1, 3, 5), not two (positions 0, 2 and 1, 3). *)
Lemma three_seeds_for_two_samples :
  map fst (stores (snd (decode_audio_frame silent_frame (fun _ => 0) 2)))
  = [0; 2; 4; 1; 3; 5] /\
  map fst (stores (snd (decode_audio_frame silent_frame (fun _ => 0) 2)))
  <> strided 2 0 2 ++ strided 2 1 2.
Proof. split; [vm_compute; reflexivity|vm_compute; discriminate]. Qed.

(** An instance of C3: four samples per frame. *)
Lemma audio_samples_per_channel_witness :
  map fst (stores (snd (decode_audio_frame silent_frame (fun _ => 0) 4)))
  = strided 4 0 2 ++ strided 4 1 2.
Proof.
  exact (proj2 (proj2 (audio_samples_per_channel silent_frame (fun _ => 0) 4))).
Defined.




(** Witness for C10: with four samples per frame and a buffer that held
    [0xBEEF] everywhere, position 1 holds 0 after the decode of the first
    channel. *)
Lemma audio_zero_fill_witness :
  cells (snd (snd (fst (decode_audio_frame_steps silent_frame
                          (fun _ => 0xBEEF) 4)))) 1 = 0.
Proof.
  refine (proj2 (proj2 (proj1 (proj2 (audio_zero_fill silent_frame
            (fun _ => 0xBEEF) 4 _)))) 0 _); lia.
Defined.



(** *** A small instance: one channel header

    Flag 1, three widths of 4 bits, the seeds 100, 200 and 300, and one more
    word. *)

Definition example_audio : nat -> Z :=
  fun i => nth i [1; 4; 4; 4; 100; 200; 300; 0x1234] 0.

Lemma example_audio_ok : words_ok example_audio.
Proof.
  intros i. unfold example_audio.
  do 8 (destruct i as [|i]; [cbn; lia|]). destruct i; cbn; lia.
Qed.

(** An instance: the first 12 bits of the example frame. *)
Lemma NextSoundBits_reads_stream_witness :
  fst (NextSoundBits example_audio 12
         (SetupAudioDecodePtrs example_audio (mkAD 0 0 2 0)))
  = s16 ((le_words example_audio 2 / 2 ^ 0) mod 2 ^ 12).
Proof.
  destruct (NextSoundBits_reads_stream example_audio 12 (mkAD 0 0 2 0)
              example_audio_ok) as [[Hinv _] _].
  destruct (NextSoundBits_reads_stream example_audio 12
              (SetupAudioDecodePtrs example_audio (mkAD 0 0 2 0))
              example_audio_ok) as [_ H].
  exact (proj1 (H Hinv ltac:(lia))).
Defined.

(** An instance: after 12 bits the reader moves on to bit 16. *)
Lemma channel_starts_on_byte_boundary_witness :
  consumed
    (SndRelated_sub_409650 example_audio
       (snd (NextSoundBits example_audio 12
               (SetupAudioDecodePtrs example_audio (mkAD 0 0 2 0)))))
  mod 8 = 0.
Proof.
  refine (proj2 (proj2 (channel_starts_on_byte_boundary example_audio
            (snd (NextSoundBits example_audio 12
                    (SetupAudioDecodePtrs example_audio (mkAD 0 0 2 0))))
            example_audio_ok _))).
  apply NextSoundBits_reads; [exact example_audio_ok| |lia].
  apply SetupAudioDecodePtrs_inv, example_audio_ok.
Defined.

(** An instance: the second seed of the example frame. *)
Lemma seed_samples_verbatim_witness :
  cells (snd (decode_audio_frame example_audio (fun _ => 0) 3)) 2 = 200.
Proof.
  exact (proj1 (proj2 (seed_samples_verbatim example_audio (fun _ => 0) 3
                         example_audio_ok))).
Defined.

End Audio.

(** ** Macroblock assembly and blit: [ConvertYuvToRgbAndBlit] and
       [Masher::ParseVideoFrame]

    The pixel buffer is a map from cell index to 32-bit pixel together with
    the list of [SetElement] calls made, in order, each recorded by its
    [(x, y)].  The [f32] arithmetic of the colour conversion is outside the
    embedding: the three channel bytes are given by functions of the
    [(Y, Cb, Cr)] triple. *)

Module Blit.
Import Dequant.

Record Macroblock_YCbCr_Struct := mkYCbCr { Y : Z; Cb : Z; Cr : Z }.

(** [std::array<std::array<Macroblock_YCbCr_Struct, 16>, 16>], indexed
    [[x][y]]. *)
Definition grid := Z -> Z -> Macroblock_YCbCr_Struct.

Definition upd (g : grid) (x y : Z)
    (f : Macroblock_YCbCr_Struct -> Macroblock_YCbCr_Struct) : grid :=
  fun x' y' => if (x' =? x) && (y' =? y) then f (g x' y') else g x' y'.

Definition set_Y (v : Z) (c : Macroblock_YCbCr_Struct) := mkYCbCr v (Cb c) (Cr c).
Definition set_Cb (v : Z) (c : Macroblock_YCbCr_Struct) := mkYCbCr (Y c) v (Cr c).
Definition set_Cr (v : Z) (c : Macroblock_YCbCr_Struct) := mkYCbCr (Y c) (Cb c) v.

(** The six static blocks filled by [idct]. *)
Record blocks := mkBlocks {
  Cr_block : list Z;
  Cb_block : list Z;
  Y1_block : list Z;
  Y2_block : list Z;
  Y3_block : list Z;
  Y4_block : list Z
}.

Definition To1d (x y : Z) : Z := y * 8 + x.

Definition blk (b : list Z) (i : Z) : Z := default 0 (b !! Z.to_nat i).

(** Body of the first pair of loops ([x], [y] below 8). *)
Definition assemble_cell (bl : blocks) (g : grid) (x y : Z) : grid :=
  let g := upd g x y (set_Y (blk (Y1_block bl) (To1d x y))) in
  let g := upd g (x + 8) y (set_Y (blk (Y2_block bl) (To1d x y))) in
  let g := upd g x (y + 8) (set_Y (blk (Y3_block bl) (To1d x y))) in
  let g := upd g (x + 8) (y + 8) (set_Y (blk (Y4_block bl) (To1d x y))) in
  let g := upd g (x * 2) (y * 2) (set_Cb (blk (Cb_block bl) (To1d x y))) in
  let g := upd g (x * 2 + 1) (y * 2) (set_Cb (blk (Cb_block bl) (To1d x y))) in
  let g := upd g (x * 2) (y * 2 + 1) (set_Cb (blk (Cb_block bl) (To1d x y))) in
  let g := upd g (x * 2 + 1) (y * 2 + 1) (set_Cb (blk (Cb_block bl) (To1d x y))) in
  let g := upd g (x * 2) (y * 2) (set_Cr (blk (Cr_block bl) (To1d x y))) in
  let g := upd g (x * 2 + 1) (y * 2) (set_Cr (blk (Cr_block bl) (To1d x y))) in
  let g := upd g (x * 2) (y * 2 + 1) (set_Cr (blk (Cr_block bl) (To1d x y))) in
  let g := upd g (x * 2 + 1) (y * 2 + 1) (set_Cr (blk (Cr_block bl) (To1d x y))) in
  g.

(** [for (a = 0; a < n; a++) for (b = 0; b < n; b++) body], the state being
    threaded through. *)
Definition for2 {S : Type} (n : Z) (body : S -> Z -> Z -> S) (s : S) : S :=
  fold_left (fun s a => fold_left (fun s b => body s a b) (zrange 0 n) s)
            (zrange 0 n) s.

Definition assemble (bl : blocks) : grid :=
  for2 8 (assemble_cell bl) (fun _ _ => mkYCbCr 0 0 0).

Record pixels := mkPixels {
  pix : Z -> Z;
  writes : list (Z * Z)
}.

(** The index [(width * y) + x] that [SetElement] computes, in [int]
    arithmetic. *)
Definition element_index (width x y : Z) : Z := s32 (s32 (width * y) + x).

(** [SetElement(x, y, width, ptr, value)]: [ptr[(width * y) + x] = value]. *)
Definition SetElement (x y width : Z) (value : Z) (p : pixels) : pixels :=
  mkPixels (fun i => if i =? element_index width x y then value else pix p i)
           (writes p ++ [(x, y)]).

(** In a frame of at most [2 ^ 31] pixels the index of a pixel of the frame
    is [width * y + x]: the [int] arithmetic does not wrap. *)
Lemma element_index_in_frame (width height x y : Z) :
  width * height <= 2 ^ 31 -> 0 <= x < width -> 0 <= y < height ->
  element_index width x y = width * y + x /\
  0 <= width * y + x < width * height.
Proof.
  intros Hs Hx Hy. unfold element_index.
  change (2 ^ 31) with 2147483648 in Hs.
  assert (0 <= width * y) by nia.
  assert (width * y + x < width * height) by nia.
  rewrite (s32_id (width * y)) by lia. rewrite s32_id by lia. lia.
Qed.

(** The number of macroblocks along a side of [size] pixels, as
    [Masher::Read] computes it. *)
Definition macroblock_count (size : Z) : Z :=
  let n := size / 16 in
  if negb (size mod 16 =? 0) then n + 1 else n.

Section Colour.

(** [Clamp] of the three [f32] formulas. *)
Variables red green blue : Macroblock_YCbCr_Struct -> Z.

(** Body of the second pair of loops ([x], [y] below 16). *)
Definition blit_pixel (g : grid) (xoff yoff width height : Z) (p : pixels)
    (x y : Z) : pixels :=
  let c := g x y in
  let xpos := s32 (x + xoff) in
  let ypos := s32 (y + yoff) in
  if (xpos <? width) && (ypos <? height) then
    let pixelValue := 0 in
    let pixelValue := u32 (u32 (Z.shiftl pixelValue 8) + u8 (blue c)) in
    let pixelValue := u32 (u32 (Z.shiftl pixelValue 8) + u8 (green c)) in
    let pixelValue := u32 (u32 (Z.shiftl pixelValue 8) + u8 (red c)) in
    SetElement xpos ypos width pixelValue p
  else p.

Definition ConvertYuvToRgbAndBlit (bl : blocks) (pixelBuffer : pixels)
    (xoff yoff width height : Z) : pixels :=
  let Macroblock_YCbCr := assemble bl in
  for2 16 (blit_pixel Macroblock_YCbCr xoff yoff width height) pixelBuffer.

(** The members of [Masher] and the static arrays that
    [ParseVideoFrame] reads and writes. *)
Record video := mkVideo {
  mNumMacroblocksX : Z;
  mNumMacroblocksY : Z;
  mWidth : Z;
  mHeight : Z;
  mVideoFrameData : list Z;
  mDecodedVideoFrameData : list Z;
  mMacroBlockBuffer : list Z;
  quant : quant_buffers;
  scratch : blocks
}.

(** The loop-carried variables of the macroblock loops. *)
Record cursor := mkCursor {
  bitstreamCurPos : list Z;
  block1Output : nat;
  macroBlockBuffer : list Z;
  cur_blocks : blocks
}.

(** [ddv_func7_DecodeMacroBlock_impl] followed by [idct] on the block it
    filled; the next block starts [dataSizeBytes] [int16_t] elements, that
    is 128 slots, further.  [idct] reads the 64 slots of the block, so a
    block that does not fit in the buffer is a fault. *)
Definition decode_block (q : quant_buffers) (inPtr : list Z) (buf : list Z)
    (blockOutput : nat) (isYBlock : bool) (dst : list Z)
    : option (list Z * list Z * nat * list Z) :=
  '(buf, afterBlockPtr) ←
     Unpack.ddv_func7_DecodeMacroBlock_impl q inPtr buf blockOutput isYBlock;
  if (blockOutput + 64 <=? length buf)%nat then
    let input := take 64 (drop blockOutput buf) in
    Some (afterBlockPtr, buf, (blockOutput + 128)%nat, Idct.idct input dst)
  else None.

(** The six decodes at the top of the inner loop body. *)
Definition decode_macroblock (q : quant_buffers) (c : cursor) : option cursor :=
  let bl := cur_blocks c in
  '(p, buf, out, cr) ←
     decode_block q (bitstreamCurPos c) (macroBlockBuffer c) (block1Output c)
       false (Cr_block bl);
  '(p, buf, out, cb) ← decode_block q p buf out false (Cb_block bl);
  '(p, buf, out, y1) ← decode_block q p buf out true (Y1_block bl);
  '(p, buf, out, y2) ← decode_block q p buf out true (Y2_block bl);
  '(p, buf, out, y3) ← decode_block q p buf out true (Y3_block bl);
  '(p, buf, out, y4) ← decode_block q p buf out true (Y4_block bl);
  Some (mkCursor p out buf (mkBlocks cr cb y1 y2 y3 y4)).

(** [for (yBlock ...)] with [n] iterations left. *)
Fixpoint yBlock_loop (n : nat) (q : quant_buffers) (width height : Z)
    (xoff yoff : Z) (c : cursor) (pixelBuffer : pixels)
    : option (cursor * pixels) :=
  match n with
  | O => Some (c, pixelBuffer)
  | S n' =>
      c ← decode_macroblock q c;
      let pixelBuffer :=
        ConvertYuvToRgbAndBlit (cur_blocks c) pixelBuffer xoff yoff width
          height in
      yBlock_loop n' q width height xoff (s32 (yoff + 16)) c pixelBuffer
  end.

(** [for (xBlock ...)] with [n] iterations left. *)
Fixpoint xBlock_loop (n : nat) (ny : nat) (q : quant_buffers)
    (width height : Z) (xoff : Z) (c : cursor) (pixelBuffer : pixels)
    : option (cursor * pixels) :=
  match n with
  | O => Some (c, pixelBuffer)
  | S n' =>
      '(c, pixelBuffer) ← yBlock_loop ny q width height xoff 0 c pixelBuffer;
      xBlock_loop n' ny q width height (s32 (xoff + 16)) c pixelBuffer
  end.

Section Tables.

Variable gTbl1 : Z -> Tbl1.entry.
Variable gTbl2 : Z -> Tbl2.entry.

(** [decode_bitstream] writes its words from the start of
    [mDecodedVideoFrameData], whose later words keep their old contents. *)
Definition write_decoded (emitted old : list Z) : option (list Z) :=
  if (length emitted <=? length old)%nat
  then Some (emitted ++ drop (length emitted) old)
  else None.

Definition ParseVideoFrame (fuel : nat) (v : video) (pixelBuffer : pixels)
    : option (video * pixels) :=
  if (mNumMacroblocksX v <=? 0) || (mNumMacroblocksY v <=? 0)
  then Some (v, pixelBuffer)
  else
    '(quantScale, emitted) ←
       Vlc.decode_bitstream gTbl1 gTbl2 (mVideoFrameData v) fuel;
    decoded ← write_decoded emitted (mDecodedVideoFrameData v);
    let q := after_block_decode_no_effect_q_impl quantScale (quant v) in
    let c := mkCursor decoded 0 (mMacroBlockBuffer v) (scratch v) in
    '(c, pixelBuffer) ←
       xBlock_loop (Z.to_nat (mNumMacroblocksX v))
         (Z.to_nat (mNumMacroblocksY v)) q (mWidth v) (mHeight v) 0 c
         pixelBuffer;
    Some (mkVideo (mNumMacroblocksX v) (mNumMacroblocksY v) (mWidth v)
            (mHeight v) (mVideoFrameData v) decoded (macroBlockBuffer c) q
            (cur_blocks c),
          pixelBuffer).

End Tables.

(** *** Which pixels a frame writes *)

Definition pos_dec (p q : Z * Z) : {p = q} + {p <> q}.
Proof. decide equality; apply Z.eq_dec. Defined.

(** How often the pixel [p] is written in a list of writes. *)
Definition hits (p : Z * Z) (l : list (Z * Z)) : nat := count_occ pos_dec l p.

(** [k] is 1 when [c] holds and 0 otherwise. *)
Definition indicator (c : Prop) (k : nat) : Prop :=
  (c -> k = 1%nat) /\ (~ c -> k = 0%nat).

Lemma hits_app (p : Z * Z) (l1 l2 : list (Z * Z)) :
  hits p (l1 ++ l2) = (hits p l1 + hits p l2)%nat.
Proof. apply count_occ_app. Qed.

(** Iterations at offsets [a], [a + s], ... each writing the pixels whose
    coordinate [sel p] lies in their own window of width [s]. *)
Lemma hits_flat_map_strided (f : Z -> list (Z * Z)) (sel : Z) (Q : Prop)
    (s : Z) (p : Z * Z) (n : nat) (a : Z) :
  0 < s ->
  (forall k, 0 <= k < Z.of_nat n ->
     indicator (a + k * s <= sel < a + k * s + s /\ Q)
               (hits p (f (a + k * s)))) ->
  indicator (a <= sel < a + Z.of_nat n * s /\ Q)
            (hits p (flat_map f (strided n a s))).
Proof.
  intros Hs. revert a. induction n as [|n IH]; intros a Hf.
  - cbn. split; [lia|reflexivity].
  - cbn [strided flat_map]. rewrite hits_app.
    destruct (Hf 0 ltac:(lia)) as [F1 F0].
    replace (a + 0 * s) with a in * by lia.
    destruct (IH (a + s)) as [R1 R0].
    { intros k Hk. specialize (Hf (k + 1) ltac:(lia)).
      replace (a + (k + 1) * s) with (a + s + k * s) in Hf by lia. exact Hf. }
    split.
    + intros [Hsel HQ]. destruct (Z_lt_le_dec sel (a + s)).
      * rewrite F1, R0; [reflexivity|lia|split; [lia|assumption]].
      * rewrite F0, R1; [reflexivity|split; [lia|assumption]|lia].
    + intros Hn. rewrite F0, R0; [reflexivity|..];
        intros [Hsel HQ]; apply Hn; split; [lia|assumption|lia|assumption].
Qed.

Section Positions.

Variables width height : Z.

Definition in_bounds (p : Z * Z) : Prop :=
  0 <= fst p < width /\ 0 <= snd p < height.

(** [p'] is [p] after the calls [SetElement(x, y, width, ...)] for the
    [(x, y)] of [new], in order. *)
Definition pgrows (p p' : pixels) (new : list (Z * Z)) : Prop :=
  writes p' = writes p ++ new /\
  forall i, (forall x y, In (x, y) new -> i <> element_index width x y) ->
            pix p' i = pix p i.

Lemma pgrows_refl (p : pixels) : pgrows p p [].
Proof. split; [rewrite app_nil_r; reflexivity|reflexivity]. Qed.

Lemma pgrows_trans (p p' p'' : pixels) (l1 l2 : list (Z * Z)) :
  pgrows p p' l1 -> pgrows p' p'' l2 -> pgrows p p'' (l1 ++ l2).
Proof.
  intros [W1 C1] [W2 C2]. split.
  - rewrite W2, W1, app_assoc. reflexivity.
  - intros i Hi. rewrite C2, C1; [reflexivity|..];
      intros x y Hin; apply Hi, in_or_app; auto.
Qed.

Lemma fold_pgrows (body : pixels -> Z -> pixels) (f : Z -> list (Z * Z))
    (idxs : list Z) (p : pixels) :
  (forall p i, In i idxs -> pgrows p (body p i) (f i)) ->
  pgrows p (fold_left body idxs p) (flat_map f idxs).
Proof.
  revert p. induction idxs as [|i idxs IH]; intros p H; cbn [fold_left flat_map].
  - apply pgrows_refl.
  - eapply pgrows_trans; [apply H; left; reflexivity|].
    apply IH. intros p' j Hj. apply H. right. exact Hj.
Qed.

(** The pixel written for cell [(x, y)] of the macroblock at
    [(xoff, yoff)], if any. *)
Definition cell_positions (xoff yoff x y : Z) : list (Z * Z) :=
  if (x + xoff <? width) && (y + yoff <? height) then [(x + xoff, y + yoff)]
  else [].

Definition mb_positions (xoff yoff : Z) : list (Z * Z) :=
  flat_map (fun x => flat_map (cell_positions xoff yoff x) (zrange 0 16))
           (zrange 0 16).

Lemma in_zrange_inv (lo hi x : Z) : In x (zrange lo hi) -> lo <= x < hi.
Proof.
  unfold zrange. rewrite zcount_strided, in_strided.
  intros (k & Hk & ->). lia.
Qed.

Lemma blit_pixel_pgrows (g : grid) (xoff yoff : Z) (p : pixels) (x y : Z) :
  0 <= xoff < 2 ^ 30 -> 0 <= yoff < 2 ^ 30 -> 0 <= x < 16 -> 0 <= y < 16 ->
  pgrows p (blit_pixel g xoff yoff width height p x y)
    (cell_positions xoff yoff x y).
Proof.
  intros Hx Hy Hx' Hy'. unfold blit_pixel, cell_positions. cbv zeta.
  rewrite !s32_id by lia.
  destruct (_ && _); [|apply pgrows_refl].
  split; [reflexivity|]. intros i Hi. cbn [SetElement pix].
  destruct (Z.eqb_spec i (element_index width (x + xoff) (y + yoff)))
    as [->|]; [|reflexivity].
  exfalso. apply (Hi (x + xoff) (y + yoff)); [left|]; reflexivity.
Qed.

Lemma ConvertYuvToRgbAndBlit_pgrows (bl : blocks) (p : pixels) (xoff yoff : Z) :
  0 <= xoff < 2 ^ 30 -> 0 <= yoff < 2 ^ 30 ->
  pgrows p (ConvertYuvToRgbAndBlit bl p xoff yoff width height)
    (mb_positions xoff yoff).
Proof.
  intros Hx Hy. unfold ConvertYuvToRgbAndBlit, for2, mb_positions. cbv zeta.
  apply fold_pgrows. intros p1 x Hin. apply in_zrange_inv in Hin.
  apply fold_pgrows. intros p2 y Hin2. apply in_zrange_inv in Hin2.
  apply blit_pixel_pgrows; assumption.
Qed.

(** A macroblock writes exactly the pixels of its 16 by 16 window that lie
    inside the frame, once each. *)
Lemma hits_mb_positions (xoff yoff : Z) (p : Z * Z) :
  0 <= xoff -> 0 <= yoff ->
  indicator (xoff <= fst p < xoff + 16 /\
             (yoff <= snd p < yoff + 16 /\ in_bounds p))
            (hits p (mb_positions xoff yoff)).
Proof.
  intros Hx Hy. unfold mb_positions, zrange. rewrite zcount_strided.
  change (Z.to_nat (16 - 0)) with 16%nat.
  assert (Hcols : indicator
            (0 <= fst p - xoff < 0 + Z.of_nat 16 * 1 /\
             (yoff <= snd p < yoff + 16 /\ in_bounds p))
            (hits p (flat_map
               (fun x => flat_map (cell_positions xoff yoff x) (strided 16 0 1))
               (strided 16 0 1)))).
  { apply hits_flat_map_strided; [lia|]. intros x Hxr.
    assert (Hrows : indicator
              (0 <= snd p - yoff < 0 + Z.of_nat 16 * 1 /\
               (fst p = 0 + x * 1 + xoff /\ in_bounds p))
              (hits p (flat_map (cell_positions xoff yoff (0 + x * 1))
                         (strided 16 0 1)))).
    { apply hits_flat_map_strided; [lia|]. intros y Hyr.
      unfold cell_positions, in_bounds, hits. destruct p as [px py].
      cbn [fst snd].
      destruct (Z.ltb_spec (0 + x * 1 + xoff) width);
        destruct (Z.ltb_spec (0 + y * 1 + yoff) height); cbn [andb count_occ];
        try (split; [intros; lia|reflexivity]).
      destruct (pos_dec _ _) as [E|E].
      - injection E as <- <-. split; [reflexivity|]. intros Hn. exfalso. lia.
      - split; [|reflexivity]. intros Hc. exfalso. apply E. f_equal; lia. }
    destruct Hrows as [R1 R0]. unfold in_bounds in *. split.
    - intros Hc. apply R1. lia.
    - intros Hn. apply R0. lia. }
  destruct Hcols as [C1 C0]. unfold in_bounds in *. split.
  - intros Hc. apply C1. lia.
  - intros Hn. apply C0. lia.
Qed.

(** All macroblocks of the frame, column of macroblocks by column. *)
Definition frame_positions (nx ny : nat) : list (Z * Z) :=
  flat_map (fun xoff => flat_map (mb_positions xoff) (strided ny 0 16))
           (strided nx 0 16).

Lemma hits_frame_positions (nx ny : nat) (p : Z * Z) :
  indicator (0 <= fst p < Z.of_nat nx * 16 /\
             (0 <= snd p < Z.of_nat ny * 16 /\ in_bounds p))
            (hits p (frame_positions nx ny)).
Proof.
  unfold frame_positions.
  apply (hits_flat_map_strided _ (fst p) _ 16 p nx 0); [lia|]. intros kx Hkx.
  pose proof (hits_flat_map_strided (mb_positions (0 + kx * 16)) (snd p)
                (0 + kx * 16 <= fst p < 0 + kx * 16 + 16 /\ in_bounds p)
                16 p ny 0 ltac:(lia)) as Hcol.
  destruct Hcol as [C1 C0].
  { intros ky Hky.
    destruct (hits_mb_positions (0 + kx * 16) (0 + ky * 16) p
                ltac:(lia) ltac:(lia)) as [M1 M0].
    split; [intros Hc; apply M1|intros Hn; apply M0]; tauto. }
  split; [intros Hc; apply C1|intros Hn; apply C0]; tauto.
Qed.

End Positions.

Lemma yBlock_loop_pgrows (n : nat) (q : quant_buffers) (width height : Z)
    (xoff yoff : Z) (c c' : cursor) (p p' : pixels) :
  0 <= xoff < 2 ^ 30 -> 0 <= yoff -> yoff + 16 * Z.of_nat n <= 2 ^ 30 ->
  yBlock_loop n q width height xoff yoff c p = Some (c', p') ->
  pgrows width p p' (flat_map (mb_positions width height xoff) (strided n yoff 16)).
Proof.
  revert yoff c p. induction n as [|n IH]; intros yoff c p Hx Hy Hn;
    cbn [yBlock_loop strided flat_map].
  - intros [= <- <-]. apply pgrows_refl.
  - destruct (decode_macroblock q c) as [c1|]; cbn [mbind option_bind];
      [|discriminate].
    rewrite (s32_id (yoff + 16)) by lia. intros H.
    eapply pgrows_trans.
    + apply ConvertYuvToRgbAndBlit_pgrows; lia.
    + apply (IH (yoff + 16) _ _ Hx ltac:(lia) ltac:(lia) H).
Qed.

Lemma xBlock_loop_pgrows (n ny : nat) (q : quant_buffers) (width height : Z)
    (xoff : Z) (c c' : cursor) (p p' : pixels) :
  0 <= xoff -> xoff + 16 * Z.of_nat n <= 2 ^ 30 ->
  16 * Z.of_nat ny <= 2 ^ 30 ->
  xBlock_loop n ny q width height xoff c p = Some (c', p') ->
  pgrows width p p'
    (flat_map (fun xoff => flat_map (mb_positions width height xoff)
                             (strided ny 0 16))
              (strided n xoff 16)).
Proof.
  revert xoff c p. induction n as [|n IH]; intros xoff c p Hx Hn Hny;
    cbn [xBlock_loop strided flat_map].
  - intros [= <- <-]. apply pgrows_refl.
  - destruct (yBlock_loop ny q width height xoff 0 c p) as [[c1 p1]|] eqn:E;
      cbn [mbind option_bind]; [|discriminate].
    rewrite (s32_id (xoff + 16)) by lia. intros H.
    eapply pgrows_trans.
    + apply (yBlock_loop_pgrows ny q width height xoff 0 _ _ _ _ ltac:(lia)
               ltac:(lia) ltac:(lia) E).
    + apply (IH (xoff + 16) _ _ ltac:(lia) ltac:(lia) Hny H).
Qed.

Lemma macroblock_count_covers (size : Z) :
  0 <= size < 65536 ->
  0 <= macroblock_count size <= 4096 /\ size <= macroblock_count size * 16 /\
  (macroblock_count size <= 0 -> size = 0).
Proof.
  intros H. unfold macroblock_count. cbv zeta.
  pose proof (Z.div_mod size 16 ltac:(lia)).
  pose proof (Z.mod_pos_bound size 16 ltac:(lia)).
  destruct (Z.eqb_spec (size mod 16) 0); cbn [negb]; lia.
Qed.

(** *** Where the six blocks end up in the macroblock *)

(** The luma block that covers cell [(x, y)]. *)
Definition luma_block (bl : blocks) (x y : Z) : list Z :=
  if x <? 8
  then (if y <? 8 then Y1_block bl else Y3_block bl)
  else (if y <? 8 then Y2_block bl else Y4_block bl).

Lemma in_range_16 (x : Z) :
  0 <= x < 16 ->
  x = 0 \/ x = 1 \/ x = 2 \/ x = 3 \/ x = 4 \/ x = 5 \/ x = 6 \/ x = 7 \/
  x = 8 \/ x = 9 \/ x = 10 \/ x = 11 \/ x = 12 \/ x = 13 \/ x = 14 \/ x = 15.
Proof. lia. Qed.

(** The assembled macroblock is the 4:2:0 layout: for every cell [(x, y)] of
    the 16 by 16 grid, the luma is entry [(x mod 8, y mod 8)] of the block
    of its quadrant ([Y1] top left, [Y2] to its right, [Y3] below, [Y4]
    diagonal) and each chroma value is entry [(x / 2, y / 2)] of its block,
    so a chroma sample covers 2 by 2 cells. *)
Theorem assemble_layout (bl : blocks) (x y : Z) :
  0 <= x < 16 -> 0 <= y < 16 ->
  assemble bl x y
  = mkYCbCr (blk (luma_block bl x y) (To1d (x mod 8) (y mod 8)))
            (blk (Cb_block bl) (To1d (x / 2) (y / 2)))
            (blk (Cr_block bl) (To1d (x / 2) (y / 2))).
Proof.
  intros Hx Hy. apply in_range_16 in Hx. apply in_range_16 in Hy.
  repeat (destruct Hx as [->|Hx]); try subst x;
    repeat (destruct Hy as [->|Hy]); try subst y;
    vm_compute; reflexivity.
Qed.

(** An instance: six constant blocks, cell (9, 3). *)
Lemma assemble_layout_witness :
  assemble (mkBlocks (replicate 64 1) (replicate 64 2) (replicate 64 3)
              (replicate 64 4) (replicate 64 5) (replicate 64 6)) 9 3
  = mkYCbCr 4 2 1.
Proof.
  refine (assemble_layout (mkBlocks (replicate 64 1) (replicate 64 2)
            (replicate 64 3) (replicate 64 4) (replicate 64 5)
            (replicate 64 6)) 9 3 _ _); lia.
Defined.

(** *** The pixel a macroblock leaves in each cell *)

(** The iterations of [for2], in order. *)
Definition pairs (n : Z) : list (Z * Z) :=
  flat_map (fun a => map (pair a) (zrange 0 n)) (zrange 0 n).

Lemma fold_pairs {S : Type} (body : S -> Z -> Z -> S) (xs ys : list Z) (s : S) :
  fold_left (fun s a => fold_left (fun s b => body s a b) ys s) xs s
  = fold_left (fun s ab => body s (fst ab) (snd ab))
      (flat_map (fun a => map (pair a) ys) xs) s.
Proof.
  revert s. induction xs as [|a xs IH]; intros s.
  - reflexivity.
  - cbn [fold_left flat_map]. rewrite fold_left_app, <- IH. f_equal.
    generalize s. clear. induction ys as [|b ys IHy]; intros s.
    + reflexivity.
    + cbn [fold_left map]. apply IHy.
Qed.

Lemma for2_pairs {S : Type} (n : Z) (body : S -> Z -> Z -> S) (s : S) :
  for2 n body s = fold_left (fun s ab => body s (fst ab) (snd ab)) (pairs n) s.
Proof. apply fold_pairs. Qed.

Lemma in_pairs (n : Z) (ab : Z * Z) :
  In ab (pairs n) <-> 0 <= fst ab < n /\ 0 <= snd ab < n.
Proof.
  unfold pairs. rewrite in_flat_map. split.
  - intros (a & Ha & Hab). apply in_map_iff in Hab.
    destruct Hab as (b & <- & Hb). cbn [fst snd].
    apply in_zrange_inv in Ha, Hb. lia.
  - intros [Ha Hb]. exists (fst ab). split; [apply in_zrange; lia|].
    apply in_map_iff. exists (snd ab). split; [destruct ab; reflexivity|].
    apply in_zrange. lia.
Qed.


(** The pixel value built from the three channel bytes. *)
Definition packed (c : Macroblock_YCbCr_Struct) : Z :=
  u8 (blue c) * 65536 + u8 (green c) * 256 + u8 (red c).

Lemma blit_pixel_cases (g : grid) (xoff yoff width height : Z) (p : pixels)
    (x y : Z) :
  0 <= xoff < 2 ^ 30 -> 0 <= yoff < 2 ^ 30 -> 0 <= x < 16 -> 0 <= y < 16 ->
  let p' := blit_pixel g xoff yoff width height p x y in
  if (x + xoff <? width) && (y + yoff <? height)
  then forall i, pix p' i = if i =? element_index width (x + xoff) (y + yoff)
                            then packed (g x y) else pix p i
  else p' = p.
Proof.
  intros Hxo Hyo Hx Hy. unfold blit_pixel. cbv zeta.
  rewrite !s32_id by lia.
  destruct (_ && _); [|reflexivity].
  intros i. cbn [SetElement pix]. destruct (i =? _); [|reflexivity].
  unfold packed, u8, u32.
  pose proof (Z.mod_pos_bound (blue (g x y)) (2 ^ 8) ltac:(lia)).
  pose proof (Z.mod_pos_bound (green (g x y)) (2 ^ 8) ltac:(lia)).
  pose proof (Z.mod_pos_bound (red (g x y)) (2 ^ 8) ltac:(lia)).
  change (2 ^ 8) with 256 in *. change (2 ^ 32) with 4294967296.
  rewrite !Z.shiftl_mul_pow2 by lia. change (2 ^ 8) with 256.
  set (B := blue (g x y) mod 256) in *. set (G := green (g x y) mod 256) in *.
  set (R := red (g x y) mod 256) in *.
  change ((0 * 256) mod 4294967296) with 0. rewrite Z.add_0_l.
  rewrite (Z.mod_small B) by lia.
  rewrite (Z.mod_small (B * 256)) by lia.
  rewrite (Z.mod_small (B * 256 + G)) by lia.
  rewrite (Z.mod_small ((B * 256 + G) * 256)) by lia.
  rewrite (Z.mod_small ((B * 256 + G) * 256 + R)) by lia. lia.
Qed.

Section Macroblock.

Variables (g : grid) (xoff yoff width height : Z).
Hypothesis Hxoff : 0 <= xoff < 2 ^ 30.
Hypothesis Hyoff : 0 <= yoff < 2 ^ 30.
Hypothesis Hsize : width * height <= 2 ^ 31.

(** One iteration of the second pair of loops, on the pair of its indices. *)
Definition blit_at (p : pixels) (ab : Z * Z) : pixels :=
  blit_pixel g xoff yoff width height p (fst ab) (snd ab).

Definition visible (ab : Z * Z) : bool :=
  (fst ab + xoff <? width) && (snd ab + yoff <? height).

Definition cell (ab : Z * Z) : Z :=
  element_index width (fst ab + xoff) (snd ab + yoff).

Lemma cell_in_frame (ab : Z * Z) :
  0 <= fst ab -> 0 <= snd ab -> visible ab = true ->
  cell ab = width * (snd ab + yoff) + (fst ab + xoff).
Proof.
  unfold visible, cell. intros Ha Hb Hv. apply andb_true_iff in Hv.
  rewrite !Z.ltb_lt in Hv.
  apply (element_index_in_frame width height); [exact Hsize|lia|lia].
Qed.

Definition in_block (ab : Z * Z) : Prop := 0 <= fst ab < 16 /\ 0 <= snd ab < 16.

Lemma cell_inj (ab ab0 : Z * Z) :
  in_block ab -> in_block ab0 -> visible ab = true -> visible ab0 = true ->
  cell ab = cell ab0 -> ab = ab0.
Proof.
  intros Hb Hb0 Hv Hv0 He. unfold in_block in Hb, Hb0.
  rewrite !cell_in_frame in He by (assumption || lia).
  unfold visible in Hv, Hv0. destruct ab as [x y], ab0 as [x0 y0].
  cbn [fst snd] in *.
  apply andb_true_iff in Hv, Hv0.
  rewrite !Z.ltb_lt in Hv, Hv0.
  assert (Hy : y = y0) by nia. subst y0. f_equal. lia.
Qed.

Lemma fold_keeps_cell (l : list (Z * Z)) (p : pixels) (c : Z) :
  (forall ab, In ab l -> in_block ab) ->
  (forall ab, In ab l -> visible ab = true -> cell ab <> c) ->
  pix (fold_left blit_at l p) c = pix p c.
Proof.
  revert p. induction l as [|a l IH]; intros p Hin Hne; cbn [fold_left].
  - reflexivity.
  - rewrite IH;
      [ | intros ab Hab; apply Hin; right; exact Hab
        | intros ab Hab; apply Hne; right; exact Hab ].
    destruct (Hin a ltac:(left; reflexivity)) as [Hx Hy].
    pose proof (blit_pixel_cases g xoff yoff width height p (fst a) (snd a)
                  Hxoff Hyoff Hx Hy) as H.
    cbv zeta in H. fold (visible a) in H. fold (blit_at p a) in H.
    destruct (visible a) eqn:Hv; [|rewrite H; reflexivity].
    rewrite H. fold (cell a).
    destruct (Z.eqb_spec c (cell a)) as [->|]; [|reflexivity].
    exfalso. apply (Hne a); auto. left. reflexivity.
Qed.

Lemma fold_last_write (l : list (Z * Z)) (p : pixels) (ab0 : Z * Z) :
  (forall ab, In ab l -> in_block ab) ->
  In ab0 l -> visible ab0 = true ->
  pix (fold_left blit_at l p) (cell ab0) = packed (g (fst ab0) (snd ab0)).
Proof.
  revert p. induction l as [|a l IH]; intros p Hin H0 Hv; cbn [fold_left].
  - destruct H0.
  - destruct (in_dec pos_dec ab0 l) as [Hl|Hl].
    + apply IH; [intros; apply Hin; right|..]; assumption.
    + destruct H0 as [->|H0]; [|contradiction].
      rewrite fold_keeps_cell.
      * destruct (Hin ab0 ltac:(left; reflexivity)) as [Hx Hy].
        pose proof (blit_pixel_cases g xoff yoff width height p (fst ab0)
                      (snd ab0) Hxoff Hyoff Hx Hy) as H.
        cbv zeta in H. fold (visible ab0) in H. rewrite Hv in H.
        unfold blit_at. rewrite H. fold (cell ab0).
        rewrite Z.eqb_refl. reflexivity.
      * intros; apply Hin; right; assumption.
      * intros ab Hab Hvab He. apply Hl.
        rewrite <- (cell_inj ab ab0); auto.
        -- apply Hin. right. exact Hab.
        -- apply Hin. left. reflexivity.
Qed.

End Macroblock.

Lemma blit_leaves_pixel (bl : blocks) (pixelBuffer : pixels)
    (xoff yoff width height : Z) (x y : Z) :
  0 <= xoff < 2 ^ 30 -> 0 <= yoff < 2 ^ 30 ->
  width * height <= 2 ^ 31 ->
  0 <= x < 16 -> 0 <= y < 16 ->
  x + xoff < width -> y + yoff < height ->
  pix (ConvertYuvToRgbAndBlit bl pixelBuffer xoff yoff width height)
      (width * (y + yoff) + (x + xoff))
  = packed (assemble bl x y).
Proof.
  intros Hxo Hyo Hsize Hx Hy Hxw Hyh.
  assert (Hv : visible xoff yoff width height (x, y) = true).
  { unfold visible. cbn [fst snd]. apply andb_true_iff.
    rewrite !Z.ltb_lt. lia. }
  pose proof (cell_in_frame xoff yoff width height Hxo Hyo Hsize (x, y)
                ltac:(cbn; lia) ltac:(cbn; lia) Hv) as Hc.
  cbn [fst snd] in Hc. rewrite <- Hc.
  unfold ConvertYuvToRgbAndBlit. cbv zeta. rewrite for2_pairs.
  apply (fold_last_write (assemble bl) xoff yoff width height Hxo Hyo Hsize
           (pairs 16) pixelBuffer (x, y)).
  - intros ab Hab. apply in_pairs in Hab. exact Hab.
  - apply in_pairs. cbn [fst snd]. lia.
  - exact Hv.
Qed.

(** After the blit of a macroblock at [(xoff, yoff)] in a frame of at most
    [2 ^ 31] pixels (so that the [int] index of [SetElement] does not wrap),
    every cell [(x, y)] of the macroblock that falls inside the frame holds,
    at index [width * (y + yoff) + (x + xoff)] of the pixel buffer, the value
    [blue * 65536 + green * 256 + red] built from the three channel bytes of
    cell [(x, y)] of the assembled macroblock; the top byte is 0. *)
Theorem macroblock_pixels (bl : blocks) (pixelBuffer : pixels)
    (xoff yoff width height : Z) (x y : Z) :
  0 <= xoff < 2 ^ 30 -> 0 <= yoff < 2 ^ 30 ->
  width * height <= 2 ^ 31 ->
  0 <= x < 16 -> 0 <= y < 16 ->
  x + xoff < width -> y + yoff < height ->
  pix (ConvertYuvToRgbAndBlit bl pixelBuffer xoff yoff width height)
      (width * (y + yoff) + (x + xoff))
  = packed (assemble bl x y) /\
  0 <= packed (assemble bl x y) < 2 ^ 24.
Proof.
  intros Hxo Hyo Hsize Hx Hy Hxw Hyh. split.
  - apply (blit_leaves_pixel bl pixelBuffer xoff yoff width height x y);
      assumption.
  - unfold packed, u8. change (2 ^ 8) with 256. change (2 ^ 24) with 16777216.
    pose proof (Z.mod_pos_bound (blue (assemble bl x y)) 256 ltac:(lia)).
    pose proof (Z.mod_pos_bound (green (assemble bl x y)) 256 ltac:(lia)).
    pose proof (Z.mod_pos_bound (red (assemble bl x y)) 256 ltac:(lia)).
    lia.
Qed.

(** *** The pixels a frame leaves *)

(** The loop-carried variables after [k] more macroblocks. *)
Fixpoint cursor_after (k : nat) (q : quant_buffers) (c : cursor)
    : option cursor :=
  match k with
  | O => Some c
  | S k' => c ← decode_macroblock q c; cursor_after k' q c
  end.

Lemma cursor_after_add (a b : nat) (q : quant_buffers) (c : cursor) :
  cursor_after (a + b) q c = cursor_after a q c ≫= cursor_after b q.
Proof.
  revert c. induction a as [|a IH]; intros c; cbn [cursor_after Nat.add].
  - reflexivity.
  - destruct (decode_macroblock q c) as [c1|]; cbn [mbind option_bind];
      [apply IH|reflexivity].
Qed.

Lemma yBlock_loop_cursor (n : nat) (q : quant_buffers) (width height : Z)
    (xoff yoff : Z) (c c' : cursor) (p p' : pixels) :
  yBlock_loop n q width height xoff yoff c p = Some (c', p') ->
  cursor_after n q c = Some c'.
Proof.
  revert yoff c p. induction n as [|n IH]; intros yoff c p;
    cbn [yBlock_loop cursor_after].
  - intros [= <- <-]. reflexivity.
  - destruct (decode_macroblock q c) as [c1|]; cbn [mbind option_bind];
      [|discriminate]. apply IH.
Qed.

Lemma xBlock_loop_cursor (n ny : nat) (q : quant_buffers) (width height : Z)
    (xoff : Z) (c c' : cursor) (p p' : pixels) :
  xBlock_loop n ny q width height xoff c p = Some (c', p') ->
  cursor_after (n * ny) q c = Some c'.
Proof.
  revert xoff c p. induction n as [|n IH]; intros xoff c p;
    cbn [xBlock_loop Nat.mul].
  - intros [= <- <-]. reflexivity.
  - destruct (yBlock_loop ny q width height xoff 0 c p) as [[c1 p1]|] eqn:E;
      cbn [mbind option_bind]; [|discriminate].
    intros H. rewrite cursor_after_add, (yBlock_loop_cursor _ _ _ _ _ _ _ _ _ _ E).
    cbn [mbind option_bind]. apply (IH _ _ _ H).
Qed.

Lemma in_mb_positions (width height xoff yoff X Y : Z) :
  0 <= xoff -> 0 <= yoff ->
  In (X, Y) (mb_positions width height xoff yoff) ->
  xoff <= X < xoff + 16 /\ yoff <= Y < yoff + 16 /\ X < width /\ Y < height.
Proof.
  intros Hx Hy Hin. apply (count_occ_In pos_dec) in Hin.
  fold (hits (X, Y) (mb_positions width height xoff yoff)) in Hin.
  destruct (hits_mb_positions width height xoff yoff (X, Y) Hx Hy) as [_ H0].
  unfold in_bounds in H0. cbn [fst snd] in H0. lia.
Qed.

Lemma in_column_positions (width height xoff yoff X Y : Z) (n : nat) :
  0 <= xoff -> 0 <= yoff ->
  In (X, Y) (flat_map (mb_positions width height xoff) (strided n yoff 16)) ->
  xoff <= X < xoff + 16 /\ yoff <= Y /\ X < width /\ Y < height.
Proof.
  intros Hx Hy Hin. apply in_flat_map in Hin. destruct Hin as (yo & Hyo & Hin).
  apply in_strided in Hyo. destruct Hyo as (k & Hk & ->).
  apply in_mb_positions in Hin; lia.
Qed.

Lemma in_columns_positions (width height xoff X Y : Z) (n ny : nat) :
  0 <= xoff ->
  In (X, Y) (flat_map (fun xoff => flat_map (mb_positions width height xoff)
                                     (strided ny 0 16))
               (strided n xoff 16)) ->
  xoff <= X /\ 0 <= Y /\ X < width /\ Y < height.
Proof.
  intros Hx Hin. apply in_flat_map in Hin. destruct Hin as (xo & Hxo & Hin).
  apply in_strided in Hxo. destruct Hxo as (k & Hk & ->).
  apply in_column_positions in Hin; lia.
Qed.

(** Two pixels of a frame of at most [2 ^ 31] pixels have different
    indices. *)
Lemma frame_index_distinct (width height X Y X0 Y0 : Z) :
  width * height <= 2 ^ 31 ->
  0 <= X < width -> 0 <= Y < height -> 0 <= X0 < width -> 0 <= Y0 < height ->
  X <> X0 \/ Y <> Y0 ->
  width * Y0 + X0 <> element_index width X Y.
Proof.
  intros Hs HX HY HX0 HY0 Hne.
  destruct (element_index_in_frame width height X Y Hs HX HY) as [-> _].
  intros He. assert (Y = Y0) by nia. subst Y0. lia.
Qed.

Lemma yBlock_loop_pixels (n : nat) (q : quant_buffers) (width height : Z)
    (xoff yoff : Z) (c c' : cursor) (p p' : pixels) :
  width * height <= 2 ^ 31 ->
  0 <= xoff < 2 ^ 30 -> 0 <= yoff -> yoff + 16 * Z.of_nat n <= 2 ^ 30 ->
  yBlock_loop n q width height xoff yoff c p = Some (c', p') ->
  forall (j : nat) (x y : Z),
    (j < n)%nat -> 0 <= x < 16 -> 0 <= y < 16 ->
    x + xoff < width -> y + (yoff + 16 * Z.of_nat j) < height ->
    exists cj,
      cursor_after (S j) q c = Some cj /\
      pix p' (width * (y + (yoff + 16 * Z.of_nat j)) + (x + xoff))
      = packed (assemble (cur_blocks cj) x y).
Proof.
  intros Hs Hxo. revert yoff c p.
  induction n as [|n IH]; intros yoff c p Hyo Hn H j x y Hj Hx Hy Hxw Hyh;
    [lia|].
  cbn [yBlock_loop] in H.
  destruct (decode_macroblock q c) as [c1|] eqn:Ed; cbn [mbind option_bind] in H;
    [|discriminate].
  rewrite (s32_id (yoff + 16)) in H by lia.
  destruct j as [|j].
  - exists c1. split; [cbn [cursor_after]; rewrite Ed; reflexivity|].
    replace (yoff + 16 * Z.of_nat 0) with yoff in * by lia.
    destruct (yBlock_loop_pgrows n q width height xoff (yoff + 16) _ _ _ _
                Hxo ltac:(lia) ltac:(lia) H) as [_ Hkeep].
    rewrite Hkeep.
    + apply blit_leaves_pixel; assumption || lia.
    + intros X Y Hin. apply in_column_positions in Hin; try lia.
      apply (frame_index_distinct width height); lia.
  - destruct (IH (yoff + 16) c1 _ ltac:(lia) ltac:(lia) H j x y
                ltac:(lia) Hx Hy Hxw ltac:(lia)) as (cj & Hc & Hp).
    exists cj. split.
    + change (cursor_after (S (S j)) q c)
        with (decode_macroblock q c ≫= cursor_after (S j) q).
      rewrite Ed. exact Hc.
    + rewrite <- Hp. f_equal; lia.
Qed.

Lemma xBlock_loop_pixels (n ny : nat) (q : quant_buffers) (width height : Z)
    (xoff : Z) (c c' : cursor) (p p' : pixels) :
  width * height <= 2 ^ 31 ->
  0 <= xoff -> xoff + 16 * Z.of_nat n <= 2 ^ 30 ->
  16 * Z.of_nat ny <= 2 ^ 30 ->
  xBlock_loop n ny q width height xoff c p = Some (c', p') ->
  forall (i j : nat) (x y : Z),
    (i < n)%nat -> (j < ny)%nat -> 0 <= x < 16 -> 0 <= y < 16 ->
    x + (xoff + 16 * Z.of_nat i) < width -> y + 16 * Z.of_nat j < height ->
    exists ck,
      cursor_after (S (i * ny + j)) q c = Some ck /\
      pix p' (width * (y + 16 * Z.of_nat j) + (x + (xoff + 16 * Z.of_nat i)))
      = packed (assemble (cur_blocks ck) x y).
Proof.
  intros Hs. revert xoff c p.
  induction n as [|n IH];
    intros xoff c p Hxo Hn Hny H i j x y Hi Hj Hx Hy Hxw Hyh; [lia|].
  cbn [xBlock_loop] in H.
  destruct (yBlock_loop ny q width height xoff 0 c p) as [[c1 p1]|] eqn:E;
    cbn [mbind option_bind] in H; [|discriminate].
  rewrite (s32_id (xoff + 16)) in H by lia.
  destruct i as [|i].
  - replace (xoff + 16 * Z.of_nat 0) with xoff in * by lia.
    destruct (yBlock_loop_pixels ny q width height xoff 0 c c1 p p1 Hs
                ltac:(lia) ltac:(lia) ltac:(lia) E j x y Hj Hx Hy Hxw
                ltac:(lia)) as (cj & Hc & Hp).
    exists cj. split; [exact Hc|].
    destruct (xBlock_loop_pgrows n ny q width height (xoff + 16) _ _ _ _
                ltac:(lia) ltac:(lia) Hny H) as [_ Hkeep].
    rewrite Hkeep.
    + rewrite <- Hp. f_equal; lia.
    + intros X Y Hin. apply in_columns_positions in Hin; try lia.
      apply (frame_index_distinct width height); lia.
  - destruct (IH (xoff + 16) c1 p1 ltac:(lia) ltac:(lia) Hny H i j x y
                ltac:(lia) Hj Hx Hy ltac:(lia) Hyh) as (ck & Hc & Hp).
    exists ck. split.
    + replace (S (S i * ny + j)) with (ny + S (i * ny + j))%nat by lia.
      rewrite cursor_after_add, (yBlock_loop_cursor _ _ _ _ _ _ _ _ _ _ E).
      exact Hc.
    + rewrite <- Hp. f_equal; lia.
Qed.

(** *** Frames on which the decode completes *)

(** [n] blocks follow one another in the input. *)
Fixpoint well_formed (n : nat) (pInput : list Z) : bool :=
  match n with
  | O => true
  | S n' =>
      match Unpack.after_block pInput with
      | Some rest => well_formed n' rest
      | None => false
      end
  end.

Lemma well_formed_add (a b : nat) (pInput : list Z) :
  well_formed (a + b) pInput = true ->
  well_formed a pInput = true.
Proof.
  revert pInput. induction a as [|a IH]; intros pInput; cbn [well_formed Nat.add].
  - reflexivity.
  - destruct (Unpack.after_block pInput); [apply IH|discriminate].
Qed.

Lemma decode_block_some (q : quant_buffers) (inPtr buf : list Z)
    (blockOutput : nat) (isYBlock : bool) (dst rest : list Z) :
  length (g_252_buffer_unk_63580C q) = 64%nat ->
  length (g_252_buffer_unk_635A0C q) = 64%nat ->
  (blockOutput + 64 <= length buf)%nat ->
  Unpack.after_block inPtr = Some rest ->
  exists buf' dst',
    decode_block q inPtr buf blockOutput isYBlock dst
      = Some (rest, buf', (blockOutput + 128)%nat, dst') /\
    length buf' = length buf.
Proof.
  intros HY HC Hlen Hb. unfold decode_block.
  destruct (Unpack.unpack_block_some q inPtr buf blockOutput isYBlock rest
              HY HC Hlen Hb) as (b1 & -> & L1).
  cbn [mbind option_bind].
  destruct (Nat.leb_spec (blockOutput + 64) (length b1)); [|lia].
  eauto.
Qed.

(** The macroblock decode completes on six blocks that follow one another,
    with room for them in the macroblock buffer. *)
Lemma decode_macroblock_some (q : quant_buffers) (c : cursor) (m : nat) :
  length (g_252_buffer_unk_63580C q) = 64%nat ->
  length (g_252_buffer_unk_635A0C q) = 64%nat ->
  (block1Output c + 768 <= length (macroBlockBuffer c))%nat ->
  well_formed (6 + m) (bitstreamCurPos c) = true ->
  exists c',
    decode_macroblock q c = Some c' /\
    block1Output c' = (block1Output c + 768)%nat /\
    length (macroBlockBuffer c') = length (macroBlockBuffer c) /\
    well_formed m (bitstreamCurPos c') = true.
Proof.
  intros HY HC Hlen Hw. unfold decode_macroblock. cbv zeta.
  cbn [well_formed Nat.add] in Hw.
  destruct (Unpack.after_block (bitstreamCurPos c)) as [r1|] eqn:E1;
    [|discriminate].
  destruct (Unpack.after_block r1) as [r2|] eqn:E2; [|discriminate].
  destruct (Unpack.after_block r2) as [r3|] eqn:E3; [|discriminate].
  destruct (Unpack.after_block r3) as [r4|] eqn:E4; [|discriminate].
  destruct (Unpack.after_block r4) as [r5|] eqn:E5; [|discriminate].
  destruct (Unpack.after_block r5) as [r6|] eqn:E6; [|discriminate].
  destruct (decode_block_some q _ (macroBlockBuffer c) (block1Output c) false
              (Cr_block (cur_blocks c)) r1 HY HC ltac:(lia) E1)
    as (b1 & d1 & -> & L1).
  cbn [mbind option_bind].
  destruct (decode_block_some q r1 b1 (block1Output c + 128) false
              (Cb_block (cur_blocks c)) r2 HY HC ltac:(lia) E2)
    as (b2 & d2 & -> & L2).
  cbn [mbind option_bind].
  destruct (decode_block_some q r2 b2 (block1Output c + 128 + 128) true
              (Y1_block (cur_blocks c)) r3 HY HC ltac:(lia) E3)
    as (b3 & d3 & -> & L3).
  cbn [mbind option_bind].
  destruct (decode_block_some q r3 b3 (block1Output c + 128 + 128 + 128) true
              (Y2_block (cur_blocks c)) r4 HY HC ltac:(lia) E4)
    as (b4 & d4 & -> & L4).
  cbn [mbind option_bind].
  destruct (decode_block_some q r4 b4
              (block1Output c + 128 + 128 + 128 + 128) true
              (Y3_block (cur_blocks c)) r5 HY HC ltac:(lia) E5)
    as (b5 & d5 & -> & L5).
  cbn [mbind option_bind].
  destruct (decode_block_some q r5 b5
              (block1Output c + 128 + 128 + 128 + 128 + 128) true
              (Y4_block (cur_blocks c)) r6 HY HC ltac:(lia) E6)
    as (b6 & d6 & -> & L6).
  cbn [mbind option_bind].
  eexists. split; [reflexivity|].
  cbn [block1Output macroBlockBuffer bitstreamCurPos].
  split; [lia|]. split; [lia|exact Hw].
Qed.

Lemma cursor_after_some (k : nat) (q : quant_buffers) (c : cursor) :
  length (g_252_buffer_unk_63580C q) = 64%nat ->
  length (g_252_buffer_unk_635A0C q) = 64%nat ->
  (block1Output c + 768 * k <= length (macroBlockBuffer c))%nat ->
  well_formed (6 * k) (bitstreamCurPos c) = true ->
  exists c', cursor_after k q c = Some c'.
Proof.
  intros HY HC. revert c. induction k as [|k IH]; intros c Hlen Hw;
    cbn [cursor_after]; [eauto|].
  replace (6 * S k)%nat with (6 + 6 * k)%nat in Hw by lia.
  destruct (decode_macroblock_some q c (6 * k) HY HC ltac:(lia) Hw)
    as (c1 & -> & Ho & Hl & Hw1).
  cbn [mbind option_bind]. apply IH; [lia|exact Hw1].
Qed.

(** The two loops complete whenever the decodes of their macroblocks do:
    the blit itself never fails. *)
Lemma yBlock_loop_some (n : nat) (q : quant_buffers) (width height : Z)
    (xoff yoff : Z) (c c' : cursor) (p : pixels) :
  cursor_after n q c = Some c' ->
  exists p', yBlock_loop n q width height xoff yoff c p = Some (c', p').
Proof.
  revert yoff c p. induction n as [|n IH]; intros yoff c p;
    cbn [yBlock_loop cursor_after].
  - intros [= <-]. eauto.
  - destruct (decode_macroblock q c) as [c1|]; cbn [mbind option_bind];
      [|discriminate]. apply IH.
Qed.

Lemma xBlock_loop_some (n ny : nat) (q : quant_buffers) (width height : Z)
    (xoff : Z) (c c' : cursor) (p : pixels) :
  cursor_after (n * ny) q c = Some c' ->
  exists p', xBlock_loop n ny q width height xoff c p = Some (c', p').
Proof.
  revert xoff c p. induction n as [|n IH]; intros xoff c p;
    cbn [xBlock_loop Nat.mul].
  - intros [= <-]. eauto.
  - rewrite cursor_after_add.
    destruct (cursor_after ny q c) as [c1|] eqn:E; cbn [mbind option_bind];
      [|discriminate].
    intros H.
    destruct (yBlock_loop_some ny q width height xoff 0 c c1 p E) as (p1 & ->).
    cbn [mbind option_bind]. apply IH, H.
Qed.

Section Tables.

Variable gTbl1 : Z -> Tbl1.entry.
Variable gTbl2 : Z -> Tbl2.entry.

(** The six blocks decoded for macroblock [k] of the frame, the macroblocks
    being numbered in the order of the loops: down the first column, then
    down the second, and so on. *)
Definition macroblock_blocks (fuel : nat) (v : video) (k : nat)
    : option blocks :=
  '(quantScale, emitted) ←
     Vlc.decode_bitstream gTbl1 gTbl2 (mVideoFrameData v) fuel;
  decoded ← write_decoded emitted (mDecodedVideoFrameData v);
  let q := after_block_decode_no_effect_q_impl quantScale (quant v) in
  c ← cursor_after (S k) q
        (mkCursor decoded 0 (mMacroBlockBuffer v) (scratch v));
  Some (cur_blocks c).

(** The bitstream decoder returns on the frame data, its words fit the
    buffer they are written to, and in that buffer the blocks of all the
    macroblocks of the frame follow one another. *)
Definition well_formed_frame (fuel : nat) (v : video) : bool :=
  match Vlc.decode_bitstream gTbl1 gTbl2 (mVideoFrameData v) fuel with
  | Some (quantScale, emitted) =>
      match write_decoded emitted (mDecodedVideoFrameData v) with
      | Some decoded =>
          well_formed
            (6 * (Z.to_nat (mNumMacroblocksX v) * Z.to_nat (mNumMacroblocksY v)))
            decoded
      | None => false
      end
  | None => false
  end.

Lemma ParseVideoFrame_some (fuel : nat) (v : video) (pixelBuffer : pixels) :
  well_formed_frame fuel v = true ->
  length (g_252_buffer_unk_63580C (quant v)) = 64%nat ->
  length (g_252_buffer_unk_635A0C (quant v)) = 64%nat ->
  (768 * (Z.to_nat (mNumMacroblocksX v) * Z.to_nat (mNumMacroblocksY v))
   <= length (mMacroBlockBuffer v))%nat ->
  exists r, ParseVideoFrame gTbl1 gTbl2 fuel v pixelBuffer = Some r.
Proof.
  unfold well_formed_frame, ParseVideoFrame. intros Hw HY HC Hlen.
  destruct (_ || _); [eauto|].
  destruct (Vlc.decode_bitstream _ _ _ _) as [[quantScale emitted]|];
    [|discriminate]. cbn [mbind option_bind].
  destruct (write_decoded _ _) as [decoded|]; [|discriminate].
  cbn [mbind option_bind].
  destruct (after_block_decode_entries quantScale (quant v) HY HC)
    as (HY' & HC' & _).
  set (q := after_block_decode_no_effect_q_impl quantScale (quant v)) in *.
  set (c := mkCursor decoded 0 (mMacroBlockBuffer v) (scratch v)).
  destruct (cursor_after_some
              (Z.to_nat (mNumMacroblocksX v) * Z.to_nat (mNumMacroblocksY v))
              q c HY' HC' ltac:(cbn; lia) Hw) as (c' & Hc).
  destruct (xBlock_loop_some _ _ q (mWidth v) (mHeight v) 0 c c' pixelBuffer Hc)
    as (p' & ->).
  cbn [mbind option_bind]. eauto.
Qed.

Lemma ParseVideoFrame_effect (fuel : nat) (v v' : video)
    (pixelBuffer pixelBuffer' : pixels) :
  0 <= mWidth v < 65536 ->
  0 <= mHeight v < 65536 ->
  mNumMacroblocksX v = macroblock_count (mWidth v) ->
  mNumMacroblocksY v = macroblock_count (mHeight v) ->
  ParseVideoFrame gTbl1 gTbl2 fuel v pixelBuffer = Some (v', pixelBuffer') ->
  exists new,
    writes pixelBuffer' = writes pixelBuffer ++ new /\
    (forall x y, In (x, y) new -> 0 <= x < mWidth v /\ 0 <= y < mHeight v) /\
    (forall x y, 0 <= x < mWidth v -> 0 <= y < mHeight v ->
       hits (x, y) new = 1%nat) /\
    (mWidth v * mHeight v <= 2 ^ 31 ->
     (forall i, i < 0 \/ mWidth v * mHeight v <= i ->
        pix pixelBuffer' i = pix pixelBuffer i) /\
     (forall x y, 0 <= x < mWidth v -> 0 <= y < mHeight v ->
        exists bl,
          macroblock_blocks fuel v
            (Z.to_nat (x / 16 * mNumMacroblocksY v + y / 16)) = Some bl /\
          pix pixelBuffer' (mWidth v * y + x)
          = packed (assemble bl (x mod 16) (y mod 16)))).
Proof.
  intros Hw Hh Hnx Hny. unfold ParseVideoFrame, macroblock_blocks.
  destruct (macroblock_count_covers _ Hw) as (Bx & Cx & Zx).
  destruct (macroblock_count_covers _ Hh) as (By & Cy & Zy).
  rewrite Hnx, Hny.
  destruct ((macroblock_count (mWidth v) <=? 0)
            || (macroblock_count (mHeight v) <=? 0)) eqn:Hzero.
  - intros [= <- <-]. exists []. rewrite app_nil_r.
    apply orb_true_iff in Hzero.
    assert (Hempty : mWidth v = 0 \/ mHeight v = 0)
      by (destruct Hzero as [H|H]; apply Z.leb_le in H; lia).
    split; [reflexivity|]. split; [intros x y []|].
    split; [intros x y Hx Hy; lia|]. intros _.
    split; [reflexivity|intros x y Hx Hy; lia].
  - destruct (Vlc.decode_bitstream _ _ _ _) as [[quantScale emitted]|];
      cbn [mbind option_bind]; [|discriminate].
    destruct (write_decoded _ _) as [decoded|]; cbn [mbind option_bind];
      [|discriminate].
    match goal with
    | |- context [xBlock_loop ?n ?ny ?q ?w ?h 0 ?c pixelBuffer] =>
        destruct (xBlock_loop n ny q w h 0 c pixelBuffer) as [[c1 p1]|] eqn:E
    end; cbn [mbind option_bind]; [|discriminate].
    intros [= <- <-].
    pose proof E as Epix.
    apply xBlock_loop_pgrows in E; [|lia..].
    fold (frame_positions (mWidth v) (mHeight v)
            (Z.to_nat (macroblock_count (mWidth v)))
            (Z.to_nat (macroblock_count (mHeight v)))) in E.
    set (new := frame_positions _ _ _ _) in E.
    assert (Hhits : forall p,
      indicator
        (0 <= fst p < Z.of_nat (Z.to_nat (macroblock_count (mWidth v))) * 16 /\
         (0 <= snd p < Z.of_nat (Z.to_nat (macroblock_count (mHeight v))) * 16
          /\ in_bounds (mWidth v) (mHeight v) p))
        (hits p new)) by (intros p; apply hits_frame_positions).
    assert (Hin : forall x y, In (x, y) new ->
                    0 <= x < mWidth v /\ 0 <= y < mHeight v).
    { intros x y Hxy.
      apply (count_occ_In pos_dec) in Hxy. fold (hits (x, y) new) in Hxy.
      destruct (Hhits (x, y)) as [_ H0]. unfold in_bounds in H0.
      cbn [fst snd] in H0.
      destruct (Z_lt_le_dec x 0); [lia|].
      destruct (Z_lt_le_dec x (mWidth v)); [|lia].
      destruct (Z_lt_le_dec y 0); [lia|].
      destruct (Z_lt_le_dec y (mHeight v)); lia. }
    exists new. destruct E as [EW EC].
    split; [exact EW|]. split; [exact Hin|]. split.
    + intros x y Hx Hy. destruct (Hhits (x, y)) as [H1 _]. apply H1.
      unfold in_bounds. cbn [fst snd]. lia.
    + intros Hsize. split.
      * intros i Hi. apply EC. intros x y Hxy Heq.
        destruct (Hin x y Hxy) as [Hx Hy].
        destruct (element_index_in_frame _ _ x y Hsize Hx Hy) as [Hidx Hr].
        lia.
      * intros x y Hx Hy.
        pose proof (Z.div_mod x 16 ltac:(lia)) as Dx.
        pose proof (Z.mod_pos_bound x 16 ltac:(lia)) as Mx.
        pose proof (Z.div_mod y 16 ltac:(lia)) as Dy.
        pose proof (Z.mod_pos_bound y 16 ltac:(lia)) as My.
        assert (0 <= x / 16) by (apply Z.div_pos; lia).
        assert (0 <= y / 16) by (apply Z.div_pos; lia).
        pose proof (fun A B C =>
                      xBlock_loop_pixels _ _ _ _ _ _ _ _ _ _ Hsize A B C Epix)
          as Hpix.
        destruct (Hpix ltac:(lia) ltac:(lia) ltac:(lia)
                    (Z.to_nat (x / 16)) (Z.to_nat (y / 16)) (x mod 16)
                    (y mod 16) ltac:(lia) ltac:(lia) Mx My ltac:(lia)
                    ltac:(lia)) as (ck & Hck & Hp).
        replace (Z.to_nat (x / 16 * macroblock_count (mHeight v) + y / 16))
          with (Z.to_nat (x / 16) * Z.to_nat (macroblock_count (mHeight v))
                + Z.to_nat (y / 16))%nat by nia.
        rewrite Hck. cbn [mbind option_bind].
        exists (cur_blocks ck). split; [reflexivity|].
        rewrite <- Hp. f_equal; lia.
Qed.

(** C6. For a frame of [mWidth] by [mHeight] pixels (16-bit values, multiples
    of 16 or not) with the macroblock counts [Masher::Read] derives from
    them.  [ParseVideoFrame] completes whenever the bitstream decoder
    returns words that fit their buffer and in which the blocks of the
    macroblocks follow one another, the dequantisation arrays have their 64
    entries and the macroblock buffer has room for the blocks.  Whenever it
    completes: the [SetElement] calls it made all have [x < mWidth] and
    [y < mHeight] and every pixel with [x < mWidth] and [y < mHeight] was
    the subject of exactly one call; and, the frame having at most [2 ^ 31]
    pixels so that the [int] index of [SetElement] does not wrap, no cell
    outside the [mWidth * mHeight] cells of the frame was changed and the
    cell [mWidth * y + x] of every pixel of the frame holds the colour of
    cell [(x mod 16, y mod 16)] of the macroblock decoded for it, which no
    later macroblock has overwritten. *)
Theorem frame_pixels_written_once (fuel : nat) (v : video)
    (pixelBuffer : pixels) :
  0 <= mWidth v < 65536 ->
  0 <= mHeight v < 65536 ->
  mNumMacroblocksX v = macroblock_count (mWidth v) ->
  mNumMacroblocksY v = macroblock_count (mHeight v) ->
  (well_formed_frame fuel v = true ->
   length (g_252_buffer_unk_63580C (quant v)) = 64%nat ->
   length (g_252_buffer_unk_635A0C (quant v)) = 64%nat ->
   (768 * (Z.to_nat (mNumMacroblocksX v) * Z.to_nat (mNumMacroblocksY v))
    <= length (mMacroBlockBuffer v))%nat ->
   exists r, ParseVideoFrame gTbl1 gTbl2 fuel v pixelBuffer = Some r) /\
  (forall v' pixelBuffer',
     ParseVideoFrame gTbl1 gTbl2 fuel v pixelBuffer = Some (v', pixelBuffer') ->
     exists new,
       writes pixelBuffer' = writes pixelBuffer ++ new /\
       (forall x y, In (x, y) new ->
          0 <= x < mWidth v /\ 0 <= y < mHeight v) /\
       (forall x y, 0 <= x < mWidth v -> 0 <= y < mHeight v ->
          hits (x, y) new = 1%nat) /\
       (mWidth v * mHeight v <= 2 ^ 31 ->
        (forall i, i < 0 \/ mWidth v * mHeight v <= i ->
           pix pixelBuffer' i = pix pixelBuffer i) /\
        (forall x y, 0 <= x < mWidth v -> 0 <= y < mHeight v ->
           exists bl,
             macroblock_blocks fuel v
               (Z.to_nat (x / 16 * mNumMacroblocksY v + y / 16)) = Some bl /\
             pix pixelBuffer' (mWidth v * y + x)
             = packed (assemble bl (x mod 16) (y mod 16))))).
Proof.
  intros Hw Hh Hnx Hny. split.
  - apply ParseVideoFrame_some.
  - intros v' pixelBuffer'. apply ParseVideoFrame_effect; assumption.
Qed.

(** When [ParseVideoFrame] completes on a frame with macroblocks, the
    dequantisation tables it leaves are the ones
    [after_block_decode_no_effect_q_impl] builds for word 0 of the frame
    data, the frame's scale; the frame data and the dimensions are
    unchanged. *)
Theorem frame_scale_sets_tables (fuel : nat) (v v' : video)
    (pixelBuffer pixelBuffer' : pixels) :
  0 < mNumMacroblocksX v -> 0 < mNumMacroblocksY v ->
  ParseVideoFrame gTbl1 gTbl2 fuel v pixelBuffer = Some (v', pixelBuffer') ->
  exists quantScale,
    mVideoFrameData v !! 0%nat = Some quantScale /\
    quant v' = after_block_decode_no_effect_q_impl quantScale (quant v) /\
    mVideoFrameData v' = mVideoFrameData v /\
    mWidth v' = mWidth v /\ mHeight v' = mHeight v.
Proof.
  intros Hx Hy. unfold ParseVideoFrame.
  destruct (Z.leb_spec (mNumMacroblocksX v) 0); [lia|].
  destruct (Z.leb_spec (mNumMacroblocksY v) 0); [lia|]. cbn [orb].
  destruct (Vlc.decode_bitstream _ _ _ _) as [[quantScale emitted]|] eqn:Hd;
    cbn [mbind option_bind]; [|discriminate].
  destruct (write_decoded _ _) as [decoded|]; cbn [mbind option_bind];
    [|discriminate].
  destruct (xBlock_loop _ _ _ _ _ _ _ _) as [[c1 p1]|];
    cbn [mbind option_bind]; [|discriminate].
  intros [= <- <-]. exists quantScale.
  split; [exact (Vlc.decode_bitstream_returns_scale _ _ _ _ _ _ Hd)|].
  cbn. auto.
Qed.

End Tables.

End Colour.

(** *** A small instance: one macroblock, a 10 by 5 frame

    With the example tables of the bitstream decoder, six blocks that each
    hold a zero header and an end-of-block code. *)

Definition example_video : video :=
  mkVideo 1 1 10 5
    [1; 0x1f; 0xff00; 0x1fff; 0x1f; 0xff00; 0x1fff; 0x1f; 0xff00; 0x1fff;
     0x7fe0; 0; 0]
    (replicate 32 0) (replicate 768 0) quant_buffers_init
    (mkBlocks (replicate 256 0) (replicate 256 0) (replicate 256 0)
              (replicate 256 0) (replicate 256 0) (replicate 256 0)).

Definition example_pixels : pixels := mkPixels (fun _ => 0) [].

Definition example_parse : option (video * pixels) :=
  ParseVideoFrame Y Cb Cr Vlc.example_gTbl1 Vlc.example_gTbl2 40 example_video
    example_pixels.

Definition example_out : video * pixels :=
  default (example_video, example_pixels) example_parse.

Lemma example_parse_completes : example_parse = Some example_out.
Proof.
  unfold example_out. destruct example_parse as [r|] eqn:E; [reflexivity|].
  vm_compute in E. discriminate E.
Defined.

(** Witness for C6: the example frame is well formed, so the decode
    completes; the last pixel of the 10 by 5 frame is written once and its
    cell holds the colour of cell (9, 4) of the only macroblock. *)
Lemma frame_pixels_written_once_witness :
  (exists r, example_parse = Some r) /\
  exists new bl,
    writes (snd example_out) = [] ++ new /\ hits (9, 4) new = 1%nat /\
    macroblock_blocks Vlc.example_gTbl1 Vlc.example_gTbl2 40 example_video 0
      = Some bl /\
    pix (snd example_out) (10 * 4 + 9) = packed Y Cb Cr (assemble bl 9 4).
Proof.
  destruct (frame_pixels_written_once Y Cb Cr Vlc.example_gTbl1
              Vlc.example_gTbl2 40 example_video example_pixels)
    as [Hsome Heff]; [cbn; lia|cbn; lia|reflexivity|reflexivity|].
  split.
  - apply Hsome; [vm_compute; reflexivity|reflexivity|reflexivity|cbn; lia].
  - destruct (Heff (fst example_out) (snd example_out))
      as (new & Hw & _ & Hone & Hcells).
    + change (example_parse = Some (fst example_out, snd example_out)).
      rewrite example_parse_completes. destruct example_out. reflexivity.
    + destruct (Hcells ltac:(cbn; lia)) as [_ Hpix].
      destruct (Hpix 9 4 ltac:(cbn; lia) ltac:(cbn; lia)) as (bl & Hbl & Hv).
      exists new, bl. split; [exact Hw|].
      split; [apply Hone; cbn; lia|]. split; [exact Hbl|exact Hv].
Defined.

(** An instance: a cell of a macroblock at (16, 0) in a 40 by 8 frame. *)
Lemma macroblock_pixels_witness :
  pix (ConvertYuvToRgbAndBlit Y Cb Cr (scratch example_video) example_pixels
         16 0 40 8) (40 * (2 + 0) + (3 + 16))
  = packed Y Cb Cr (assemble (scratch example_video) 3 2).
Proof.
  refine (proj1 (macroblock_pixels Y Cb Cr (scratch example_video)
                   example_pixels 16 0 40 8 3 2 _ _ _ _ _ _ _)); lia.
Defined.

(** An instance: the example frame, whose scale word is 1. *)
Lemma frame_scale_sets_tables_witness :
  exists quantScale,
    mVideoFrameData example_video !! 0%nat = Some quantScale /\
    quant (fst example_out)
    = after_block_decode_no_effect_q_impl quantScale (quant example_video).
Proof.
  destruct (frame_scale_sets_tables Y Cb Cr Vlc.example_gTbl1
              Vlc.example_gTbl2 40 example_video (fst example_out)
              example_pixels (snd example_out))
    as (quantScale & H0 & Hq & _).
  - cbn. lia.
  - cbn. lia.
  - change (example_parse = Some (fst example_out, snd example_out)).
    rewrite example_parse_completes. destruct example_out. reflexivity.
  - exists quantScale. split; assumption.
Defined.

End Blit.

(** ** Container header: [Masher::Read] *)

Module Header.

Inductive error :=
  | InvalidDdv (what : string)   (* [throw InvalidDdv(what)] *)
  | ShortRead                    (* the stream cannot satisfy a read *)
  | OutOfRange.                  (* an index outside a vector *)

(** The two failures of the header checks, under the names the
    specification gives them. *)
Definition BadMagic : error := InvalidDdv "Invalid DDV tag"%string.
Definition UnsupportedVersion : error := InvalidDdv "Wrong DDV version"%string.

(** Modelled from the spec: the stream class behind [mStream] is not among
    the sources.  A stream is its bytes and a position; [Read] of an
    integer takes its bytes in little-endian order and advances the
    position, and fails when the bytes are not there; [Seek] sets the
    position. *)
Record stream := mkStream { data : list Byte.byte; pos : nat }.

(** A computation on the stream that may throw. *)
Definition M (A : Type) : Type := stream -> error + (A * stream).

Definition ret {A : Type} (a : A) : M A := fun s => inr (a, s).

Definition bind {A B : Type} (m : M A) (k : A -> M B) : M B :=
  fun s => match m s with
           | inl e => inl e
           | inr (a, s') => k a s'
           end.

Definition throw {A : Type} (e : error) : M A := fun _ => inl e.

Notation "'let*' x ':=' m 'in' k" := (bind m (fun x => k))
  (at level 10, x name, m at level 100, k at level 200).
Notation "'let*' ' p ':=' m 'in' k" := (bind m (fun p => k))
  (at level 10, p strict pattern, m at level 100, k at level 200).

Definition le_combine (bs : list Byte.byte) : Z :=
  fold_right (fun b acc => Z.of_N (Byte.to_N b) + 256 * acc) 0 bs.

Definition ReadBytes (n : nat) : M (list Byte.byte) :=
  fun s =>
    if (pos s + n <=? length (data s))%nat
    then inr (take n (drop (pos s) (data s)), mkStream (data s) (pos s + n))
    else inl ShortRead.

Definition Read_u32 : M Z := let* bs := ReadBytes 4 in ret (le_combine bs).
Definition Read_u16 : M Z := let* bs := ReadBytes 2 in ret (le_combine bs).

Definition Pos : M Z := fun s => inr (Z.of_nat (pos s), s).

Definition Seek (p : Z) : M unit :=
  fun s => inr (tt, mkStream (data s) (Z.to_nat p)).

(** Modelled from the spec: [MakeType] is not among the sources; it packs
    the four characters of the tag in the byte order of a 32-bit read. *)
Definition MakeType (tag : list Byte.byte) : Z := le_combine tag.

Definition DDV_tag : list Byte.byte := [Byte.x44; Byte.x44; Byte.x56; Byte.x00].

Definition kVideoFlag : Z := 1.
Definition kAudioFlag : Z := 2.
Definition kMacroBlockWidth : Z := 16.
Definition kMacroBlockHeight : Z := 16.
Definition kNumberOfBlocks : Z := 6.

Record FileHeader := mkFileHeader {
  mDdvTag : Z; mDdvVersion : Z; mContains : Z; mFrameRate : Z;
  mNumberOfFrames : Z
}.

Record VideoHeader := mkVideoHeader {
  mUnknown : Z; mWidth : Z; mHeight : Z; mMaxAudioFrameSize : Z;
  mMaxVideoFrameSize : Z; mKeyFrameRate : Z
}.

Record AudioHeader := mkAudioHeader {
  mAudioFormat : Z; mSampleRate : Z; mAudioMaxAudioFrameSize : Z;
  mSingleAudioFrameSize : Z; mNumberOfFramesInterleave : Z
}.

(** The members of [Masher] that [Read] sets; the three buffers are
    represented by the sizes they are given. *)
Record Masher := mkMasher {
  mFileHeader : FileHeader;
  mbHasVideo : bool;
  mbHasAudio : bool;
  mVideoHeader : VideoHeader;
  mNumMacroblocksX : Z;
  mNumMacroblocksY : Z;
  mAudioHeader : AudioHeader;
  mAudioFrameSizes : list Z;
  mFrameSizes : list Z;
  mMacroBlockBuffer_size : Z;
  mDecodedVideoFrameData_size : Z;
  mAudioFrameData_size : Z
}.

(** [v.resize(n); for (i < n) { Read(tmp); v[i] = tmp; }] *)
Fixpoint read_sizes (n : nat) : M (list Z) :=
  match n with
  | O => ret []
  | S n' =>
      let* tmp := Read_u32 in
      let* rest := read_sizes n' in
      ret (tmp :: rest)
  end.

(** [for (i < n) Seek(Pos() + mAudioFrameSizes[i])], from index [i]. *)
Fixpoint skip_interleaved (n : nat) (i : nat) (sizes : list Z) : M unit :=
  match n with
  | O => ret tt
  | S n' =>
      match sizes !! i with
      | None => throw OutOfRange
      | Some totalSize =>
          let* p := Pos in
          let* _ := Seek (p + totalSize) in
          skip_interleaved n' (S i) sizes
      end
  end.

Definition read_video_header (m : Masher) : M (VideoHeader * Z * Z) :=
  if mbHasVideo m then
    let* unknown := Read_u32 in
    let* width := Read_u16 in
    let* height := Read_u16 in
    let* maxAudio := Read_u32 in
    let* maxVideo := Read_u32 in
    let* keyFrameRate := Read_u32 in
    ret (mkVideoHeader unknown width height maxAudio maxVideo keyFrameRate,
         Blit.macroblock_count width, Blit.macroblock_count height)
  else ret (mVideoHeader m, mNumMacroblocksX m, mNumMacroblocksY m).

Definition read_audio_header (m : Masher) : M (AudioHeader * list Z) :=
  if mbHasAudio m then
    let* format := Read_u32 in
    let* sampleRate := Read_u32 in
    let* maxAudio := Read_u32 in
    let* single := Read_u32 in
    let* interleave := Read_u32 in
    let* sizes := read_sizes (Z.to_nat interleave) in
    ret (mkAudioHeader format sampleRate maxAudio single interleave, sizes)
  else ret (mAudioHeader m, mAudioFrameSizes m).

(** [Masher::Read] on the object [m] as its constructor left it. *)
Definition Read (m : Masher) : M Masher :=
  let* tag := Read_u32 in
  if negb (tag =? MakeType DDV_tag) then throw (InvalidDdv "Invalid DDV tag"%string)
  else
    let* version := Read_u32 in
    if negb (version =? 1) then throw (InvalidDdv "Wrong DDV version"%string)
    else
      let* contains := Read_u32 in
      let* frameRate := Read_u32 in
      let* numberOfFrames := Read_u32 in
      let fh := mkFileHeader tag version contains frameRate numberOfFrames in
      let hasVideo := Z.land contains kVideoFlag =? kVideoFlag in
      let hasAudio := Z.land contains kAudioFlag =? kAudioFlag in
      let m := mkMasher fh hasVideo hasAudio (mVideoHeader m)
                 (mNumMacroblocksX m) (mNumMacroblocksY m) (mAudioHeader m)
                 (mAudioFrameSizes m) (mFrameSizes m)
                 (mMacroBlockBuffer_size m) (mDecodedVideoFrameData_size m)
                 (mAudioFrameData_size m) in
      let* '(vh, nx, ny) := read_video_header m in
      let* '(ah, sizes) := read_audio_header m in
      let* frameSizes := read_sizes (Z.to_nat numberOfFrames) in
      let* _ := skip_interleaved (Z.to_nat (mNumberOfFramesInterleave ah)) 0
                  sizes in
      ret (mkMasher fh hasVideo hasAudio vh nx ny ah sizes frameSizes
             (u32 (u32 (u32 (nx * kMacroBlockWidth)
                        * u32 (ny * kMacroBlockHeight)) * kNumberOfBlocks))
             (mMaxVideoFrameSize vh) (mMaxAudioFrameSize vh)).

(** *** Properties *)

Lemma byte_to_N_inj (a b : Byte.byte) : Byte.to_N a = Byte.to_N b -> a = b.
Proof.
  intros H. pose proof (Byte.of_to_N a) as Ha. rewrite H, Byte.of_to_N in Ha.
  congruence.
Qed.

Lemma le_combine_inj4 (a0 a1 a2 a3 b0 b1 b2 b3 : Byte.byte) :
  le_combine [a0; a1; a2; a3] = le_combine [b0; b1; b2; b3] ->
  [a0; a1; a2; a3] = [b0; b1; b2; b3].
Proof.
  unfold le_combine. cbn [fold_right]. intros H.
  pose proof (Byte.to_N_bounded a0). pose proof (Byte.to_N_bounded a1).
  pose proof (Byte.to_N_bounded a2). pose proof (Byte.to_N_bounded a3).
  pose proof (Byte.to_N_bounded b0). pose proof (Byte.to_N_bounded b1).
  pose proof (Byte.to_N_bounded b2). pose proof (Byte.to_N_bounded b3).
  repeat f_equal; apply byte_to_N_inj; lia.
Qed.

Lemma ReadBytes_front (n : nat) (s : stream) (front rest : list Byte.byte) :
  drop (pos s) (data s) = front ++ rest ->
  length front = n -> (0 < n)%nat ->
  ReadBytes n s = inr (front, mkStream (data s) (pos s + n)).
Proof.
  intros Hd Hn Hpos. unfold ReadBytes.
  assert (Hlen : (pos s + n <= length (data s))%nat).
  { pose proof (f_equal length Hd) as HL.
    rewrite length_drop, length_app in HL. lia. }
  destruct (Nat.leb_spec (pos s + n) (length (data s))); [|lia].
  rewrite Hd, take_app_length' by (symmetry; exact Hn). reflexivity.
Qed.

(** C9. Whatever the object held before: when the four bytes at the stream
    position differ from ["DDV\0"], [Read] throws the bad-magic error; when
    they are ["DDV\0"] and the next four bytes are not the little-endian
    number 1, [Read] throws the unsupported-version error; in both cases the
    result of the header parse is the error, so there is no [Masher] whose
    frames could be decoded. *)
Theorem header_validation (m : Masher) (s : stream) :
  (forall b0 b1 b2 b3 rest,
     drop (pos s) (data s) = b0 :: b1 :: b2 :: b3 :: rest ->
     [b0; b1; b2; b3] <> DDV_tag ->
     Read m s = inl BadMagic /\ forall m' s', Read m s <> inr (m', s')) /\
  (forall v0 v1 v2 v3 rest,
     drop (pos s) (data s) = DDV_tag ++ v0 :: v1 :: v2 :: v3 :: rest ->
     le_combine [v0; v1; v2; v3] <> 1 ->
     Read m s = inl UnsupportedVersion /\
     forall m' s', Read m s <> inr (m', s')).
Proof.
  split.
  - intros b0 b1 b2 b3 rest Hd Hne.
    assert (R : Read m s = inl BadMagic).
    { unfold Read, bind at 1, Read_u32, bind at 1.
      rewrite (ReadBytes_front 4 s [b0; b1; b2; b3] rest Hd eq_refl)
        by lia.
      unfold ret at 1.
      destruct (Z.eqb_spec (le_combine [b0; b1; b2; b3]) (MakeType DDV_tag))
        as [E|E]; [|reflexivity].
      exfalso. apply Hne. apply le_combine_inj4, E. }
    split; [exact R|]. intros m' s'. rewrite R. discriminate.
  - intros v0 v1 v2 v3 rest Hd Hne.
    assert (R : Read m s = inl UnsupportedVersion).
    { unfold Read, bind at 1, Read_u32 at 1, bind at 1.
      rewrite (ReadBytes_front 4 s DDV_tag (v0 :: v1 :: v2 :: v3 :: rest) Hd
                 eq_refl) by lia.
      unfold ret at 1. unfold MakeType. rewrite Z.eqb_refl. cbn [negb].
      unfold bind at 1, Read_u32 at 1, bind at 1.
      rewrite (ReadBytes_front 4 _ [v0; v1; v2; v3] rest).
      - unfold ret at 1.
        destruct (Z.eqb_spec (le_combine [v0; v1; v2; v3]) 1) as [E|E];
          [contradiction|reflexivity].
      - cbn [data pos]. rewrite <- drop_drop, Hd. reflexivity.
      - reflexivity.
      - lia. }
    split; [exact R|]. intros m' s'. rewrite R. discriminate.
Qed.

(** An object as a constructor might leave it, and two short streams. *)
Definition blank : Masher :=
  mkMasher (mkFileHeader 0 0 0 0 0) false false (mkVideoHeader 0 0 0 0 0 0)
           0 0 (mkAudioHeader 0 0 0 0 0) [] [] 0 0 0.

(** Witness for C9: the tag ["DDW\0"], and the tag ["DDV\0"] with version 2. *)
Lemma header_validation_witness :
  Read blank (mkStream [Byte.x44; Byte.x44; Byte.x57; Byte.x00; Byte.x01] 0)
    = inl BadMagic /\
  Read blank (mkStream [Byte.x44; Byte.x44; Byte.x56; Byte.x00;
                        Byte.x02; Byte.x00; Byte.x00; Byte.x00] 0)
    = inl UnsupportedVersion.
Proof.
  split.
  - refine (proj1 (proj1 (header_validation blank
              (mkStream [Byte.x44; Byte.x44; Byte.x57; Byte.x00; Byte.x01] 0))
              Byte.x44 Byte.x44 Byte.x57 Byte.x00 [Byte.x01] eq_refl _)).
    discriminate.
  - refine (proj1 (proj2 (header_validation blank
              (mkStream [Byte.x44; Byte.x44; Byte.x56; Byte.x00;
                         Byte.x02; Byte.x00; Byte.x00; Byte.x00] 0))
              Byte.x02 Byte.x00 Byte.x00 Byte.x00 [] eq_refl _)).
    vm_compute. discriminate.
Defined.


(** *** What a successful parse leaves in the object *)

Lemma bind_inr {A B : Type} (m : M A) (k : A -> M B) (s s' : stream) (b : B) :
  bind m k s = inr (b, s') ->
  exists a s1, m s = inr (a, s1) /\ k a s1 = inr (b, s').
Proof.
  unfold bind. destruct (m s) as [e|[a s1]]; [discriminate|]. eauto.
Qed.

Lemma le_combine_bound (bs : list Byte.byte) :
  0 <= le_combine bs < 256 ^ Z.of_nat (length bs).
Proof.
  induction bs as [|b bs IH]; cbn [le_combine fold_right length].
  - change (256 ^ Z.of_nat 0) with 1. lia.
  - fold (le_combine bs). rewrite Nat2Z.inj_succ, Z.pow_succ_r by lia.
    pose proof (Byte.to_N_bounded b). lia.
Qed.

Lemma ReadBytes_inr (n : nat) (s s' : stream) (bs : list Byte.byte) :
  ReadBytes n s = inr (bs, s') ->
  length bs = n /\ data s' = data s /\ pos s' = (pos s + n)%nat /\
  (pos s + n <= length (data s))%nat.
Proof.
  unfold ReadBytes. destruct (Nat.leb_spec (pos s + n) (length (data s)));
    [|discriminate].
  intros [= <- <-]. cbn [data pos].
  rewrite length_take, length_drop. repeat split; lia.
Qed.

Lemma Read_u32_inr (s s' : stream) (v : Z) :
  Read_u32 s = inr (v, s') ->
  0 <= v < 2 ^ 32 /\ data s' = data s /\ pos s' = (pos s + 4)%nat.
Proof.
  unfold Read_u32. intros H. apply bind_inr in H.
  destruct H as (bs & s1 & Hr & Hret). injection Hret as <- <-.
  apply ReadBytes_inr in Hr. destruct Hr as (L & D & P & _).
  pose proof (le_combine_bound bs) as Hb. rewrite L in Hb.
  change (256 ^ Z.of_nat 4) with (2 ^ 32) in Hb. auto.
Qed.

Lemma Read_u16_inr (s s' : stream) (v : Z) :
  Read_u16 s = inr (v, s') ->
  0 <= v < 65536 /\ data s' = data s /\ pos s' = (pos s + 2)%nat.
Proof.
  unfold Read_u16. intros H. apply bind_inr in H.
  destruct H as (bs & s1 & Hr & Hret). injection Hret as <- <-.
  apply ReadBytes_inr in Hr. destruct Hr as (L & D & P & _).
  pose proof (le_combine_bound bs) as Hb. rewrite L in Hb.
  change (256 ^ Z.of_nat 2) with 65536 in Hb. auto.
Qed.

Lemma read_sizes_inr (n : nat) (s s' : stream) (l : list Z) :
  read_sizes n s = inr (l, s') ->
  length l = n /\ data s' = data s /\ pos s' = (pos s + 4 * n)%nat.
Proof.
  revert s l. induction n as [|n IH]; intros s l H; cbn [read_sizes] in H.
  - injection H as <- <-. repeat split; lia.
  - apply bind_inr in H. destruct H as (tmp & s1 & H1 & H).
    apply bind_inr in H. destruct H as (rest & s2 & H2 & H).
    injection H as <- <-. apply Read_u32_inr in H1. apply IH in H2.
    cbn [length]. destruct H1 as (_ & D1 & P1), H2 as (L & D2 & P2).
    repeat split; [lia|congruence|lia].
Qed.

Lemma macroblock_count_ceiling (size : Z) :
  0 <= size -> Blit.macroblock_count size = (size + 15) / 16.
Proof.
  intros H. unfold Blit.macroblock_count. cbv zeta.
  destruct (Z.eqb_spec (size mod 16) 0); cbn [negb];
    Z.div_mod_to_equations; lia.
Qed.

Lemma flag_bit (c : Z) (n : Z) :
  0 <= n -> (Z.land c (2 ^ n) =? 2 ^ n) = Z.testbit c n.
Proof.
  intros Hn.
  assert (H : Z.land c (2 ^ n) = if Z.testbit c n then 2 ^ n else 0).
  { apply Z.bits_inj'. intros k Hk. rewrite Z.land_spec, Z.pow2_bits_eqb by lia.
    destruct (Z.testbit c n) eqn:E.
    - rewrite Z.pow2_bits_eqb by lia.
      destruct (Z.eqb_spec n k) as [<-|Hne]; [rewrite E; reflexivity|].
      apply andb_false_r.
    - rewrite Z.bits_0.
      destruct (Z.eqb_spec n k) as [<-|Hne]; [rewrite E; reflexivity|].
      apply andb_false_r. }
  rewrite H. pose proof (Z.pow_pos_nonneg 2 n ltac:(lia) Hn).
  destruct (Z.testbit c n); [apply Z.eqb_refl|apply Z.eqb_neq; lia].
Qed.

Lemma read_video_header_inr (m : Masher) (s s' : stream)
    (vh : VideoHeader) (nx ny : Z) :
  read_video_header m s = inr ((vh, nx, ny), s') ->
  if mbHasVideo m
  then 0 <= mWidth vh < 65536 /\ 0 <= mHeight vh < 65536 /\
       nx = Blit.macroblock_count (mWidth vh) /\
       ny = Blit.macroblock_count (mHeight vh)
  else vh = mVideoHeader m /\ nx = mNumMacroblocksX m /\
       ny = mNumMacroblocksY m.
Proof.
  unfold read_video_header. destruct (mbHasVideo m).
  - intros H.
    apply bind_inr in H. destruct H as (unknown & s1 & _ & H).
    apply bind_inr in H. destruct H as (width & s2 & Hw & H).
    apply bind_inr in H. destruct H as (height & s3 & Hh & H).
    apply bind_inr in H. destruct H as (maxAudio & s4 & _ & H).
    apply bind_inr in H. destruct H as (maxVideo & s5 & _ & H).
    apply bind_inr in H. destruct H as (keyFrameRate & s6 & _ & H).
    injection H as <- <- <- _. cbn [mWidth mHeight].
    apply Read_u16_inr in Hw, Hh. tauto.
  - intros [= <- <- <- _]. auto.
Qed.

Lemma read_audio_header_inr (m : Masher) (s s' : stream)
    (ah : AudioHeader) (sizes : list Z) :
  read_audio_header m s = inr ((ah, sizes), s') ->
  if mbHasAudio m
  then length sizes = Z.to_nat (mNumberOfFramesInterleave ah)
  else ah = mAudioHeader m /\ sizes = mAudioFrameSizes m.
Proof.
  unfold read_audio_header. destruct (mbHasAudio m).
  - intros H.
    apply bind_inr in H. destruct H as (format & s1 & _ & H).
    apply bind_inr in H. destruct H as (sampleRate & s2 & _ & H).
    apply bind_inr in H. destruct H as (maxAudio & s3 & _ & H).
    apply bind_inr in H. destruct H as (single & s4 & _ & H).
    apply bind_inr in H. destruct H as (interleave & s5 & _ & H).
    apply bind_inr in H. destruct H as (l & s6 & Hl & H).
    injection H as <- <- _. cbn [mNumberOfFramesInterleave].
    apply read_sizes_inr in Hl. tauto.
  - intros [= <- <- _]. auto.
Qed.

(** When [Read] returns, on an object [m] as the constructor left it: the
    tag is ["DDV\0"] and the version 1; the video and audio flags are bits 0
    and 1 of [mContains]; the table of frame sizes has one entry per frame;
    with video, the width and height are 16-bit values and the macroblock
    counts are their sixteenths rounded up, and without it the video header
    and the counts are as they were; with audio, the table of interleaved
    sizes has [mNumberOfFramesInterleave] entries, and without it the audio
    header and that table are as they were. *)
Theorem Read_postcondition (m m' : Masher) (s s' : stream) :
  Read m s = inr (m', s') ->
  let fh := mFileHeader m' in
  let vh := mVideoHeader m' in
  mDdvTag fh = MakeType DDV_tag /\ mDdvVersion fh = 1 /\
  mbHasVideo m' = Z.testbit (mContains fh) 0 /\
  mbHasAudio m' = Z.testbit (mContains fh) 1 /\
  length (mFrameSizes m') = Z.to_nat (mNumberOfFrames fh) /\
  (if mbHasVideo m'
   then 0 <= mWidth vh < 65536 /\ 0 <= mHeight vh < 65536 /\
        mNumMacroblocksX m' = (mWidth vh + 15) / 16 /\
        mNumMacroblocksY m' = (mHeight vh + 15) / 16
   else vh = mVideoHeader m /\ mNumMacroblocksX m' = mNumMacroblocksX m /\
        mNumMacroblocksY m' = mNumMacroblocksY m) /\
  (if mbHasAudio m'
   then length (mAudioFrameSizes m')
        = Z.to_nat (mNumberOfFramesInterleave (mAudioHeader m'))
   else mAudioHeader m' = mAudioHeader m /\
        mAudioFrameSizes m' = mAudioFrameSizes m).
Proof.
  intros H fh vh. subst fh vh. unfold Read in H.
  apply bind_inr in H. destruct H as (tag & s1 & _ & H).
  destruct (Z.eqb_spec tag (MakeType DDV_tag)) as [Htag|];
    cbn [negb] in H; [|discriminate H].
  apply bind_inr in H. destruct H as (version & s2 & _ & H).
  destruct (Z.eqb_spec version 1) as [Hver|]; cbn [negb] in H; [|discriminate H].
  apply bind_inr in H. destruct H as (contains & s3 & _ & H).
  apply bind_inr in H. destruct H as (frameRate & s4 & _ & H).
  apply bind_inr in H. destruct H as (numberOfFrames & s5 & _ & H).
  cbv zeta in H.
  apply bind_inr in H. destruct H as ([[vh nx] ny] & s6 & Hv & H).
  apply bind_inr in H. destruct H as ([ah sizes] & s7 & Ha & H).
  apply bind_inr in H. destruct H as (frameSizes & s8 & Hf & H).
  apply bind_inr in H. destruct H as (u & s9 & _ & H).
  injection H as <- _.
  apply read_video_header_inr in Hv. apply read_audio_header_inr in Ha.
  apply read_sizes_inr in Hf.
  cbn [mFileHeader mVideoHeader mDdvTag mDdvVersion mbHasVideo mbHasAudio
       mContains mFrameSizes mNumberOfFrames mNumMacroblocksX mNumMacroblocksY
       mAudioFrameSizes mAudioHeader] in *.
  change kVideoFlag with (2 ^ 0) in *. change kAudioFlag with (2 ^ 1) in *.
  rewrite !flag_bit in * by lia.
  split; [exact Htag|]. split; [exact Hver|].
  split; [reflexivity|]. split; [reflexivity|].
  split; [apply Hf|]. split; [|exact Ha].
  destruct (Z.testbit contains 0); [|exact Hv].
  destruct Hv as (Hw & Hh & -> & ->).
  rewrite !macroblock_count_ceiling by lia. auto.
Qed.

(** A video-only file of one frame: 20 by 10 pixels. *)
Definition example_header : stream :=
  mkStream
    [ Byte.x44; Byte.x44; Byte.x56; Byte.x00;   (* tag *)
      Byte.x01; Byte.x00; Byte.x00; Byte.x00;   (* version *)
      Byte.x01; Byte.x00; Byte.x00; Byte.x00;   (* contains: video *)
      Byte.x0f; Byte.x00; Byte.x00; Byte.x00;   (* frame rate *)
      Byte.x01; Byte.x00; Byte.x00; Byte.x00;   (* number of frames *)
      Byte.x00; Byte.x00; Byte.x00; Byte.x00;   (* unknown *)
      Byte.x14; Byte.x00;                       (* width *)
      Byte.x0a; Byte.x00;                       (* height *)
      Byte.x00; Byte.x00; Byte.x00; Byte.x00;   (* largest audio frame *)
      Byte.x40; Byte.x00; Byte.x00; Byte.x00;   (* largest video frame *)
      Byte.x01; Byte.x00; Byte.x00; Byte.x00;   (* key frame rate *)
      Byte.x20; Byte.x00; Byte.x00; Byte.x00 ]  (* size of frame 0 *)
    0.

(** An instance: the header of the example file. *)
Lemma Read_postcondition_witness :
  exists m' s',
    Read blank example_header = inr (m', s') /\
    mbHasVideo m' = true /\ mbHasAudio m' = false /\
    mNumMacroblocksX m' = (20 + 15) / 16 /\
    mNumMacroblocksY m' = (10 + 15) / 16 /\
    length (mFrameSizes m') = 1%nat.
Proof.
  eexists _, _. split; [vm_compute; reflexivity|].
  match goal with
  | |- mbHasVideo ?m = true /\ _ =>
      pose proof (Read_postcondition blank m example_header _ eq_refl) as H
  end.
  cbv zeta in H. destruct H as (_ & _ & Hv & Ha & Hf & Hvid & _).
  split; [exact Hv|]. split; [exact Ha|].
  destruct Hvid as (_ & _ & Hx & Hy).
  split; [exact Hx|]. split; [exact Hy|exact Hf].
Defined.

End Header.

(** ** Frame sequencing: [Masher::Update]

    [Update] loads the data of the next frame from the stream and hands it
    to [ParseVideoFrame] and [ParseAudioFrame].  The two decoders are
    parameters here: they read the frame data just loaded and act on the
    pixel and audio buffers and on the decoder's own arrays, a state of an
    arbitrary type [World]; they touch neither the stream, nor the header,
    nor the frame counter. *)

Module Player.
Import Header.

(** Modelled from the spec: [mCurrentFrame] and the two frame vectors are
    declared in [masher.hpp], which is not among the sources; the counter is
    taken as a 32-bit unsigned value and the vectors as vectors of bytes. *)
Record player := mkPlayer {
  header : Masher;
  mCurrentFrame : Z;
  mVideoFrameData : list Byte.byte;
  mAudioFrameData : list Byte.byte
}.

(** [v.resize(n)]: the first [n] elements are kept, new ones are zero. *)
Definition resize (n : nat) (v : list Byte.byte) : list Byte.byte :=
  take n v ++ replicate (n - length v) Byte.x00.

Section Update.

Variable World : Type.
Variable ParseVideoFrame : player -> World -> World.
Variable ParseAudioFrame : player -> World -> World.

(** The branch for a file with video and audio: the size of the video
    data, the video data, then the rest of the frame as audio data. *)
Definition load_both (p : player) (w : World) : M (player * World) :=
  let* videoDataSize := Read_u32 in
  let* video := ReadBytes (Z.to_nat videoDataSize) in
  match mFrameSizes (header p) !! Z.to_nat (mCurrentFrame p) with
  | None => throw OutOfRange
  | Some totalSize =>
      let audioDataSize := u32 (totalSize - videoDataSize) in
      let* audio := ReadBytes (Z.to_nat audioDataSize) in
      let p := mkPlayer (header p) (mCurrentFrame p) video audio in
      let w := ParseVideoFrame p w in
      let w := ParseAudioFrame p w in
      ret (p, w)
  end.

(** In the audio-only case the vector is resized to [totalSize + 4] and
    [totalSize] bytes are read over its start; a read longer than the
    vector (the sum wrapped around) is a fault. *)
Definition load_audio (p : player) (w : World) : M (player * World) :=
  match mFrameSizes (header p) !! Z.to_nat (mCurrentFrame p) with
  | None => throw OutOfRange
  | Some totalSize =>
      let buffer := resize (Z.to_nat (u32 (totalSize + 4))) (mAudioFrameData p) in
      let* audio := ReadBytes (Z.to_nat totalSize) in
      if (length audio <=? length buffer)%nat then
        let p := mkPlayer (header p) (mCurrentFrame p) (mVideoFrameData p)
                   (audio ++ drop (length audio) buffer) in
        ret (p, ParseAudioFrame p w)
      else throw OutOfRange
  end.

Definition load_video (p : player) (w : World) : M (player * World) :=
  match mFrameSizes (header p) !! Z.to_nat (mCurrentFrame p) with
  | None => throw OutOfRange
  | Some totalSize =>
      let* video := ReadBytes (Z.to_nat totalSize) in
      let p := mkPlayer (header p) (mCurrentFrame p) video (mAudioFrameData p) in
      ret (p, ParseVideoFrame p w)
  end.

Definition Update (p : player) (w : World) : M (bool * player * World) :=
  if mCurrentFrame p <? mNumberOfFrames (mFileHeader (header p)) then
    let* '(p, w) :=
      if mbHasVideo (header p) && mbHasAudio (header p) then load_both p w
      else if mbHasAudio (header p) then load_audio p w
      else if mbHasVideo (header p) then load_video p w
      else ret (p, w) in
    ret (true,
         mkPlayer (header p) (u32 (mCurrentFrame p + 1)) (mVideoFrameData p)
                  (mAudioFrameData p),
         w)
  else ret (false, p, w).

(** Calling [Update] until it returns [false], at most [n] times: the number
    of frames played. *)
Fixpoint play (n : nat) (p : player) (w : World) : M (nat * player * World) :=
  match n with
  | O => ret (0%nat, p, w)
  | S n' =>
      let* '(more, p, w) := Update p w in
      if more : bool then
        let* '(k, p, w) := play n' p w in ret (S k, p, w)
      else ret (0%nat, p, w)
  end.

(** *** Properties *)

Lemma load_both_inr (p p' : player) (w w' : World) (s s' : stream) :
  load_both p w s = inr ((p', w'), s') ->
  header p' = header p /\ mCurrentFrame p' = mCurrentFrame p /\
  data s' = data s /\
  exists totalSize,
    mFrameSizes (header p) !! Z.to_nat (mCurrentFrame p) = Some totalSize /\
    (Z.of_nat (length (mVideoFrameData p')) <= totalSize < 2 ^ 32 ->
     Z.of_nat (pos s') = Z.of_nat (pos s) + 4 + totalSize).
Proof.
  unfold load_both. intros H.
  apply bind_inr in H. destruct H as (videoDataSize & s1 & H1 & H).
  apply bind_inr in H. destruct H as (video & s2 & H2 & H).
  destruct (mFrameSizes (header p) !! Z.to_nat (mCurrentFrame p))
    as [totalSize|]; [|discriminate H].
  cbv zeta in H.
  apply bind_inr in H. destruct H as (audio & s3 & H3 & H).
  injection H as <- <- <-. cbn [header mCurrentFrame mVideoFrameData].
  apply Read_u32_inr in H1. apply ReadBytes_inr in H2, H3.
  destruct H1 as (Hv & D1 & P1), H2 as (L2 & D2 & P2 & _),
           H3 as (L3 & D3 & P3 & _).
  split; [reflexivity|]. split; [reflexivity|]. split; [congruence|].
  exists totalSize. split; [reflexivity|]. intros Hle.
  rewrite L2 in Hle. rewrite P3, P2, P1.
  rewrite u32_id by (change 4294967296 with (2 ^ 32); lia).
  lia.
Qed.

Lemma load_audio_inr (p p' : player) (w w' : World) (s s' : stream) :
  load_audio p w s = inr ((p', w'), s') ->
  header p' = header p /\ mCurrentFrame p' = mCurrentFrame p /\
  data s' = data s /\
  exists totalSize,
    mFrameSizes (header p) !! Z.to_nat (mCurrentFrame p) = Some totalSize /\
    (0 <= totalSize -> Z.of_nat (pos s') = Z.of_nat (pos s) + totalSize).
Proof.
  unfold load_audio. intros H.
  destruct (mFrameSizes (header p) !! Z.to_nat (mCurrentFrame p))
    as [totalSize|]; [|discriminate H].
  cbv zeta in H.
  apply bind_inr in H. destruct H as (audio & s1 & H1 & H).
  destruct (_ <=? _)%nat; [|discriminate H].
  injection H as <- <- <-. cbn [header mCurrentFrame].
  apply ReadBytes_inr in H1. destruct H1 as (L1 & D1 & P1 & _).
  split; [reflexivity|]. split; [reflexivity|]. split; [exact D1|].
  exists totalSize. split; [reflexivity|]. intros Hle. lia.
Qed.

Lemma load_video_inr (p p' : player) (w w' : World) (s s' : stream) :
  load_video p w s = inr ((p', w'), s') ->
  header p' = header p /\ mCurrentFrame p' = mCurrentFrame p /\
  data s' = data s /\
  exists totalSize,
    mFrameSizes (header p) !! Z.to_nat (mCurrentFrame p) = Some totalSize /\
    (0 <= totalSize -> Z.of_nat (pos s') = Z.of_nat (pos s) + totalSize).
Proof.
  unfold load_video. intros H.
  destruct (mFrameSizes (header p) !! Z.to_nat (mCurrentFrame p))
    as [totalSize|]; [|discriminate H].
  apply bind_inr in H. destruct H as (video & s1 & H1 & H).
  injection H as <- <- <-. cbn [header mCurrentFrame].
  apply ReadBytes_inr in H1. destruct H1 as (L1 & D1 & P1 & _).
  split; [reflexivity|]. split; [reflexivity|]. split; [exact D1|].
  exists totalSize. split; [reflexivity|]. intros Hle. lia.
Qed.

(** What one call of [Update] does to the counter, the header and the
    stream. *)
Lemma Update_inr (p p' : player) (w w' : World) (s s' : stream) (more : bool) :
  0 <= mCurrentFrame p ->
  mNumberOfFrames (mFileHeader (header p)) < 2 ^ 32 ->
  Update p w s = inr ((more, p', w'), s') ->
  header p' = header p /\ data s' = data s /\
  (if more
   then mCurrentFrame p < mNumberOfFrames (mFileHeader (header p)) /\
        mCurrentFrame p' = mCurrentFrame p + 1
   else mNumberOfFrames (mFileHeader (header p)) <= mCurrentFrame p /\
        p' = p /\ w' = w /\ s' = s).
Proof.
  intros Hcur Hn. unfold Update.
  destruct (Z.ltb_spec (mCurrentFrame p)
              (mNumberOfFrames (mFileHeader (header p)))) as [Hlt|Hge].
  - intros H. apply bind_inr in H. destruct H as ([p1 w1] & s1 & H1 & H).
    injection H as <- <- <- <-. cbn [header mCurrentFrame].
    assert (Hk : header p1 = header p /\ mCurrentFrame p1 = mCurrentFrame p /\
                 data s1 = data s).
    { destruct (mbHasVideo (header p) && mbHasAudio (header p)).
      { apply load_both_inr in H1. tauto. }
      destruct (mbHasAudio (header p)).
      { apply load_audio_inr in H1. tauto. }
      destruct (mbHasVideo (header p)).
      { apply load_video_inr in H1. tauto. }
      injection H1 as <- <- <-. auto. }
    destruct Hk as (-> & -> & ->).
    split; [reflexivity|]. split; [reflexivity|]. split; [exact Hlt|].
    apply u32_id. change 4294967296 with (2 ^ 32). lia.
  - intros [= <- <- <- <-]. repeat split; [exact Hge].
Qed.

(** Each call of [Update] that returns [true] consumes exactly the frame: a
    file with video and audio stores the 4-byte size of the video data
    before the frame's [mFrameSizes] bytes (when that size does not exceed
    the frame size), a file with only one of them stores the
    [mFrameSizes] bytes alone, the frame size being that of the current
    frame; and the counter moves to the next frame. *)
Theorem Update_consumes_one_frame (p p' : player) (w w' : World)
    (s s' : stream) :
  0 <= mCurrentFrame p ->
  mNumberOfFrames (mFileHeader (header p)) < 2 ^ 32 ->
  mbHasVideo (header p) || mbHasAudio (header p) = true ->
  Update p w s = inr ((true, p', w'), s') ->
  mCurrentFrame p' = mCurrentFrame p + 1 /\
  exists totalSize,
    mFrameSizes (header p) !! Z.to_nat (mCurrentFrame p) = Some totalSize /\
    (0 <= totalSize < 2 ^ 32 ->
     Z.of_nat (length (mVideoFrameData p')) <= totalSize ->
     Z.of_nat (pos s')
     = Z.of_nat (pos s) + totalSize
       + (if mbHasVideo (header p) && mbHasAudio (header p) then 4 else 0)).
Proof.
  intros Hcur Hn Hav H.
  destruct (Update_inr _ _ _ _ _ _ _ Hcur Hn H) as (_ & _ & _ & Hc).
  split; [exact Hc|]. unfold Update in H.
  destruct (_ <? _); [|discriminate H].
  apply bind_inr in H. destruct H as ([p1 w1] & s1 & H1 & H).
  injection H as <- <- <-. cbn [mVideoFrameData].
  destruct (mbHasVideo (header p)) eqn:Hv, (mbHasAudio (header p)) eqn:Ha;
    cbn [andb orb] in *; try discriminate Hav.
  - apply load_both_inr in H1. destruct H1 as (_ & _ & _ & t & Ht & Hp).
    exists t. split; [exact Ht|]. intros Hr Hle. rewrite Hp; lia.
  - apply load_video_inr in H1. destruct H1 as (_ & _ & _ & t & Ht & Hp).
    exists t. split; [exact Ht|]. intros Hr Hle. rewrite Hp; lia.
  - apply load_audio_inr in H1. destruct H1 as (_ & _ & _ & t & Ht & Hp).
    exists t. split; [exact Ht|]. intros Hr Hle. rewrite Hp; lia.
Qed.

(** Playing a file from any frame: as long as no read fails, [Update]
    returns [true] once for each frame that is left and [false] from then
    on, so a file played from frame 0 with enough calls plays exactly
    [mNumberOfFrames] frames and stops with the counter at that number. *)
Theorem play_counts_frames (n : nat) (p p' : player) (w w' : World)
    (s s' : stream) (k : nat) :
  0 <= mCurrentFrame p <= mNumberOfFrames (mFileHeader (header p)) ->
  mNumberOfFrames (mFileHeader (header p)) < 2 ^ 32 ->
  play n p w s = inr ((k, p', w'), s') ->
  header p' = header p /\
  Z.of_nat k
  = Z.min (Z.of_nat n)
          (mNumberOfFrames (mFileHeader (header p)) - mCurrentFrame p) /\
  mCurrentFrame p' = mCurrentFrame p + Z.of_nat k.
Proof.
  revert p w s k. induction n as [|n IH]; intros p w s k Hcur Hn H;
    cbn [play] in H.
  - injection H as <- <- <- <-. repeat split; lia.
  - apply bind_inr in H. destruct H as ([[more p1] w1] & s1 & H1 & H).
    destruct (Update_inr p p1 w w1 s s1 more ltac:(lia) Hn H1)
      as (Hh & _ & Hm).
    destruct more.
    + destruct Hm as [Hlt Hc].
      apply bind_inr in H. destruct H as ([[k1 p2] w2] & s2 & H2 & H).
      injection H as <- <- <- <-.
      apply IH in H2; [|rewrite Hh, Hc; lia|rewrite Hh; exact Hn].
      destruct H2 as (Hh2 & Hk & Hc2). rewrite Hh, Hc in *.
      split; [congruence|]. split; lia.
    + destruct Hm as (Hge & -> & -> & ->). injection H as <- <- <- <-.
      repeat split; lia.
Qed.

End Update.

(** *** A small instance: the example file with its one frame of 32 bytes,
    decoders that do nothing *)

Definition example_file : stream :=
  mkStream (data example_header ++ replicate 32 Byte.xff) 0.

Definition example_player : player :=
  match Read blank example_file with
  | inr (m, _) => mkPlayer m 0 [] []
  | inl _ => mkPlayer blank 0 [] []
  end.

Definition example_frames : stream :=
  match Read blank example_file with
  | inr (_, s) => s
  | inl _ => example_file
  end.

Definition no_decode (p : player) (w : unit) : unit := w.

(** An instance: the frame of the example file. *)
Lemma Update_consumes_one_frame_witness :
  exists p' s',
    Update unit no_decode no_decode example_player tt example_frames
      = inr ((true, p', tt), s') /\
    mCurrentFrame p' = 0 + 1 /\
    Z.of_nat (pos s') = Z.of_nat (pos example_frames) + 32 + 0.
Proof.
  eexists _, _. split; [vm_compute; reflexivity|].
  match goal with
  | |- mCurrentFrame ?p' = _ /\ Z.of_nat (pos ?s') = _ =>
      destruct (Update_consumes_one_frame unit no_decode no_decode
                  example_player p' tt tt example_frames s')
        as (Hc & t & Ht & Hp)
  end.
  - vm_compute. discriminate.
  - vm_compute. reflexivity.
  - reflexivity.
  - reflexivity.
  - split; [exact Hc|].
    vm_compute in Ht. injection Ht as <-.
    apply Hp; [split; [lia|reflexivity]|vm_compute; discriminate].
Defined.

(** An instance: five calls on the example file play its one frame. *)
Lemma play_counts_frames_witness :
  exists p' s',
    play unit no_decode no_decode 5 example_player tt example_frames
      = inr ((1%nat, p', tt), s') /\
    mCurrentFrame p' = 0 + Z.of_nat 1.
Proof.
  eexists _, _. split; [vm_compute; reflexivity|].
  match goal with
  | |- mCurrentFrame ?p' = _ =>
      refine (proj2 (proj2 (play_counts_frames unit no_decode no_decode 5
                example_player p' tt tt example_frames _ 1 _ _ eq_refl)))
  end.
  - vm_compute. split; discriminate.
  - vm_compute. reflexivity.
Defined.

End Player.
